(** * Rate limiting strategies of go-echo-mongo: a shallow embedding

    The four strategies of [pkg/ratelimit/strategy] (fixed window, sliding
    window, token bucket, leaky bucket), the Redis-backed repository of
    [internal/repository/redisrepo] they talk to, and the identifier
    extractors of the middleware constructors, written as Rocq functions
    over an explicit model of the Redis key space.

    Conventions.
    - Go [int] and [int64] are 64-bit two's complement integers: a [Z]
      together with [wrap64] where the source can overflow.
    - Go [float64] is IEEE 754 binary64, taken from the specification of
      floating-point arithmetic in the standard library ([spec_float] with
      precision 53 and maximal exponent 1024).  Nothing is idealised: sums,
      products and quotients round to nearest even, and infinities and NaN
      exist.
    - [time.Time] is a number of nanoseconds since the Unix epoch and
      [time.Duration] a signed 64-bit number of nanoseconds.
    - Every call of [time.Now()] of the source is an explicit argument. *)

From Stdlib Require Import ZArith String Ascii List Bool Lia.
From Stdlib Require Import DecimalString DecimalZ.
From Stdlib Require Import Floats.SpecFloat.
From Stdlib Require QArith Qround.
From stdpp Require Import gmap strings.

Local Open Scope string_scope.
Local Open Scope Z_scope.

(** ** Machine integers *)

Module GoInt.

Definition min_int64 : Z := - 2 ^ 63.
Definition max_int64 : Z := 2 ^ 63 - 1.

Definition in_int64 (z : Z) : Prop := min_int64 <= z <= max_int64.

Definition in_int64b (z : Z) : bool :=
  (min_int64 <=? z) && (z <=? max_int64).

(** Two's complement wrap-around of the result of an arithmetic operation. *)
Definition wrap64 (z : Z) : Z := (z + 2 ^ 63) mod 2 ^ 64 - 2 ^ 63.

Definition add (a b : Z) : Z := wrap64 (a + b).
Definition sub (a b : Z) : Z := wrap64 (a - b).
Definition mul (a b : Z) : Z := wrap64 (a * b).

(** Go's [/] and [%] on integers truncate towards zero; a zero divisor is a
    run-time panic, which the callers model. *)
Definition quo (a b : Z) : Z := wrap64 (Z.quot a b).
Definition rem (a b : Z) : Z := Z.rem a b.

End GoInt.

(** ** IEEE 754 binary64, Go's [float64] *)

Module F64.

Definition prec : Z := 53.
Definition emax : Z := 1024.

Definition float64 : Type := spec_float.

Definition add : float64 -> float64 -> float64 := SFadd prec emax.
Definition sub : float64 -> float64 -> float64 := SFsub prec emax.
Definition mul : float64 -> float64 -> float64 := SFmul prec emax.
Definition div : float64 -> float64 -> float64 := SFdiv prec emax.

(** Go's [<], [<=], [>], [>=] on floats: all false when a side is NaN. *)
Definition ltb (x y : float64) : bool := SFltb x y.
Definition leb (x y : float64) : bool := SFleb x y.
Definition gtb (x y : float64) : bool := SFltb y x.
Definition geb (x y : float64) : bool := SFleb y x.

(** [float64(n)] for an integer [n]: the nearest float, ties to even. *)
Definition of_int (z : Z) : float64 := binary_normalize prec emax z 0 false.

Definition is_nan (x : float64) : bool :=
  match x with S754_nan => true | _ => false end.

Definition is_finite (x : float64) : bool :=
  match x with S754_zero _ | S754_finite _ _ _ => true | _ => false end.

(** A float64 of the machine is a canonical one. *)
Definition valid (x : float64) : Prop := valid_binary prec emax x = true.

(** The integer part of a finite float, towards zero. *)
Definition trunc (x : float64) : Z :=
  match x with
  | S754_finite s m e =>
      cond_Zopp s (if 0 <=? e then Zpos m * 2 ^ e else Z.quot (Zpos m) (2 ^ (- e)))
  | _ => 0
  end.

(** [int64(x)] and [int(x)] for a float [x].  The fraction is discarded.
    The language leaves the result open when the value does not fit; the
    amd64 instruction the compiler emits gives the "integer indefinite"
    value, the smallest int64, for NaN, the infinities and values out of
    range, which is what is written here. *)
Definition to_int64 (x : float64) : Z :=
  match x with
  | S754_zero _ => 0
  | S754_finite _ _ _ =>
      let v := trunc x in
      if GoInt.in_int64b v then v else GoInt.min_int64
  | _ => GoInt.min_int64
  end.

Definition zero : float64 := S754_zero false.
Definition one : float64 := Eval vm_compute in of_int 1.

End F64.

(** ** [time.Duration] and [time.Time] *)

Module Duration.

(** A count of nanoseconds, an int64. *)
Definition t : Type := Z.

Definition Second : t := 1000000000.

(** [func (d Duration) Seconds() float64] of the Go library:
    [sec := d / Second; nsec := d % Second;
     return float64(sec) + float64(nsec)/1e9]. *)
Definition Seconds (d : t) : F64.float64 :=
  let sec := Z.quot d Second in
  let nsec := Z.rem d Second in
  F64.add (F64.of_int sec) (F64.div (F64.of_int nsec) (F64.of_int 1000000000)).

End Duration.

Module Time.

(** Nanoseconds since the Unix epoch. *)
Definition t : Type := Z.

(** [func (t Time) Unix() int64]: whole seconds since the epoch, rounded
    down. *)
Definition Unix (x : t) : Z := x / 1000000000.

(** [func (t Time) Sub(u Time) Duration]: the difference, saturated at the
    largest and smallest duration. *)
Definition Sub (x u : t) : Duration.t :=
  Z.max GoInt.min_int64 (Z.min GoInt.max_int64 (x - u)).

(** [func (t Time) Add(d Duration) Time]. *)
Definition Add (x : t) (d : Duration.t) : t := x + d.

End Time.

(** ** Strings: [strconv], [fmt.Sprintf], [strings.Contains] *)

Module Str.

(** [strconv.Itoa] and the verb [%d] of [fmt]. *)
Definition Itoa (z : Z) : string := NilZero.string_of_int (Z.to_int z).

(** [strconv.Atoi]: an optional sign, then at least one decimal digit; the
    value has to fit an int. *)
Definition Atoi (s : string) : option Z :=
  let '(neg, body) :=
    match s with
    | String "+"%char r => (false, r)
    | String "-"%char r => (true, r)
    | _ => (false, s)
    end in
  match NilZero.uint_of_string body with
  | Some d =>
      let v := cond_Zopp neg (Z.of_uint d) in
      if GoInt.in_int64b v then Some v else None
  | None => None
  end.

(** [strings.Contains s sub]. *)
Fixpoint Contains (s sub : string) : bool :=
  if String.prefix sub s then true
  else match s with
       | EmptyString => false
       | String _ r => Contains r sub
       end.

(** [fmt.Sprintf("%s:%s", a, b)]. *)
Definition Sprintf_s_s (a b : string) : string := a ++ ":" ++ b.

(** [fmt.Sprintf("%s:%s:%d", a, b, n)]. *)
Definition Sprintf_s_s_d (a b : string) (n : Z) : string :=
  a ++ ":" ++ b ++ ":" ++ Itoa n.

(** [fmt.Sprintf("%s:%s:%s", a, b, c)]. *)
Definition Sprintf_s_s_s (a b c : string) : string :=
  a ++ ":" ++ b ++ ":" ++ c.

End Str.

(** ** The Redis server, as the client library sees it

    The key space maps a key to a string value and the time-to-live the key
    was last given.  The server has no clock here: an entry keeps the
    time-to-live it was given and is not evicted.  [fault] is the transport
    error every command answers with while the server cannot be reached. *)

Module Redis.

Record entry : Type := Entry {
  value : string;
  ttl : option Duration.t
}.

Record server : Type := Server {
  fault : option string;
  kv : gmap string entry
}.

(** What [cmd.Result()] of go-redis returns: a value, the error [redis.Nil]
    (no such key), or another error. *)
Inductive reply (A : Type) : Type :=
| Val (a : A)
| NilReply
| Failure (msg : string).
Arguments Val {A} a.
Arguments NilReply {A}.
Arguments Failure {A} msg.

Definition set_kv (s : server) (m : gmap string entry) : server :=
  {| fault := fault s; kv := m |}.

(** The integers [INCR] accepts: the canonical decimal form of an int64. *)
Definition string2ll (s : string) : option Z :=
  match NilZero.int_of_string s with
  | Some d =>
      let v := Z.of_int d in
      if GoInt.in_int64b v && String.eqb (Str.Itoa v) s then Some v else None
  | None => None
  end.

(** [INCR key]: a missing key counts as 0; the time-to-live is kept. *)
Definition INCR (key : string) (s : server) : reply Z * server :=
  match fault s with
  | Some msg => (Failure msg, s)
  | None =>
      match kv s !! key with
      | None => (Val 1, set_kv s (<[key := Entry "1" None]> (kv s)))
      | Some e =>
          match string2ll (value e) with
          | None => (Failure "ERR value is not an integer or out of range", s)
          | Some n =>
              if n =? GoInt.max_int64
              then (Failure "ERR increment or decrement would overflow", s)
              else (Val (n + 1),
                    set_kv s (<[key := Entry (Str.Itoa (n + 1)) (ttl e)]> (kv s)))
          end
      end
  end.

Definition GET (key : string) (s : server) : reply string * server :=
  match fault s with
  | Some msg => (Failure msg, s)
  | None =>
      match kv s !! key with
      | None => (NilReply, s)
      | Some e => (Val (value e), s)
      end
  end.

Definition EXISTS (key : string) (s : server) : reply Z * server :=
  match fault s with
  | Some msg => (Failure msg, s)
  | None =>
      match kv s !! key with
      | None => (Val 0, s)
      | Some _ => (Val 1, s)
      end
  end.

(** How go-redis writes a duration on the wire.  [formatSec] and [formatMs]
    truncate to whole seconds and whole milliseconds, a positive duration
    below the unit counting as one unit; [usePrecise] tells whether [SET]
    sends milliseconds ([PX]) instead of seconds ([EX]). *)
Definition Millisecond : Duration.t := 1000000.

Definition formatSec (dur : Duration.t) : Z :=
  if (0 <? dur) && (dur <? Duration.Second) then 1
  else Z.quot dur Duration.Second.

Definition formatMs (dur : Duration.t) : Z :=
  if (0 <? dur) && (dur <? Millisecond) then 1
  else Z.quot dur Millisecond.

Definition usePrecise (dur : Duration.t) : bool :=
  (dur <? Duration.Second) || negb (Z.rem dur Duration.Second =? 0).

(** The time-to-live the server holds after [SET key value PX ms] or
    [SET key value EX sec], as a duration. *)
Definition set_ttl (expiration : Duration.t) : Duration.t :=
  if usePrecise expiration
  then formatMs expiration * Millisecond
  else formatSec expiration * Duration.Second.

(** [SET key value] as go-redis sends it for an expiration: a positive one
    is sent as [PX] or [EX], [-1] ([redis.KeepTTL]) as [KEEPTTL], which keeps
    the present one; any other value leaves the key without one. *)
Definition SET (key val : string) (expiration : Duration.t) (s : server)
  : reply unit * server :=
  match fault s with
  | Some msg => (Failure msg, s)
  | None =>
      let t :=
        if 0 <? expiration then Some (set_ttl expiration)
        else if expiration =? -1
             then match kv s !! key with Some e => ttl e | None => None end
             else None in
      (Val tt, set_kv s (<[key := Entry val t]> (kv s)))
  end.

(** [EXPIRE key seconds] with [seconds = formatSec expiration]: sets the
    time-to-live of a key that exists; a number of seconds that is not
    positive deletes the key. *)
Definition EXPIRE (key : string) (expiration : Duration.t) (s : server)
  : reply bool * server :=
  match fault s with
  | Some msg => (Failure msg, s)
  | None =>
      match kv s !! key with
      | None => (Val false, s)
      | Some e =>
          let seconds := formatSec expiration in
          if 0 <? seconds
          then (Val true,
                set_kv s (<[key := Entry (value e)
                                    (Some (seconds * Duration.Second))]> (kv s)))
          else (Val true, set_kv s (delete key (kv s)))
      end
  end.

Definition DEL (key : string) (s : server) : reply Z * server :=
  match fault s with
  | Some msg => (Failure msg, s)
  | None =>
      match kv s !! key with
      | None => (Val 0, s)
      | Some _ => (Val 1, set_kv s (delete key (kv s)))
      end
  end.

End Redis.

(** ** Effects: the world a strategy runs in

    A strategy talks to the repository, which talks to Redis.  A computation
    is a function of the world; it returns a value, returns an error (Go's
    second result), or panics.  The world also keeps the list of the calls
    made on the [RateLimitRepo] interface, oldest first. *)

Inductive call : Type :=
| CallIncrementPreserveTTL (key : string) (defaultExpiration : Duration.t)
| CallCheck (key : string)
| CallReset (key : string)
| CallSetState (key : string) (state : string) (expiration : Duration.t)
| CallGetState (key : string).

Definition call_key (c : call) : string :=
  match c with
  | CallIncrementPreserveTTL k _ | CallCheck k | CallReset k
  | CallSetState k _ _ | CallGetState k => k
  end.

(** The calls that change the key space. *)
Definition is_write (c : call) : bool :=
  match c with
  | CallIncrementPreserveTTL _ _ | CallReset _ | CallSetState _ _ _ => true
  | CallCheck _ | CallGetState _ => false
  end.

Record world : Type := World {
  server : Redis.server;
  calls : list call
}.

(** Go's [(value, error)] of a function without effects. *)
Inductive result (A : Type) : Type :=
| Ok (a : A)
| Err (msg : string).
Arguments Ok {A} a.
Arguments Err {A} msg.

Inductive outcome (A : Type) : Type :=
| Ret (a : A)
| Fail (err : string)
| Panic (msg : string).
Arguments Ret {A} a.
Arguments Fail {A} err.
Arguments Panic {A} msg.

Definition M (A : Type) : Type := world -> outcome A * world.

Definition ret {A} (a : A) : M A := fun w => (Ret a, w).
Definition fail {A} (err : string) : M A := fun w => (Fail err, w).
Definition panic {A} (msg : string) : M A := fun w => (Panic msg, w).

Definition bind {A B} (c : M A) (k : A -> M B) : M B :=
  fun w =>
    match c w with
    | (Ret a, w') => k a w'
    | (Fail err, w') => (Fail err, w')
    | (Panic msg, w') => (Panic msg, w')
    end.

Notation "x <- c ;; k" := (bind c (fun x => k))
  (at level 100, c at next level, right associativity).
Notation "c ;;; k" := (bind c (fun _ => k))
  (at level 100, right associativity).

(** [if err != nil { return ..., fmt.Errorf(prefix + "%w", err) }]. *)
Definition wrap {A} (prefix : string) (c : M A) : M A :=
  fun w =>
    match c w with
    | (Fail err, w') => (Fail (prefix ++ err), w')
    | r => r
    end.

(** [v, err := c], with the error as a value the caller inspects. *)
Definition attempt {A} (c : M A) : M (result A) :=
  fun w =>
    match c w with
    | (Ret a, w') => (Ret (Ok a), w')
    | (Fail err, w') => (Ret (Err err), w')
    | (Panic msg, w') => (Panic msg, w')
    end.

Definition log (c : call) : M unit :=
  fun w => (Ret tt, {| server := server w; calls := calls w ++ [c] |}).

(** A Redis command, with the translation of its reply into Go's results. *)
Definition command {A B} (cmd : Redis.server -> Redis.reply A * Redis.server)
    (on : Redis.reply A -> outcome B) : M B :=
  fun w =>
    let '(r, s') := cmd (server w) in
    (on r, {| server := s'; calls := calls w |}).

Definition result_of {A} (r : Redis.reply A) : outcome A :=
  match r with
  | Redis.Val a => Ret a
  | Redis.NilReply => Fail "redis: nil"
  | Redis.Failure msg => Fail msg
  end.

(** ** [redisrepo.repository]: the wrapper around the Redis client *)

Module RedisRepository.

Definition Set_ (key value : string) (expiration : Duration.t) : M unit :=
  command (Redis.SET key value expiration) result_of.

Definition Get (key : string) : M string :=
  command (Redis.GET key)
    (fun r =>
       match r with
       | Redis.NilReply => Fail ("key " ++ key ++ " not found")
       | _ => result_of r
       end).

Definition Delete (key : string) : M unit :=
  command (Redis.DEL key)
    (fun r => match result_of r with
              | Ret _ => Ret tt | Fail e => Fail e | Panic m => Panic m
              end).

Definition Exists (key : string) : M bool :=
  command (Redis.EXISTS key)
    (fun r => match result_of r with
              | Ret n => Ret (0 <? n) | Fail e => Fail e | Panic m => Panic m
              end).

Definition Expire (key : string) (expiration : Duration.t) : M unit :=
  command (Redis.EXPIRE key expiration)
    (fun r => match result_of r with
              | Ret _ => Ret tt | Fail e => Fail e | Panic m => Panic m
              end).

Definition Increment (key : string) : M Z :=
  command (Redis.INCR key) result_of.

End RedisRepository.

(** ** [redisrepo.rateLimitRepository], the [ratelimit.RateLimitRepo] the
    strategies use *)

Module RateLimitRepository.

Import RedisRepository.

Definition IncrementPreserveTTL (key : string) (defaultExpiration : Duration.t)
  : M Z :=
  log (CallIncrementPreserveTTL key defaultExpiration) ;;;
  val <- wrap "failed to increment counter: " (Increment key) ;;
  (if (val =? 1) && (0 <? defaultExpiration)
   then (if 0 <? defaultExpiration
         then wrap "failed to set expiration: " (Expire key defaultExpiration)
         else ret tt)
   else ret tt) ;;;
  ret val.

Definition Check (key : string) : M Z :=
  log (CallCheck key) ;;;
  exists_ <- wrap "failed to check if key exists: " (Exists key) ;;
  if negb exists_ then ret 0
  else
    countStr <- wrap "failed to get rate limit counter: " (Get key) ;;
    match Str.Atoi countStr with
    | Some count => ret count
    | None =>
        fail ("invalid rate limit counter value: strconv.Atoi: parsing "
              ++ countStr)
    end.

Definition Reset (key : string) : M unit :=
  log (CallReset key) ;;;
  Delete key.

Definition SetState (key state : string) (expiration : Duration.t) : M unit :=
  log (CallSetState key state expiration) ;;;
  wrap "failed to set state: " (Set_ key state expiration).

Definition GetState (key : string) : M string :=
  log (CallGetState key) ;;;
  wrap "failed to get state: " (Get key).

(** [Increment], the counter written with [Exists], [Get] and [Set].  It is
    not a method of [ratelimit.RateLimitRepo] and no strategy calls it, so it
    adds nothing to the log of calls. *)
Definition Increment (key : string) (expiration : Duration.t) : M Z :=
  exists_ <- wrap "failed to check if key exists: " (Exists key) ;;
  if negb exists_
  then
    wrap "failed to create rate limit counter: " (Set_ key "1" expiration) ;;;
    ret 1
  else
    countStr <- wrap "failed to get rate limit counter: " (Get key) ;;
    match Str.Atoi countStr with
    | None =>
        fail ("invalid rate limit counter value: strconv.Atoi: parsing "
              ++ countStr)
    | Some count =>
        let count := GoInt.add count 1 in
        wrap "failed to update rate limit counter: "
          (Set_ key (Str.Itoa count) expiration) ;;;
        ret count
    end.

End RateLimitRepository.

(** ** What the strategies share *)

(** [ratelimit.RateLimitResponse]. *)
Record RateLimitResponse : Type := {
  Limit : Z;
  Remaining : Z;
  Reset : Z
}.

(** [encoding/json] at one type.  The text the Go library produces for a
    state and the states it reads back from a text are not part of the
    repository: the strategies are written over any such pair.  [decode]
    answers with the library's error message for a text it rejects. *)
Class JSON (A : Type) : Type := {
  encode : A -> string;
  decode : string -> result A
}.

(** Integer division and remainder of Go: a zero divisor panics. *)
Definition divide (a b : Z) : M Z :=
  if b =? 0 then panic "runtime error: integer divide by zero"
  else ret (GoInt.quo a b).

Definition modulo (a b : Z) : M Z :=
  if b =? 0 then panic "runtime error: integer divide by zero"
  else ret (GoInt.rem a b).

(** ** Fixed window *)

Module FixedWindow.

Record FixedWindowStore : Type := {
  limit : Z;
  windowSize : Duration.t;
  keyPrefix : string
}.

Definition NewFixedWindowStore (limit : Z) (windowSize : Duration.t)
  : FixedWindowStore :=
  {| limit := limit;
     windowSize := windowSize;
     keyPrefix := "rate_limit_fixed_window" |}.

Definition Allow (s : FixedWindowStore) (identifier : string) (now : Time.t)
  : M bool :=
  windowNum <- divide (Time.Unix now)
                 (F64.to_int64 (Duration.Seconds (windowSize s))) ;;
  let key := Str.Sprintf_s_s_d (keyPrefix s) identifier windowNum in
  count <- wrap "failed to increment rate limit counter: "
             (RateLimitRepository.IncrementPreserveTTL key (windowSize s)) ;;
  ret (count <=? limit s).

Definition GetRateLimitInfo (s : FixedWindowStore) (identifier : string)
    (now : Time.t) : M RateLimitResponse :=
  windowNum <- divide (Time.Unix now)
                 (F64.to_int64 (Duration.Seconds (windowSize s))) ;;
  let key := Str.Sprintf_s_s_d (keyPrefix s) identifier windowNum in
  count <- RateLimitRepository.Check key ;;
  let nextWindow :=
    GoInt.mul (GoInt.add windowNum 1)
      (F64.to_int64 (Duration.Seconds (windowSize s))) in
  let remaining := GoInt.sub (limit s) count in
  let remaining := if remaining <? 0 then 0 else remaining in
  ret {| Limit := limit s; Remaining := remaining; Reset := nextWindow |}.

End FixedWindow.

(** ** Sliding window *)

Module SlidingWindow.

Record SlidingWindowStore : Type := {
  limit : Z;
  windowSize : Duration.t;
  keyPrefix : string
}.

Definition NewSlidingWindowStore (limit : Z) (windowSize : Duration.t)
  : SlidingWindowStore :=
  {| limit := limit;
     windowSize := windowSize;
     keyPrefix := "rate_limit_sliding_window" |}.

(** [offset := float64(now.Unix()%secs) / float64(windowSize.Seconds())],
    given the remainder. *)
Definition offset (s : SlidingWindowStore) (r : Z) : F64.float64 :=
  F64.div (F64.of_int r) (Duration.Seconds (windowSize s)).

(** [int(float64(previousCount)*previousWeight) + currentCount]. *)
Definition weightedCount (s : SlidingWindowStore) (r previousCount currentCount : Z)
  : Z :=
  let previousWeight := F64.sub F64.one (offset s r) in
  GoInt.add (F64.to_int64 (F64.mul (F64.of_int previousCount) previousWeight))
    currentCount.

Definition Allow (s : SlidingWindowStore) (identifier : string) (now : Time.t)
  : M bool :=
  let secs := F64.to_int64 (Duration.Seconds (windowSize s)) in
  currentWindow <- divide (Time.Unix now) secs ;;
  let previousWindow := GoInt.sub currentWindow 1 in
  let currentKey := Str.Sprintf_s_s_d (keyPrefix s) identifier currentWindow in
  let previousKey := Str.Sprintf_s_s_d (keyPrefix s) identifier previousWindow in
  currentCount <- RateLimitRepository.Check currentKey ;;
  previousCount <- RateLimitRepository.Check previousKey ;;
  r <- modulo (Time.Unix now) secs ;;
  if limit s <=? weightedCount s r previousCount currentCount then ret false
  else
    RateLimitRepository.IncrementPreserveTTL currentKey (GoInt.mul (windowSize s) 2) ;;;
    ret true.

Definition GetRateLimitInfo (s : SlidingWindowStore) (identifier : string)
    (now : Time.t) : M RateLimitResponse :=
  let secs := F64.to_int64 (Duration.Seconds (windowSize s)) in
  currentWindow <- divide (Time.Unix now) secs ;;
  let previousWindow := GoInt.sub currentWindow 1 in
  let currentKey := Str.Sprintf_s_s_d (keyPrefix s) identifier currentWindow in
  let previousKey := Str.Sprintf_s_s_d (keyPrefix s) identifier previousWindow in
  currentCount <- RateLimitRepository.Check currentKey ;;
  previousCount <- RateLimitRepository.Check previousKey ;;
  r <- modulo (Time.Unix now) secs ;;
  let remaining :=
    GoInt.sub (limit s) (weightedCount s r previousCount currentCount) in
  let remaining := if remaining <? 0 then 0 else remaining in
  let nextReset := GoInt.mul (GoInt.add currentWindow 1) secs in
  ret {| Limit := limit s; Remaining := remaining; Reset := nextReset |}.

End SlidingWindow.

(** The weighted count in the words of the specification, in exact
    arithmetic: [weight = 1 - (now mod windowSize)/windowSize] and
    [weightedCount = floor(previousCount * weight) + currentCount], for a
    window of [secs] seconds and the remainder [r] of the time in it; a
    request is permitted when the weighted count is below the limit. *)

Module SlidingWindowSpec.

Definition spec_weight (secs r : Z) : QArith_base.Q :=
  QArith_base.Qminus (QArith_base.inject_Z 1)
    (QArith_base.Qdiv (QArith_base.inject_Z r) (QArith_base.inject_Z secs)).

Definition spec_weightedCount (secs r previousCount currentCount : Z) : Z :=
  Qround.Qfloor
    (QArith_base.Qmult (QArith_base.inject_Z previousCount)
       (spec_weight secs r))
  + currentCount.

Definition spec_permits (limit secs r previousCount currentCount : Z) : bool :=
  spec_weightedCount secs r previousCount currentCount <? limit.

End SlidingWindowSpec.

(** ** Token bucket *)

Module TokenBucket.

Record TokenBucketStore : Type := {
  rate : F64.float64;
  burst : Z;
  expiresIn : Duration.t;
  keyPrefix : string
}.

Record tokenBucketState : Type := {
  Tokens : F64.float64;
  LastRefill : Time.t
}.

Definition NewTokenBucketStore (rate : F64.float64) (burst : Z)
    (expiresIn : Duration.t) : TokenBucketStore :=
  {| rate := rate;
     burst := burst;
     expiresIn := expiresIn;
     keyPrefix := "rate_limit_token_bucket" |}.

Section WithJSON.
Context `{JSON tokenBucketState}.

(** [json.Marshal] of a state: the library refuses the floats that have no
    JSON form, NaN and the infinities, with an [UnsupportedValueError]. *)
Definition Marshal (state : tokenBucketState) : result string :=
  if F64.is_finite (Tokens state) then Ok (encode state)
  else Err "json: unsupported value".

(** [json.Unmarshal] into a state. *)
Definition Unmarshal (stateJSON : string) : result tokenBucketState :=
  decode stateJSON.

(** [t0] is the [time.Now()] of the branch that makes a fresh state. *)
Definition getBucketState (s : TokenBucketStore) (key : string) (t0 : Time.t)
  : M tokenBucketState :=
  r <- attempt (RateLimitRepository.GetState key) ;;
  match r with
  | Err err =>
      if Str.Contains err "not found"
      then ret {| Tokens := F64.of_int (burst s); LastRefill := t0 |}
      else fail err
  | Ok stateJSON =>
      match Unmarshal stateJSON with
      | Err err => fail ("failed to unmarshal token bucket state: " ++ err)
      | Ok state => ret state
      end
  end.

Definition saveBucketState (s : TokenBucketStore) (key : string)
    (state : tokenBucketState) : M unit :=
  match Marshal state with
  | Err err => fail ("failed to marshal token bucket state: " ++ err)
  | Ok stateJSON => RateLimitRepository.SetState key stateJSON (expiresIn s)
  end.

(** [state.Tokens + elapsed*rate], capped at the burst size. *)
Definition refill (s : TokenBucketStore) (state : tokenBucketState)
    (now : Time.t) : F64.float64 :=
  let elapsed := Duration.Seconds (Time.Sub now (LastRefill state)) in
  let newTokens := F64.add (Tokens state) (F64.mul elapsed (rate s)) in
  if F64.gtb newTokens (F64.of_int (burst s)) then F64.of_int (burst s)
  else newTokens.

Definition Allow (s : TokenBucketStore) (identifier : string)
    (t0 now : Time.t) : M bool :=
  let key := Str.Sprintf_s_s (keyPrefix s) identifier in
  state <- wrap "failed to get bucket state: " (getBucketState s key t0) ;;
  let newTokens := refill s state now in
  if F64.ltb newTokens F64.one then ret false
  else
    let state := {| Tokens := F64.sub newTokens F64.one; LastRefill := now |} in
    wrap "failed to save bucket state: " (saveBucketState s key state) ;;;
    ret true.

Definition GetRateLimitInfo (s : TokenBucketStore) (identifier : string)
    (t0 now : Time.t) : M RateLimitResponse :=
  let key := Str.Sprintf_s_s (keyPrefix s) identifier in
  state <- getBucketState s key t0 ;;
  let currentTokens := refill s state now in
  let tokensNeeded := F64.sub (F64.of_int (burst s)) currentTokens in
  let timeToFull :=
    GoInt.mul (F64.to_int64 (F64.div tokensNeeded (rate s))) Duration.Second in
  ret {| Limit := burst s;
         Remaining := F64.to_int64 currentTokens;
         Reset := Time.Unix (Time.Add now timeToFull) |}.

End WithJSON.

End TokenBucket.

(** ** Leaky bucket *)

Module LeakyBucket.

Record LeakyBucketStore : Type := {
  capacity : Z;
  leakRate : F64.float64;
  expiresIn : Duration.t;
  keyPrefix : string
}.

Record leakyBucketState : Type := {
  Water : Z;
  LastLeak : Time.t
}.

Definition NewLeakyBucketStore (capacity : Z) (leakRate : F64.float64)
    (expiresIn : Duration.t) : LeakyBucketStore :=
  {| capacity := capacity;
     leakRate := leakRate;
     expiresIn := expiresIn;
     keyPrefix := "rate_limit_leaky_bucket" |}.

Section WithJSON.
Context `{JSON leakyBucketState}.

(** [json.Marshal] and [json.Unmarshal] of a state. *)
Definition Marshal (state : leakyBucketState) : result string :=
  Ok (encode state).

Definition Unmarshal (stateJSON : string) : result leakyBucketState :=
  decode stateJSON.

Definition getBucketState (s : LeakyBucketStore) (key : string) (t0 : Time.t)
  : M leakyBucketState :=
  r <- attempt (RateLimitRepository.GetState key) ;;
  match r with
  | Err err =>
      if Str.Contains err "not found"
      then ret {| Water := 0; LastLeak := t0 |}
      else fail err
  | Ok stateJSON =>
      match Unmarshal stateJSON with
      | Err err => fail ("failed to unmarshal leaky bucket state: " ++ err)
      | Ok state => ret state
      end
  end.

Definition saveBucketState (s : LeakyBucketStore) (key : string)
    (state : leakyBucketState) : M unit :=
  match Marshal state with
  | Err err => fail ("failed to marshal leaky bucket state: " ++ err)
  | Ok stateJSON => RateLimitRepository.SetState key stateJSON (expiresIn s)
  end.

(** [leaked := int(elapsed * s.leakRate)]. *)
Definition leaked (s : LeakyBucketStore) (state : leakyBucketState)
    (now : Time.t) : Z :=
  let elapsed := Duration.Seconds (Time.Sub now (LastLeak state)) in
  F64.to_int64 (F64.mul elapsed (leakRate s)).

(** [max(0, state.Water-leaked)]. *)
Definition drained (s : LeakyBucketStore) (state : leakyBucketState)
    (now : Time.t) : Z :=
  Z.max 0 (GoInt.sub (Water state) (leaked s state now)).

Definition Allow (s : LeakyBucketStore) (identifier : string)
    (t0 now : Time.t) : M bool :=
  let key := Str.Sprintf_s_s (keyPrefix s) identifier in
  state <- getBucketState s key t0 ;;
  let water := drained s state now in
  if capacity s <=? water
  then
    saveBucketState s key {| Water := water; LastLeak := LastLeak state |} ;;;
    ret false
  else
    saveBucketState s key {| Water := GoInt.add water 1; LastLeak := now |} ;;;
    ret true.

Definition GetRateLimitInfo (s : LeakyBucketStore) (identifier : string)
    (t0 now : Time.t) : M RateLimitResponse :=
  let key := Str.Sprintf_s_s (keyPrefix s) identifier in
  state <- getBucketState s key t0 ;;
  let currentWater := drained s state now in
  let remaining := GoInt.sub (capacity s) currentWater in
  let remaining := if remaining <? 0 then 0 else remaining in
  let reset :=
    if 0 <? currentWater
    then GoInt.add (Time.Unix now)
           (F64.to_int64 (F64.div (F64.of_int currentWater) (leakRate s)))
    else Time.Unix now in
  ret {| Limit := capacity s; Remaining := remaining; Reset := reset |}.

End WithJSON.

End LeakyBucket.

(** ** The middleware: identifier extraction and the adapter *)

Module Middleware.

(** What the extractors and handlers read of an [echo.Context]: the value of
    the header [X-API-Key] (empty when the header is missing), the result of
    [c.RealIP()], and the path of the URL. *)
Record Context : Type := {
  X_API_Key : string;
  RealIP : string;
  Path : string
}.

(** The [IdentifierExtractor] of [NewFixedWindowMiddleware],
    [NewSlidingWindowMiddleware], [NewTokenBucketMiddleware] and
    [NewLeakyBucketMiddleware]; the four are the same function. *)
Definition IdentifierExtractor (c : Context) : result string :=
  let apiKey := X_API_Key c in
  if negb (String.eqb apiKey "") then Ok ("api:" ++ apiKey)
  else Ok ("ip:" ++ RealIP c).

(** The [IdentifierExtractor] of the four [...MiddlewarePerPath]. *)
Definition IdentifierExtractorPerPath (c : Context) : result string :=
  let path := Path c in
  let apiKey := X_API_Key c in
  if negb (String.eqb apiKey "") then Ok (Str.Sprintf_s_s_s "api" apiKey path)
  else Ok (Str.Sprintf_s_s_s "ip" (RealIP c) path).

(** The [middleware.RateLimiterStore] of echo, with the two methods the
    handlers of the repository add.  [t0] and [now] are the readings of the
    clock a call makes; the window strategies read it once. *)
Class RateLimiterStore (S : Type) : Type := {
  Allow : S -> string -> Time.t -> Time.t -> M bool;
  GetRateLimitInfo : S -> string -> Time.t -> Time.t -> M RateLimitResponse
}.

#[export] Instance FixedWindow_store : RateLimiterStore FixedWindow.FixedWindowStore :=
  {| Allow s identifier _ now := FixedWindow.Allow s identifier now;
     GetRateLimitInfo s identifier _ now :=
       FixedWindow.GetRateLimitInfo s identifier now |}.

#[export] Instance SlidingWindow_store
  : RateLimiterStore SlidingWindow.SlidingWindowStore :=
  {| Allow s identifier _ now := SlidingWindow.Allow s identifier now;
     GetRateLimitInfo s identifier _ now :=
       SlidingWindow.GetRateLimitInfo s identifier now |}.

#[export] Instance TokenBucket_store `{JSON TokenBucket.tokenBucketState}
  : RateLimiterStore TokenBucket.TokenBucketStore :=
  {| Allow := TokenBucket.Allow;
     GetRateLimitInfo := TokenBucket.GetRateLimitInfo |}.

#[export] Instance LeakyBucket_store `{JSON LeakyBucket.leakyBucketState}
  : RateLimiterStore LeakyBucket.LeakyBucketStore :=
  {| Allow := LeakyBucket.Allow;
     GetRateLimitInfo := LeakyBucket.GetRateLimitInfo |}.

(** What the adapter does with a request: hand it to the next handler, or
    answer with a status, a JSON object and headers. *)
Inductive response : Type :=
| Next
| JSONResponse (status : Z) (body : list (string * string))
    (headers : list (string * string)).

Section Adapter.
Context {S : Type} `{RateLimiterStore S}.

Definition SetRateLimitHeaders (info : RateLimitResponse)
  : list (string * string) :=
  [("X-RateLimit-Limit", Str.Itoa (Limit info));
   ("X-RateLimit-Remaining", Str.Itoa (Remaining info));
   ("X-RateLimit-Reset", Str.Itoa (Reset info))].

Definition ErrorHandler (err : string) : response :=
  JSONResponse 500 [("error", "Internal rate limit error")] [].

Definition DenyHandler (s : S) (identifier : string) (err : option string)
    (t0 now : Time.t) : M response :=
  match err with
  | Some _ => ret (JSONResponse 500 [("error", "Internal rate limit error")] [])
  | None =>
      r <- attempt (GetRateLimitInfo s identifier t0 now) ;;
      match r with
      | Err _ =>
          ret (JSONResponse 500 [("error", "Failed to get rate limit info")] [])
      | Ok info =>
          ret (JSONResponse 429 [("error", "Rate limit exceeded")]
                 (SetRateLimitHeaders info))
      end
  end.

(** [middleware.RateLimiterWithConfig] of echo, with the handlers of the
    repository: extract the identifier; on an error answer with the error
    handler; call [Allow]; unless it allows, answer with the deny handler.
    [t0], [now] are the clock readings of [Allow], [t0'], [now'] those of
    [GetRateLimitInfo]. *)
Definition RateLimiterWithConfig (extractor : Context -> result string)
    (s : S) (c : Context) (t0 now t0' now' : Time.t) : M response :=
  match extractor c with
  | Err err => ret (ErrorHandler err)
  | Ok identifier =>
      r <- attempt (Allow s identifier t0 now) ;;
      match r with
      | Ok true => ret Next
      | Ok false => DenyHandler s identifier None t0' now'
      | Err err => DenyHandler s identifier (Some err) t0' now'
      end
  end.

End Adapter.

End Middleware.

(** ** The selector of [mwutil]: one limiter out of four *)

Module Selector.

Import Middleware.

(** [mwutil.RateLimitConfig]; the strategy is a string. *)
Record RateLimitConfig : Type := {
  Strategy : string;
  Limit_ : Z;
  Window : Duration.t;
  Burst : Z;
  Rate : F64.float64
}.

(** The store a middleware is built around. *)
Inductive Limiter : Type :=
| FixedLimiter (s : FixedWindow.FixedWindowStore)
| SlidingLimiter (s : SlidingWindow.SlidingWindowStore)
| TokenLimiter (s : TokenBucket.TokenBucketStore)
| LeakyLimiter (s : LeakyBucket.LeakyBucketStore).

(** [mwutil.NewRateLimiter]: a strategy that is not known falls back to the
    fixed window. *)
Definition NewRateLimiter (config : RateLimitConfig) : Limiter :=
  if String.eqb (Strategy config) "fixed_window"
  then FixedLimiter (FixedWindow.NewFixedWindowStore (Limit_ config) (Window config))
  else if String.eqb (Strategy config) "sliding_window"
  then SlidingLimiter
         (SlidingWindow.NewSlidingWindowStore (Limit_ config) (Window config))
  else if String.eqb (Strategy config) "token_bucket"
  then TokenLimiter
         (TokenBucket.NewTokenBucketStore (Rate config) (Burst config) (Window config))
  else if String.eqb (Strategy config) "leaky_bucket"
  then LeakyLimiter
         (LeakyBucket.NewLeakyBucketStore (Burst config) (Rate config) (Window config))
  else FixedLimiter (FixedWindow.NewFixedWindowStore (Limit_ config) (Window config)).

Section WithJSON.
Context `{JSON TokenBucket.tokenBucketState} `{JSON LeakyBucket.leakyBucketState}.

#[export] Instance Limiter_store : Middleware.RateLimiterStore Limiter :=
  {| Middleware.Allow l :=
       match l with
       | FixedLimiter s => Middleware.Allow s
       | SlidingLimiter s => Middleware.Allow s
       | TokenLimiter s => Middleware.Allow s
       | LeakyLimiter s => Middleware.Allow s
       end;
     Middleware.GetRateLimitInfo l :=
       match l with
       | FixedLimiter s => Middleware.GetRateLimitInfo s
       | SlidingLimiter s => Middleware.GetRateLimitInfo s
       | TokenLimiter s => Middleware.GetRateLimitInfo s
       | LeakyLimiter s => Middleware.GetRateLimitInfo s
       end |}.

End WithJSON.

(** The keys a limiter builds for an identifier: one per window for the
    window strategies, one for the bucket strategies. *)
Definition keys (l : Limiter) (identifier : string) (k : string) : Prop :=
  match l with
  | FixedLimiter s =>
      exists n, k = Str.Sprintf_s_s_d (FixedWindow.keyPrefix s) identifier n
  | SlidingLimiter s =>
      exists n, k = Str.Sprintf_s_s_d (SlidingWindow.keyPrefix s) identifier n
  | TokenLimiter s => k = Str.Sprintf_s_s (TokenBucket.keyPrefix s) identifier
  | LeakyLimiter s => k = Str.Sprintf_s_s (LeakyBucket.keyPrefix s) identifier
  end.

End Selector.

(** ** A concrete encoding of the bucket states

    The examples below run the bucket strategies; they need some encoding
    of the states.  This one writes the integers in decimal: a leaky bucket
    state is [water@lastLeak], a token bucket state [mantissa p exponent@lastRefill]. *)

Module Codec.

Fixpoint split_at (c : ascii) (s : string) : option (string * string) :=
  match s with
  | EmptyString => None
  | String a r =>
      if Ascii.eqb a c then Some (EmptyString, r)
      else match split_at c r with
           | Some (x, y) => Some (String a x, y)
           | None => None
           end
  end.

Definition parse2 (c : ascii) (s : string) : option (Z * Z) :=
  match split_at c s with
  | Some (x, y) =>
      match Str.Atoi x, Str.Atoi y with
      | Some a, Some b => Some (a, b)
      | _, _ => None
      end
  | None => None
  end.

Definition encode_float (x : F64.float64) : string :=
  match x with
  | S754_finite s m e => Str.Itoa (cond_Zopp s (Zpos m)) ++ "p" ++ Str.Itoa e
  | _ => "0p0"
  end.

Definition decode_float (s : string) : option F64.float64 :=
  match parse2 "p" s with
  | Some (Zpos m, e) => Some (S754_finite false m e)
  | Some (Zneg m, e) => Some (S754_finite true m e)
  | Some (Z0, _) => Some (S754_zero false)
  | None => None
  end.

#[export] Instance leaky_json : JSON LeakyBucket.leakyBucketState :=
  {| encode st :=
       Str.Itoa (LeakyBucket.Water st) ++ "@" ++ Str.Itoa (LeakyBucket.LastLeak st);
     decode s :=
       match parse2 "@" s with
       | Some (w, t) => Ok {| LeakyBucket.Water := w; LeakyBucket.LastLeak := t |}
       | None => Err "invalid character"
       end |}.

#[export] Instance token_json : JSON TokenBucket.tokenBucketState :=
  {| encode st :=
       encode_float (TokenBucket.Tokens st) ++ "@"
       ++ Str.Itoa (TokenBucket.LastRefill st);
     decode s :=
       match split_at "@" s with
       | Some (x, y) =>
           match decode_float x, Str.Atoi y with
           | Some f, Some t =>
               Ok {| TokenBucket.Tokens := f; TokenBucket.LastRefill := t |}
           | _, _ => Err "invalid character"
           end
       | None => Err "invalid character"
       end |}.

End Codec.

(** ** Running a sequence of calls *)

(** A reachable server with nothing stored, and no call made yet. *)
Definition empty_world : world :=
  {| server := {| Redis.fault := None; Redis.kv := ∅ |}; calls := [] |}.

(** The same call at each of the given times, one after the other; the
    outcomes in order, and the world at the end. *)
Fixpoint run_at {A} (f : Time.t -> M A) (times : list Time.t) (w : world)
  : list (outcome A) * world :=
  match times with
  | [] => ([], w)
  | t :: rest =>
      let '(o, w') := f t w in
      let '(os, w'') := run_at f rest w' in
      (o :: os, w'')
  end.

(** * Facts *)

(** ** Machine integers *)

Module GoIntFacts.

Import GoInt.

Lemma wrap64_id z : in_int64 z -> wrap64 z = z.
Proof.
  unfold in_int64, min_int64, max_int64, wrap64. intros H.
  rewrite Z.mod_small; lia.
Qed.

Lemma wrap64_range z : in_int64 (wrap64 z).
Proof.
  unfold in_int64, min_int64, max_int64, wrap64.
  pose proof (Z.mod_pos_bound (z + 2 ^ 63) (2 ^ 64) ltac:(lia)). lia.
Qed.

Lemma in_int64b_true z : in_int64 z -> in_int64b z = true.
Proof.
  unfold in_int64, in_int64b. intros [H1 H2].
  apply andb_true_iff. split; apply Z.leb_le; assumption.
Qed.

End GoIntFacts.

(** ** Floating-point arithmetic

    What the theorems below need of binary64: the operations return canonical
    floats, rounding is monotone, a duration has a whole second exactly when
    it is a second long, and a bucket with a token still has a level between
    zero and its size after one is taken. *)

Module F64Facts.

Import F64.




(** *** Number of binary digits *)

Lemma digits2_pos_bounds p :
  2 ^ (Zpos (digits2_pos p) - 1) <= Zpos p < 2 ^ Zpos (digits2_pos p).
Proof.
  induction p as [p IH | p IH |]; cbn [digits2_pos].
  - rewrite Pos2Z.inj_succ.
    replace (Z.succ (Zpos (digits2_pos p)) - 1) with (Z.succ (Zpos (digits2_pos p) - 1)) by lia.
    rewrite !Z.pow_succ_r by lia. lia.
  - rewrite Pos2Z.inj_succ.
    replace (Z.succ (Zpos (digits2_pos p)) - 1) with (Z.succ (Zpos (digits2_pos p) - 1)) by lia.
    rewrite !Z.pow_succ_r by lia. lia.
  - cbn. lia.
Qed.

Lemma Zdigits2_bounds m :
  0 < m -> 2 ^ (Zdigits2 m - 1) <= m < 2 ^ Zdigits2 m.
Proof.
  destruct m as [|p|p]; try lia. intros _. apply digits2_pos_bounds.
Qed.

Lemma Zdigits2_pos m : 0 < m -> 0 < Zdigits2 m.
Proof. destruct m; cbn; lia. Qed.

Lemma Zdigits2_nonneg m : 0 <= Zdigits2 m.
Proof. destruct m; cbn; lia. Qed.

Lemma Zdigits2_unique m d :
  2 ^ (d - 1) <= m < 2 ^ d -> 0 < m -> Zdigits2 m = d.
Proof.
  intros [Hlo Hhi] Hm.
  pose proof (Zdigits2_bounds m Hm) as [Hlo' Hhi'].
  pose proof (Zdigits2_pos m Hm) as Hd.
  assert (0 < d).
  { destruct (Z_lt_le_dec 0 d); auto.
    destruct (Z.eq_dec d 0) as [->|]; [cbn in Hhi; lia|].
    rewrite (Z.pow_neg_r 2 d) in Hhi by lia. lia. }
  destruct (Z_lt_le_dec (Zdigits2 m) d).
  - assert (2 ^ Zdigits2 m <= 2 ^ (d - 1)) by (apply Z.pow_le_mono_r; lia). lia.
  - destruct (Z_lt_le_dec d (Zdigits2 m)); [|lia].
    assert (2 ^ d <= 2 ^ (Zdigits2 m - 1)) by (apply Z.pow_le_mono_r; lia). lia.
Qed.

Lemma Zdigits2_le a b : 0 <= a <= b -> Zdigits2 a <= Zdigits2 b.
Proof.
  intros [Ha Hab].
  destruct (Z.eq_dec a 0) as [->|]; [apply Zdigits2_nonneg|].
  pose proof (Zdigits2_bounds a ltac:(lia)) as [Hlo _].
  pose proof (Zdigits2_bounds b ltac:(lia)) as [_ Hhi].
  destruct (Z_lt_le_dec (Zdigits2 b) (Zdigits2 a)); [|lia].
  assert (2 ^ Zdigits2 b <= 2 ^ (Zdigits2 a - 1)) by (apply Z.pow_le_mono_r; lia). lia.
Qed.

Lemma Zdigits2_shiftl m n :
  0 < m -> 0 <= n -> Zdigits2 (m * 2 ^ n) = Zdigits2 m + n.
Proof.
  intros Hm Hn. pose proof (Zdigits2_bounds m Hm) as [Hlo Hhi].
  pose proof (Zdigits2_pos m Hm).
  apply Zdigits2_unique; [|nia].
  replace (Zdigits2 m + n - 1) with ((Zdigits2 m - 1) + n) by lia.
  rewrite !Z.pow_add_r by lia. nia.
Qed.

Lemma Zdigits2_shiftr m n :
  0 < m -> 0 <= n < Zdigits2 m -> Zdigits2 (m / 2 ^ n) = Zdigits2 m - n.
Proof.
  intros Hm Hn. pose proof (Zdigits2_bounds m Hm) as [Hlo Hhi].
  assert (Hp : 0 < 2 ^ n) by (apply Z.pow_pos_nonneg; lia).
  assert (E1 : 2 ^ (Zdigits2 m - 1) = 2 ^ (Zdigits2 m - n - 1) * 2 ^ n).
  { rewrite <- Z.pow_add_r by lia. f_equal. lia. }
  assert (E2 : 2 ^ Zdigits2 m = 2 ^ (Zdigits2 m - n) * 2 ^ n).
  { rewrite <- Z.pow_add_r by lia. f_equal. lia. }
  assert (Hq1 : 2 ^ (Zdigits2 m - n - 1) <= m / 2 ^ n).
  { apply Z.div_le_lower_bound; lia. }
  assert (Hq2 : m / 2 ^ n < 2 ^ (Zdigits2 m - n)).
  { apply Z.div_lt_upper_bound; lia. }
  assert (0 < 2 ^ (Zdigits2 m - n - 1)) by (apply Z.pow_pos_nonneg; lia).
  apply Zdigits2_unique; lia.
Qed.

Lemma Zdigits2_shiftr_all m n :
  0 <= m -> Zdigits2 m <= n -> m / 2 ^ n = 0.
Proof.
  intros Hm Hn. destruct (Z.eq_dec m 0) as [->|]; [apply Z.div_0_l; apply Z.pow_nonzero; pose proof (Zdigits2_nonneg 0); lia|].
  pose proof (Zdigits2_bounds m ltac:(lia)) as [_ Hhi].
  apply Z.div_small. split; [lia|].
  assert (2 ^ Zdigits2 m <= 2 ^ n) by (apply Z.pow_le_mono_r; lia). lia.
Qed.



(** *** Shifting a mantissa to the right *)

Lemma iter_pos_nat {A} (f : A -> A) p x :
  SpecFloat.iter_pos f p x = Nat.iter (Pos.to_nat p) f x.
Proof.
  revert x. induction p as [p IH | p IH |]; intros x; cbn [SpecFloat.iter_pos].
  - rewrite !IH, Pos2Nat.inj_xI.
    replace (S (2 * Pos.to_nat p))%nat with (Pos.to_nat p + S (Pos.to_nat p))%nat by lia.
    rewrite Nat.iter_add. f_equal. now rewrite Nat.iter_succ_r.
  - rewrite !IH, Pos2Nat.inj_xO.
    replace (2 * Pos.to_nat p)%nat with (Pos.to_nat p + Pos.to_nat p)%nat by lia.
    now rewrite Nat.iter_add.
  - reflexivity.
Qed.

Definition exact (r : shr_record) : Prop :=
  shr_r r = false /\ shr_s r = false.

Lemma shr_1_m r : 0 <= shr_m r -> shr_m (shr_1 r) = shr_m r / 2.
Proof.
  destruct r as [m r s]; cbn [shr_m]. intros Hm.
  destruct m as [|[p|p|]|p]; cbn [shr_1 shr_m]; try lia.
  - reflexivity.
  - apply Z.div_unique with (r := 1); lia.
  - apply Z.div_unique with (r := 0); lia.
  - reflexivity.
Qed.

Lemma shr_1_exact r :
  0 <= shr_m r -> exact r -> shr_m r mod 2 = 0 -> exact (shr_1 r).
Proof.
  destruct r as [m r s]; unfold exact; cbn [shr_m shr_r shr_s].
  intros Hm [-> ->] Hev.
  destruct m as [|[p|p|]|p]; cbn; try lia; auto.
  - exfalso. apply Z.mod_divide in Hev; [|lia]. destruct Hev as [q Hq]. lia.
  - exfalso. apply Z.mod_divide in Hev; [|lia]. destruct Hev as [q Hq]. lia.
Qed.

Lemma shr_iter_m (k : nat) r :
  0 <= shr_m r -> shr_m (Nat.iter k shr_1 r) = shr_m r / 2 ^ Z.of_nat k.
Proof.
  intros Hm. induction k as [|k IH].
  - cbn. now rewrite Z.div_1_r.
  - rewrite Nat.iter_succ. rewrite shr_1_m.
    + rewrite IH, Nat2Z.inj_succ, Z.pow_succ_r by lia.
      rewrite Z.div_div by (try apply Z.pow_pos_nonneg; lia).
      f_equal. lia.
    + rewrite IH. apply Z.div_pos; [lia | apply Z.pow_pos_nonneg; lia].
Qed.

Lemma shr_iter_exact (k : nat) r :
  0 <= shr_m r -> exact r -> shr_m r mod 2 ^ Z.of_nat k = 0 ->
  exact (Nat.iter k shr_1 r).
Proof.
  intros Hm Hex. induction k as [|k IH]; intros Hdiv.
  - exact Hex.
  - rewrite Nat.iter_succ.
    rewrite Nat2Z.inj_succ, Z.pow_succ_r in Hdiv by lia.
    assert (Hp : 0 < 2 ^ Z.of_nat k) by (apply Z.pow_pos_nonneg; lia).
    apply Z.mod_divide in Hdiv; [|lia]. destruct Hdiv as [q Hq].
    assert (Hk : shr_m r mod 2 ^ Z.of_nat k = 0).
    { apply Z.mod_divide; [lia|]. exists (q * 2). lia. }
    apply shr_1_exact.
    + rewrite shr_iter_m by lia. apply Z.div_pos; lia.
    + auto.
    + rewrite shr_iter_m by lia.
      rewrite Hq. replace (q * (2 * 2 ^ Z.of_nat k)) with ((q * 2) * 2 ^ Z.of_nat k) by lia.
      rewrite Z.div_mul by lia. apply Z.mod_mul. lia.
Qed.

(** The mantissa and exponent [shr] leaves: [m / 2^n] at exponent [e + n]
    when [n] is positive, and no change otherwise. *)
Lemma shr_m_spec r e n :
  0 <= shr_m r ->
  shr_m (fst (shr r e n)) = (if 0 <? n then shr_m r / 2 ^ n else shr_m r) /\
  snd (shr r e n) = (if 0 <? n then e + n else e).
Proof.
  intros Hm. destruct n as [|p|p]; cbn [shr fst snd]; auto.
  replace (0 <? Zpos p) with true by (symmetry; apply Z.ltb_lt; lia).
  rewrite iter_pos_nat, shr_iter_m by lia.
  now rewrite positive_nat_Z.
Qed.

Lemma shr_exact_spec r e n :
  0 <= shr_m r -> exact r -> (0 < n -> shr_m r mod 2 ^ n = 0) ->
  exact (fst (shr r e n)).
Proof.
  intros Hm Hex Hdiv. destruct n as [|p|p]; cbn [shr fst]; auto.
  rewrite iter_pos_nat. apply shr_iter_exact; auto.
  rewrite positive_nat_Z. apply Hdiv. lia.
Qed.

Lemma round_nearest_even_bounds m l :
  m <= round_nearest_even m l <= m + 1.
Proof.
  destruct l as [|[| |]]; cbn; try lia. destruct (Z.even m); lia.
Qed.

Lemma round_exact r :
  exact r -> round_nearest_even (shr_m r) (loc_of_shr_record r) = shr_m r.
Proof. destruct r as [m r s]; intros [E1 E2]; cbn in *; subst; reflexivity. Qed.

Lemma shr_record_of_loc_m m l : shr_m (shr_record_of_loc m l) = m.
Proof. destruct l as [|[| |]]; reflexivity. Qed.

Lemma shr_record_of_loc_exact m : exact (shr_record_of_loc m loc_Exact).
Proof. split; reflexivity. Qed.



(** *** Rounding *)

Definition fexp (e : Z) : Z := Z.max (e - 53) (-1074).

Lemma fexp_eq e : SpecFloat.fexp prec emax e = fexp e.
Proof. reflexivity. Qed.

Lemma fexp_le a b : a <= b -> fexp a <= fexp b.
Proof. unfold fexp. lia. Qed.

(** The mantissa and the exponent after the shift that brings a mantissa to
    at most [prec] digits. *)
Definition shift (m e : Z) : Z * Z :=
  let n := fexp (Zdigits2 m + e) - e in
  if 0 <? n then (m / 2 ^ n, e + n) else (m, e).

(** The float of a sign, a mantissa and an exponent. *)
Definition finish (s : bool) (me : Z * Z) : spec_float :=
  match fst me with
  | Z0 => S754_zero s
  | Zpos m =>
      if snd me <=? emax - prec then S754_finite s m (snd me)
      else S754_infinity s
  | Zneg _ => S754_nan
  end.

Lemma shr_fexp_spec m e l :
  0 <= m ->
  shr_m (fst (shr_fexp prec emax m e l)) = fst (shift m e) /\
  snd (shr_fexp prec emax m e l) = snd (shift m e) /\
  (l = loc_Exact ->
   (0 < fexp (Zdigits2 m + e) - e -> m mod 2 ^ (fexp (Zdigits2 m + e) - e) = 0) ->
   exact (fst (shr_fexp prec emax m e l))).
Proof.
  intros Hm. unfold shr_fexp, shift. rewrite fexp_eq.
  set (n := fexp (Zdigits2 m + e) - e).
  pose proof (shr_m_spec (shr_record_of_loc m l) e n) as [E1 E2].
  { now rewrite shr_record_of_loc_m. }
  rewrite shr_record_of_loc_m in E1.
  split; [|split].
  - rewrite E1. now destruct (0 <? n).
  - rewrite E2. now destruct (0 <? n).
  - intros -> Hdiv. apply shr_exact_spec.
    + now rewrite shr_record_of_loc_m.
    + apply shr_record_of_loc_exact.
    + now rewrite shr_record_of_loc_m.
Qed.

Lemma shift_nonneg m e : 0 <= m -> 0 <= fst (shift m e).
Proof.
  intros Hm. unfold shift.
  destruct (0 <? _) eqn:E; cbn [fst]; [|lia].
  apply Z.div_pos; [lia|]. apply Z.pow_pos_nonneg; [lia|]. apply Z.ltb_lt in E. lia.
Qed.

(** What [binary_round_aux] computes: shift, round the last place up or
    not, shift again. *)
Lemma binary_round_aux_spec s m e l :
  0 <= m ->
  exists m2,
    fst (shift m e) <= m2 <= fst (shift m e) + 1 /\
    (l = loc_Exact ->
     (0 < fexp (Zdigits2 m + e) - e -> m mod 2 ^ (fexp (Zdigits2 m + e) - e) = 0) ->
     m2 = fst (shift m e)) /\
    binary_round_aux prec emax s m e l = finish s (shift m2 (snd (shift m e))).
Proof.
  intros Hm. unfold binary_round_aux.
  destruct (shr_fexp_spec m e l Hm) as (E1 & E2 & E3).
  destruct (shr_fexp prec emax m e l) as [mrs' e'] eqn:Es. cbn [fst snd] in *.
  set (m2 := round_nearest_even (shr_m mrs') (loc_of_shr_record mrs')).
  exists m2. split; [|split].
  - rewrite <- E1. apply round_nearest_even_bounds.
  - intros Hl Hdiv. rewrite <- E1. apply round_exact. auto.
  - assert (Hm2 : 0 <= m2).
    { pose proof (round_nearest_even_bounds (shr_m mrs') (loc_of_shr_record mrs')).
      pose proof (shift_nonneg m e Hm). fold m2 in H. lia. }
    destruct (shr_fexp_spec m2 e' loc_Exact Hm2) as (F1 & F2 & _).
    destruct (shr_fexp prec emax m2 e' loc_Exact) as [mrs'' e''] eqn:Es'.
    cbn [fst snd] in *. unfold finish. rewrite <- E2, <- F1, <- F2. reflexivity.
Qed.



(** The magnitude [digits + exponent] is kept by the shift, as long as it
    is above the smallest exponent. *)
Lemma shift_mag m e :
  0 < m -> -1074 < Zdigits2 m + e ->
  0 < fst (shift m e) /\
  Zdigits2 (fst (shift m e)) + snd (shift m e) = Zdigits2 m + e.
Proof.
  intros Hm HD. unfold shift.
  set (n := fexp (Zdigits2 m + e) - e).
  destruct (0 <? n) eqn:E; cbn [fst snd]; [|lia].
  apply Z.ltb_lt in E.
  assert (Hn : n < Zdigits2 m) by (unfold n, fexp; lia).
  rewrite Zdigits2_shiftr by lia.
  split; [|lia].
  pose proof (Zdigits2_bounds m Hm) as [Hlo _].
  assert (2 ^ n <= 2 ^ (Zdigits2 m - 1)) by (apply Z.pow_le_mono_r; lia).
  assert (0 < 2 ^ n) by (apply Z.pow_pos_nonneg; lia).
  apply Z.div_str_pos. lia.
Qed.

Lemma shift_exponent m e :
  e <= fexp (Zdigits2 m + e) -> snd (shift m e) = fexp (Zdigits2 m + e).
Proof.
  intros H. unfold shift. destruct (0 <? _) eqn:E; cbn [snd]; [lia|].
  apply Z.ltb_ge in E. lia.
Qed.

Lemma shift_canonical m e :
  0 <= m -> e <= fexp (Zdigits2 m + e) -> 0 < fst (shift m e) ->
  fexp (Zdigits2 (fst (shift m e)) + snd (shift m e)) = snd (shift m e).
Proof.
  intros Hm Hn Hpos. rewrite (shift_exponent m e Hn).
  unfold shift in *. set (n := fexp (Zdigits2 m + e) - e) in *.
  destruct (0 <? n) eqn:E; cbn [fst snd] in *.
  - apply Z.ltb_lt in E.
    destruct (Z_lt_le_dec n (Zdigits2 m)).
    + assert (0 < m) by (destruct m; cbn in *; lia).
      rewrite Zdigits2_shiftr by lia. f_equal. lia.
    + rewrite Zdigits2_shiftr_all in Hpos by lia. lia.
  - apply Z.ltb_ge in E. f_equal. lia.
Qed.

Lemma Zdigits2_succ m : 0 <= m -> Zdigits2 (m + 1) <= Zdigits2 m + 1.
Proof.
  intros Hm. destruct (Z.eq_dec m 0) as [->|]; [now vm_compute|].
  pose proof (Zdigits2_bounds m ltac:(lia)) as [_ Hhi].
  pose proof (Zdigits2_bounds (m + 1) ltac:(lia)) as [Hlo _].
  pose proof (Zdigits2_pos m ltac:(lia)).
  destruct (Z_lt_le_dec (Zdigits2 m + 1) (Zdigits2 (m + 1))); [|lia].
  assert (2 ^ (Zdigits2 m + 1) <= 2 ^ (Zdigits2 (m + 1) - 1)) by (apply Z.pow_le_mono_r; lia).
  rewrite Z.pow_add_r in H0 by lia. lia.
Qed.

(** *** Results of [binary_round_aux] *)

Definition has_sign (s : bool) (x : spec_float) : Prop :=
  match x with
  | S754_zero s' | S754_infinity s' | S754_finite s' _ _ => s' = s
  | S754_nan => False
  end.

Lemma finish_sign s me : 0 <= fst me -> has_sign s (finish s me).
Proof.
  unfold finish. destruct (fst me); cbn; try lia; auto.
  intros _. destruct (_ <=? _); reflexivity.
Qed.

Lemma binary_round_aux_sign s m e l :
  0 <= m -> has_sign s (binary_round_aux prec emax s m e l).
Proof.
  intros Hm. destruct (binary_round_aux_spec s m e l Hm) as (m2 & Hb & _ & ->).
  apply finish_sign. apply shift_nonneg. pose proof (shift_nonneg m e Hm). lia.
Qed.

Lemma finish_valid s m e :
  (0 < m -> fexp (Zdigits2 m + e) = e) ->
  valid_binary prec emax (finish s (m, e)) = true.
Proof.
  intros Hc. unfold finish. cbn [fst snd].
  destruct m as [|p|p]; try reflexivity.
  destruct (e <=? emax - prec) eqn:E; [|reflexivity].
  cbn [valid_binary]. unfold bounded, canonical_mantissa.
  rewrite fexp_eq. rewrite E, andb_true_r. apply Z.eqb_eq.
  apply (Hc ltac:(lia)).
Qed.

Lemma binary_round_aux_valid s m e l :
  0 <= m -> e <= fexp (Zdigits2 m + e) ->
  valid_binary prec emax (binary_round_aux prec emax s m e l) = true.
Proof.
  intros Hm Hn.
  destruct (binary_round_aux_spec s m e l Hm) as (m2 & Hb & _ & ->).
  pose proof (shift_nonneg m e Hm) as Hm1.
  set (m1 := fst (shift m e)) in *. set (e1 := snd (shift m e)) in *.
  assert (He1 : e1 <= fexp (Zdigits2 m2 + e1)).
  { destruct (Z.eq_dec m1 0) as [E0|E0].
    - assert (e1 = fexp (Zdigits2 m + e)) by (apply shift_exponent; auto).
      assert (Hd : Zdigits2 m2 = 0 \/ Zdigits2 m2 = 1).
      { assert (m2 = 0 \/ m2 = 1) as [->| ->] by lia; cbn; auto. }
      (* the mantissa vanished: the magnitude is below the smallest exponent *)
      assert (Zdigits2 m + e <= -1074).
      { destruct (Z_lt_le_dec (-1074) (Zdigits2 m + e)); [|lia].
        destruct (Z.eq_dec m 0) as [->|].
        - unfold m1, shift in E0. cbn in *. unfold fexp in *. lia.
        - pose proof (shift_mag m e ltac:(lia) ltac:(lia)) as [Hp _]. fold m1 in Hp. lia. }
      unfold fexp in *. lia.
    - pose proof (shift_canonical m e Hm Hn ltac:(fold m1; lia)) as Hc.
      fold m1 e1 in Hc. rewrite <- Hc at 1. apply fexp_le.
      pose proof (Zdigits2_le m1 m2 ltac:(lia)). lia. }
  assert (Hm2 : 0 <= m2) by lia.
  pose proof (shift_canonical m2 e1 Hm2 He1) as Hc2.
  destruct (shift m2 e1) as [m3 e3] eqn:E3. cbn [fst snd] in Hc2.
  apply finish_valid. exact Hc2.
Qed.

(** Rounding does not lower the magnitude. *)
Lemma binary_round_aux_mag_ge s m e l :
  0 < m -> -1074 < Zdigits2 m + e ->
  match binary_round_aux prec emax s m e l with
  | S754_finite s' m' e' => s' = s /\ Zdigits2 m + e <= Zpos (digits2_pos m') + e'
  | S754_infinity s' => s' = s
  | _ => False
  end.
Proof.
  intros Hm HD.
  destruct (binary_round_aux_spec s m e l ltac:(lia)) as (m2 & Hb & _ & ->).
  pose proof (shift_mag m e Hm HD) as [Hp1 Hd1].
  set (m1 := fst (shift m e)) in *. set (e1 := snd (shift m e)) in *.
  pose proof (Zdigits2_le m1 m2 ltac:(lia)) as Hle.
  pose proof (shift_mag m2 e1 ltac:(lia) ltac:(lia)) as [Hp2 Hd2].
  unfold finish. destruct (shift m2 e1) as [m3 e3]. cbn [fst snd] in *.
  destruct m3 as [|p|p]; try lia.
  destruct (e3 <=? emax - prec); [|reflexivity].
  split; [reflexivity|]. cbn [Zdigits2] in Hd2. lia.
Qed.

(** *** [binary_round] and [binary_normalize] *)

Lemma iter_xO m d : Zpos (Pos.iter xO m d) = Zpos m * 2 ^ Zpos d.
Proof.
  induction d as [|d IH] using Pos.peano_ind.
  - cbn. lia.
  - rewrite Pos.iter_succ, (Pos2Z.inj_xO (Pos.iter xO m d)), IH.
    rewrite Pos2Z.inj_succ. rewrite Z.pow_succ_r; lia.
Qed.

Lemma shl_align_spec m e e' :
  let '(mz, ez) := shl_align m e e' in
  ez = Z.min e e' /\ Zpos mz = Zpos m * 2 ^ (e - ez).
Proof.
  unfold shl_align. destruct (e' - e) as [|d|d] eqn:E.
  - split; [lia|]. replace (e - e) with 0 by lia. lia.
  - split; [lia|]. replace (e - e) with 0 by lia. lia.
  - split; [lia|]. rewrite iter_xO. f_equal. f_equal. lia.
Qed.

Lemma binary_round_eq s m e :
  exists mz ez,
    ez = Z.min e (fexp (Zpos (digits2_pos m) + e)) /\
    mz = Zpos m * 2 ^ (e - ez) /\
    binary_round prec emax s m e = binary_round_aux prec emax s mz ez loc_Exact.
Proof.
  unfold binary_round.
  change (SpecFloat.fexp prec emax (Zpos (digits2_pos m) + e))
    with (fexp (Zpos (digits2_pos m) + e)).
  pose proof (shl_align_spec m e (fexp (Zpos (digits2_pos m) + e))) as H.
  destruct (shl_align m e _) as [mz ez]. destruct H as [H1 H2].
  exists (Zpos mz), ez. auto.
Qed.

Lemma binary_round_valid s m e :
  valid_binary prec emax (binary_round prec emax s m e) = true.
Proof.
  destruct (binary_round_eq s m e) as (mz & ez & Hez & Hmz & ->).
  assert (0 <= e - ez) by lia.
  assert (0 < mz) by (subst mz; apply Z.mul_pos_pos; [lia | apply Z.pow_pos_nonneg; lia]).
  apply binary_round_aux_valid; [lia|].
  subst mz. rewrite Zdigits2_shiftl by lia. cbn [Zdigits2].
  replace (Zpos (digits2_pos m) + (e - ez) + ez) with (Zpos (digits2_pos m) + e) by lia.
  lia.
Qed.

Lemma binary_normalize_valid m e sz :
  valid_binary prec emax (binary_normalize prec emax m e sz) = true.
Proof.
  destruct m; cbn [binary_normalize]; [reflexivity | apply binary_round_valid..].
Qed.

Lemma binary_round_sign s m e :
  has_sign s (binary_round prec emax s m e).
Proof.
  destruct (binary_round_eq s m e) as (mz & ez & Hez & Hmz & ->).
  apply binary_round_aux_sign. subst mz.
  apply Z.mul_nonneg_nonneg; [lia | apply Z.pow_nonneg; lia].
Qed.

Lemma binary_round_mag_ge s m e :
  -1074 < Zpos (digits2_pos m) + e ->
  match binary_round prec emax s m e with
  | S754_finite s' m' e' => s' = s /\ Zpos (digits2_pos m) + e <= Zpos (digits2_pos m') + e'
  | S754_infinity s' => s' = s
  | _ => False
  end.
Proof.
  intros HD.
  destruct (binary_round_eq s m e) as (mz & ez & Hez & Hmz & ->).
  assert (0 <= e - ez) by lia.
  assert (0 < mz) by (subst mz; apply Z.mul_pos_pos; [lia | apply Z.pow_pos_nonneg; lia]).
  assert (Zdigits2 mz + ez = Zpos (digits2_pos m) + e).
  { subst mz. rewrite Zdigits2_shiftl by lia. cbn [Zdigits2]. lia. }
  pose proof (binary_round_aux_mag_ge s mz ez loc_Exact ltac:(lia) ltac:(lia)) as R.
  destruct (binary_round_aux _ _ _ _ _ _); auto.
  destruct R; split; auto; lia.
Qed.



Lemma Zdigits2_0 m : 0 <= m -> Zdigits2 m = 0 -> m = 0.
Proof. destruct m; cbn; lia. Qed.

(** Rounding is monotone: a value below a canonical float is rounded to a
    float that is not above it.  The value is in [m*2^e, (m+1)*2^e); the
    float is [Y*2^eY]. *)
Lemma binary_round_aux_le s m e l Y eY :
  0 <= m -> 0 < Y -> fexp (Zdigits2 Y + eY) = eY ->
  e <= fexp (Zdigits2 m + e) ->
  m + 1 <= Y * 2 ^ (eY - e) ->
  exists m3 e3,
    binary_round_aux prec emax s m e l = finish s (m3, e3) /\
    0 <= m3 /\ (e3 < eY \/ (e3 = eY /\ m3 <= Y)).
Proof.
  intros Hm HY HcY Hn Hle.
  assert (HeY : e <= eY).
  { destruct (Z_lt_le_dec eY e); [|lia].
    rewrite Z.pow_neg_r in Hle by lia. lia. }
  assert (HD : Zdigits2 m + e <= Zdigits2 Y + eY).
  { pose proof (Zdigits2_le m (Y * 2 ^ (eY - e)) ltac:(lia)) as H.
    rewrite Zdigits2_shiftl in H by lia. lia. }
  destruct (binary_round_aux_spec s m e l Hm) as (m2 & Hb & _ & ->).
  pose proof (shift_nonneg m e Hm) as Hm1.
  pose proof (shift_exponent m e Hn) as He1.
  set (m1 := fst (shift m e)) in *. set (e1 := snd (shift m e)) in *.
  assert (He1Y : e1 <= eY) by (rewrite He1, <- HcY; apply fexp_le; lia).
  assert (Hm1Y : m1 < Y * 2 ^ (eY - e1)).
  { unfold m1, shift. fold e1.
    destruct (0 <? fexp (Zdigits2 m + e) - e) eqn:E; cbn [fst].
    - apply Z.ltb_lt in E.
      replace (fexp (Zdigits2 m + e) - e) with (e1 - e) by lia.
      assert (0 < 2 ^ (e1 - e)) by (apply Z.pow_pos_nonneg; lia).
      apply Z.div_lt_upper_bound; [lia|].
      replace (eY - e) with ((e1 - e) + (eY - e1)) in Hle by lia.
      rewrite Z.pow_add_r in Hle by lia. lia.
    - apply Z.ltb_ge in E. replace e1 with e by lia. lia. }
  assert (Hm2Y : m2 <= Y * 2 ^ (eY - e1)) by lia.
  assert (HD2 : Zdigits2 m2 + e1 <= Zdigits2 Y + eY).
  { pose proof (Zdigits2_le m2 (Y * 2 ^ (eY - e1)) ltac:(lia)) as H.
    rewrite Zdigits2_shiftl in H by lia. lia. }
  exists (fst (shift m2 e1)), (snd (shift m2 e1)).
  split; [now destruct (shift m2 e1)|].
  split; [apply shift_nonneg; lia|].
  unfold shift. set (n2 := fexp (Zdigits2 m2 + e1) - e1).
  assert (Hf : fexp (Zdigits2 m2 + e1) <= eY) by (rewrite <- HcY; apply fexp_le; lia).
  destruct (0 <? n2) eqn:E; cbn [fst snd].
  - apply Z.ltb_lt in E.
    destruct (Z_lt_le_dec (e1 + n2) eY); [left; lia|right].
    split; [unfold n2 in *; lia|].
    assert (n2 = eY - e1) by (unfold n2 in *; lia).
    rewrite H. assert (0 < 2 ^ (eY - e1)) by (apply Z.pow_pos_nonneg; lia).
    apply Z.div_le_upper_bound; lia.
  - apply Z.ltb_ge in E.
    destruct (Z_lt_le_dec e1 eY); [left; lia|right].
    split; [lia|]. replace (eY - e1) with 0 in Hm2Y by lia. cbn in Hm2Y. lia.
Qed.

(** *** Validity and sign of conversions, sums, products and quotients *)

Lemma has_sign_not_nan s x : has_sign s x -> is_nan x = false.
Proof. destruct x; cbn; auto. contradiction. Qed.

Lemma of_int_valid z : valid (of_int z).
Proof. apply binary_normalize_valid. Qed.

Lemma of_int_sign z : 0 <= z -> has_sign false (of_int z).
Proof.
  intros Hz. unfold of_int. destruct z as [|p|p]; cbn [binary_normalize]; try lia.
  - reflexivity.
  - apply binary_round_sign.
Qed.

Lemma add_valid x y : valid x -> valid y -> valid (add x y).
Proof.
  unfold valid, add. intros Hx Hy.
  destruct x as [sx|sx| |sx mx ex], y as [sy|sy| |sy my ey];
    cbn [SFadd]; auto; try (destruct sx, sy; auto; fail).
  apply binary_normalize_valid.
Qed.

Lemma sub_valid x y : valid x -> valid y -> valid (sub x y).
Proof.
  unfold valid, sub. intros Hx Hy.
  destruct x as [sx|sx| |sx mx ex], y as [sy|sy| |sy my ey];
    cbn [SFsub]; auto; try (destruct sx, sy; auto; fail).
  apply binary_normalize_valid.
Qed.

Lemma add_sign x y :
  has_sign false x -> has_sign false y -> has_sign false (add x y).
Proof.
  unfold add.
  destruct x as [sx|sx| |sx mx ex], y as [sy|sy| |sy my ey];
    cbn [has_sign SFadd]; try contradiction; intros -> ->; cbn; auto.
  set (ez := Z.min ex ey).
  destruct (shl_align mx ex ez) as [mx' ex'], (shl_align my ey ez) as [my' ey'].
  cbn [fst cond_Zopp]. rewrite <- Pos2Z.inj_add. cbn [binary_normalize].
  apply binary_round_sign.
Qed.

Lemma canonical_digits m e :
  fexp (Zpos (digits2_pos m) + e) = e ->
  -1074 <= e /\ Zpos (digits2_pos m) <= 53 /\
  (Zpos (digits2_pos m) = 53 \/ e = -1074).
Proof. unfold fexp. lia. Qed.

Lemma valid_finite s m e :
  valid (S754_finite s m e) ->
  fexp (Zpos (digits2_pos m) + e) = e /\ e <= 971.
Proof.
  unfold valid, valid_binary, bounded, canonical_mantissa.
  intros H. apply andb_true_iff in H as [H1 H2].
  apply Z.eqb_eq in H1. apply Z.leb_le in H2.
  change (SpecFloat.fexp prec emax (Zpos (digits2_pos m) + e))
    with (fexp (Zpos (digits2_pos m) + e)) in H1.
  change (emax - prec) with 971 in H2. auto.
Qed.

Lemma Zdigits2_mul a b :
  0 < a -> 0 < b -> Zdigits2 a + Zdigits2 b - 1 <= Zdigits2 (a * b).
Proof.
  intros Ha Hb.
  pose proof (Zdigits2_bounds a Ha) as [La _].
  pose proof (Zdigits2_bounds b Hb) as [Lb _].
  pose proof (Zdigits2_pos a Ha). pose proof (Zdigits2_pos b Hb).
  pose proof (Zdigits2_bounds (a * b) ltac:(nia)) as [_ Hab].
  destruct (Z_lt_le_dec (Zdigits2 (a * b)) (Zdigits2 a + Zdigits2 b - 1)); [|lia].
  assert (2 ^ Zdigits2 (a * b) <= 2 ^ (Zdigits2 a - 1 + (Zdigits2 b - 1)))
    by (apply Z.pow_le_mono_r; lia).
  rewrite Z.pow_add_r in H1 by lia.
  assert (0 < 2 ^ (Zdigits2 a - 1)) by (apply Z.pow_pos_nonneg; lia).
  assert (0 < 2 ^ (Zdigits2 b - 1)) by (apply Z.pow_pos_nonneg; lia).
  nia.
Qed.

Lemma mul_valid x y : valid x -> valid y -> valid (mul x y).
Proof.
  unfold mul. intros Hx Hy.
  destruct x as [sx|sx| |sx mx ex], y as [sy|sy| |sy my ey];
    cbn [SFmul]; try reflexivity.
  apply valid_finite in Hx as [Hx _]. apply valid_finite in Hy as [Hy _].
  apply canonical_digits in Hx. apply canonical_digits in Hy.
  apply binary_round_aux_valid; [lia|].
  pose proof (Zdigits2_mul (Zpos mx) (Zpos my) ltac:(lia) ltac:(lia)) as H.
  cbn [Zdigits2] in H. rewrite Pos2Z.inj_mul.
  pose proof (Zdigits2_pos (Zpos mx) ltac:(lia)) as Px. cbn [Zdigits2] in Px.
  pose proof (Zdigits2_pos (Zpos my) ltac:(lia)) as Py. cbn [Zdigits2] in Py.
  unfold fexp. lia.
Qed.

Lemma mul_sign x y :
  has_sign false x -> has_sign false y ->
  is_nan (mul x y) = true \/ has_sign false (mul x y).
Proof.
  unfold mul.
  destruct x as [sx|sx| |sx mx ex], y as [sy|sy| |sy my ey];
    cbn [has_sign SFmul]; try contradiction; intros -> ->; cbn [xorb is_nan has_sign]; auto.
  right. apply binary_round_aux_sign. lia.
Qed.

(** The quotient and the exponent [SFdiv] rounds. *)
Lemma SFdiv_core_binary_spec m1 e1 m2 e2 :
  let e' := Z.min (fexp (Zpos (digits2_pos m1) + e1 - (Zpos (digits2_pos m2) + e2)))
                  (e1 - e2) in
  exists l,
    SFdiv_core_binary prec emax (Zpos m1) e1 (Zpos m2) e2 =
    (Zpos m1 * 2 ^ (e1 - e2 - e') / Zpos m2, e', l).
Proof.
  intros e'. unfold SFdiv_core_binary. cbn [Zdigits2].
  change (SpecFloat.fexp prec emax (Zpos (digits2_pos m1) + e1 - (Zpos (digits2_pos m2) + e2)))
    with (fexp (Zpos (digits2_pos m1) + e1 - (Zpos (digits2_pos m2) + e2))).
  fold e'. set (s := e1 - e2 - e').
  assert (Hs : 0 <= s) by (unfold s, e'; lia).
  set (m' := match s with Zpos _ => Z.shiftl (Zpos m1) s | Z0 => Zpos m1 | Zneg _ => 0 end).
  assert (Hm' : m' = Zpos m1 * 2 ^ s).
  { unfold m'. destruct s as [|p|p]; try lia.
    now rewrite Z.shiftl_mul_pow2 by lia. }
  rewrite <- Hm'. unfold Z.div.
  destruct (Z.div_eucl m' (Zpos m2)) as [q r]. eexists. reflexivity.
Qed.

Lemma div_quotient_canonical m1 e1 m2 e2 :
  let e' := Z.min (fexp (Zpos (digits2_pos m1) + e1 - (Zpos (digits2_pos m2) + e2)))
                  (e1 - e2) in
  let q := Zpos m1 * 2 ^ (e1 - e2 - e') / Zpos m2 in
  0 <= q /\ e' <= fexp (Zdigits2 q + e').
Proof.
  intros e' q.
  set (s := e1 - e2 - e'). assert (Hs : 0 <= s) by (unfold s, e'; lia).
  assert (Hp : 0 < 2 ^ s) by (apply Z.pow_pos_nonneg; lia).
  assert (Hq : 0 <= q) by (apply Z.div_pos; nia).
  split; [exact Hq|].
  pose proof (digits2_pos_bounds m1) as [L1 _].
  pose proof (digits2_pos_bounds m2) as [_ U2].
  set (d1 := Zpos (digits2_pos m1)) in *. set (d2 := Zpos (digits2_pos m2)) in *.
  assert (0 < d1) by (unfold d1; lia). assert (0 < d2) by (unfold d2; lia).
  destruct (Z_lt_le_dec (d1 - 1 + s - d2) 0) as [Hneg|Hpos].
  - (* so few bits that the exponent is at the bottom *)
    assert (e' <= -1074) by (unfold e', s, fexp in *; lia).
    unfold fexp. lia.
  - assert (Hlow : 2 ^ (d1 - 1 + s - d2) <= q).
    { apply Z.div_le_lower_bound; [lia|].
      assert (E : 2 ^ (d1 - 1) * 2 ^ s = 2 ^ d2 * 2 ^ (d1 - 1 + s - d2)).
      { rewrite <- !Z.pow_add_r by lia. f_equal. lia. }
      assert (0 < 2 ^ (d1 - 1 + s - d2)) by (apply Z.pow_pos_nonneg; lia).
      apply Z.le_trans with (2 ^ d2 * 2 ^ (d1 - 1 + s - d2)).
      - apply Z.mul_le_mono_nonneg_r; lia.
      - rewrite <- E. apply Z.mul_le_mono_nonneg_r; lia. }
    assert (0 < 2 ^ (d1 - 1 + s - d2)) by (apply Z.pow_pos_nonneg; lia).
    assert (Hd : d1 + s - d2 <= Zdigits2 q).
    { pose proof (Zdigits2_bounds q ltac:(lia)) as [_ Uq].
      destruct (Z_lt_le_dec (Zdigits2 q) (d1 + s - d2)); [|lia].
      assert (2 ^ Zdigits2 q <= 2 ^ (d1 - 1 + s - d2)).
      { apply Z.pow_le_mono_r; lia. }
      lia. }
    apply Z.le_trans with (fexp (d1 + e1 - (d2 + e2))); [unfold e'; lia|].
    apply fexp_le. unfold s in Hd. lia.
Qed.

Lemma div_valid x y : valid x -> valid y -> valid (div x y).
Proof.
  unfold div. intros Hx Hy.
  destruct x as [sx|sx| |sx mx ex], y as [sy|sy| |sy my ey];
    cbn [SFdiv]; try reflexivity.
  destruct (SFdiv_core_binary_spec mx ex my ey) as [l ->].
  pose proof (div_quotient_canonical mx ex my ey) as [Hq Hc].
  apply binary_round_aux_valid; auto.
Qed.

Lemma div_sign x m e :
  has_sign false x -> has_sign false (div x (S754_finite false m e)).
Proof.
  unfold div. destruct x as [sx|sx| |sx mx ex]; cbn [has_sign SFdiv];
    try contradiction; intros ->; cbn [xorb has_sign]; auto.
  destruct (SFdiv_core_binary_spec mx ex m e) as [l ->].
  pose proof (div_quotient_canonical mx ex m e) as [Hq _].
  apply binary_round_aux_sign; auto.
Qed.

(** *** The seconds of a duration *)

Lemma of_int_1e9 :
  of_int 1000000000 = S754_finite false 8388608000000000 (-23).
Proof. reflexivity. Qed.

Lemma Seconds_valid d : valid (Duration.Seconds d).
Proof.
  unfold Duration.Seconds. apply add_valid; [apply of_int_valid|].
  apply div_valid; apply of_int_valid.
Qed.

Lemma Seconds_sign d : 0 <= d -> has_sign false (Duration.Seconds d).
Proof.
  intros Hd. unfold Duration.Seconds, Duration.Second.
  apply add_sign.
  - apply of_int_sign. apply Z.quot_pos; lia.
  - rewrite of_int_1e9. apply div_sign. apply of_int_sign.
    apply Z.rem_nonneg; lia.
Qed.

(** *** A duration of a second or more has a whole second *)

Definition ge_one (x : float64) : Prop :=
  match x with
  | S754_finite false m e => 1 <= Zpos (digits2_pos m) + e
  | S754_infinity false => True
  | _ => False
  end.

Lemma of_int_ge_one z : 1 <= z -> ge_one (of_int z).
Proof.
  intros Hz. unfold of_int. destruct z as [|p|p]; try lia.
  cbn [binary_normalize].
  pose proof (digits2_pos_bounds p).
  pose proof (binary_round_mag_ge false p 0 ltac:(lia)) as R.
  unfold ge_one. destruct (binary_round _ _ _ _ _); try contradiction.
  - now subst.
  - destruct R as [-> R]. lia.
Qed.

Lemma add_ge_one x y : ge_one x -> has_sign false y -> ge_one (add x y).
Proof.
  unfold add.
  destruct x as [sx|[|]| |[|] mx ex]; cbn [ge_one]; try contradiction;
    destruct y as [sy|sy| |sy my ey]; cbn [has_sign]; try contradiction;
    intros Hx ->; cbn [SFadd ge_one]; auto.
  set (ez := Z.min ex ey).
  pose proof (shl_align_spec mx ex ez) as Hsx.
  pose proof (shl_align_spec my ey ez) as Hsy.
  destruct (shl_align mx ex ez) as [mx' ex'], (shl_align my ey ez) as [my' ey'].
  destruct Hsx as [Ex Hmx], Hsy as [Ey Hmy].
  cbn [fst cond_Zopp]. rewrite <- Pos2Z.inj_add. cbn [binary_normalize].
  assert (Hd : Zpos (digits2_pos mx) + ex <= Zpos (digits2_pos (mx' + my')) + ez).
  { pose proof (Zdigits2_le (Zpos mx') (Zpos (mx' + my')) ltac:(lia)) as H.
    cbn [Zdigits2] in H.
    pose proof (Zdigits2_shiftl (Zpos mx) (ex - ex') ltac:(lia) ltac:(lia)) as H'.
    rewrite <- Hmx in H'. cbn [Zdigits2] in H'. lia. }
  pose proof (binary_round_mag_ge false (mx' + my') ez ltac:(lia)) as R.
  destruct (binary_round _ _ _ _ _); try contradiction.
  - now subst.
  - destruct R as [-> R]. cbn [ge_one]. lia.
Qed.

Lemma to_int64_ge_one x : ge_one x -> to_int64 x <> 0.
Proof.
  destruct x as [sx|[|]| |[|] m e]; cbn [ge_one]; try contradiction; intros H.
  - unfold to_int64, GoInt.min_int64. lia.
  - unfold to_int64, trunc. cbn [cond_Zopp].
    set (v := if 0 <=? e then _ else _).
    assert (1 <= v).
    { unfold v. destruct (0 <=? e) eqn:E.
      - apply Z.leb_le in E.
        assert (0 < 2 ^ e) by (apply Z.pow_pos_nonneg; lia). nia.
      - apply Z.leb_gt in E.
        pose proof (digits2_pos_bounds m) as [L _].
        assert (2 ^ (- e) <= 2 ^ (Zpos (digits2_pos m) - 1))
          by (apply Z.pow_le_mono_r; lia).
        assert (0 < 2 ^ (- e)) by (apply Z.pow_pos_nonneg; lia).
        rewrite Z.quot_div_nonneg by lia.
        apply Z.div_le_lower_bound; lia. }
    destruct (GoInt.in_int64b v); unfold GoInt.min_int64; lia.
Qed.

Theorem Seconds_whole d :
  Duration.Second <= d -> to_int64 (Duration.Seconds d) <> 0.
Proof.
  unfold Duration.Second. intros Hd. apply to_int64_ge_one.
  unfold Duration.Seconds, Duration.Second. apply add_ge_one.
  - apply of_int_ge_one.
    pose proof (Z.quot_le_mono 1000000000 d 1000000000 ltac:(lia) ltac:(lia)) as H.
    rewrite Z.quot_same in H by lia. exact H.
  - rewrite of_int_1e9. apply div_sign. apply of_int_sign.
    apply Z.rem_nonneg; lia.
Qed.

(** *** Integers below [2^53] convert without rounding *)

Lemma binary_round_exact s p :
  Zpos (digits2_pos p) <= 53 ->
  binary_round prec emax s p 0 =
  S754_finite s (Z.to_pos (Zpos p * 2 ^ (53 - Zpos (digits2_pos p))))
    (Zpos (digits2_pos p) - 53).
Proof.
  intros Hd. set (d := Zpos (digits2_pos p)) in *.
  assert (0 < d) by (unfold d; lia).
  destruct (binary_round_eq s p 0) as (mz & ez & Hez & Hmz & ->).
  fold d in Hez. assert (Hez' : ez = d - 53) by (unfold fexp in Hez; lia).
  clear Hez. subst ez.
  replace (0 - (d - 53)) with (53 - d) in Hmz by lia.
  assert (Hp : 0 < 2 ^ (53 - d)) by (apply Z.pow_pos_nonneg; lia).
  assert (Hmz0 : 0 < mz) by (subst mz; nia).
  assert (Hdz : Zdigits2 mz = 53).
  { subst mz. rewrite Zdigits2_shiftl by lia. cbn [Zdigits2]. fold d. lia. }
  assert (Hsh : shift mz (d - 53) = (mz, d - 53)).
  { unfold shift. rewrite Hdz.
    replace (0 <? fexp (53 + (d - 53)) - (d - 53)) with false; [reflexivity|].
    symmetry. apply Z.ltb_ge. unfold fexp. lia. }
  destruct (binary_round_aux_spec s mz (d - 53) loc_Exact ltac:(lia))
    as (m2 & _ & Hex & ->).
  rewrite Hsh in *. cbn [fst snd] in *.
  rewrite Hex; [|reflexivity|rewrite Hdz; unfold fexp; lia].
  rewrite Hsh. unfold finish. cbn [fst snd].
  destruct mz as [|q|q]; try lia.
  replace (d - 53 <=? emax - prec) with true
    by (symmetry; apply Z.leb_le; unfold emax, prec; lia).
  rewrite <- Hmz. reflexivity.
Qed.

(** *** A duration below a second has no whole second *)

Lemma trunc_small s m e :
  e < 0 -> Zpos m < 2 ^ (- e) -> to_int64 (S754_finite s m e) = 0.
Proof.
  intros He Hm. unfold to_int64, trunc.
  replace (0 <=? e) with false by (symmetry; apply Z.leb_gt; lia).
  rewrite Z.quot_small by lia. destruct s; reflexivity.
Qed.

Lemma div_below_second s p :
  Zpos p < 1000000000 ->
  to_int64
    (add (S754_zero false)
       (div (binary_round prec emax s p 0)
          (S754_finite false 8388608000000000 (-23)))) = 0.
Proof.
  intros Hp.
  pose proof (digits2_pos_bounds p) as [Lp Up].
  set (d := Zpos (digits2_pos p)) in *.
  assert (Hd : 0 < d <= 30).
  { split; [unfold d; lia|].
    destruct (Z_lt_le_dec 30 d); [|lia].
    assert (2 ^ 30 <= 2 ^ (d - 1)) by (apply Z.pow_le_mono_r; lia).
    change (2 ^ 30) with 1073741824 in *. lia. }
  rewrite binary_round_exact by (fold d; lia). fold d.
  set (P := 2 ^ (30 - d)).
  assert (HP : 0 < P) by (apply Z.pow_pos_nonneg; lia).
  assert (E53 : 2 ^ (53 - d) = 8388608 * P).
  { unfold P. replace (53 - d) with (23 + (30 - d)) by lia.
    now rewrite Z.pow_add_r by lia. }
  set (mW := Z.to_pos (Zpos p * 2 ^ (53 - d))).
  assert (HmW : Zpos mW = Zpos p * 8388608 * P).
  { unfold mW. rewrite Z2Pos.id by (rewrite E53; nia). rewrite E53. lia. }
  assert (HdW : Zpos (digits2_pos mW) = 53).
  { change (Zpos (digits2_pos mW)) with (Zdigits2 (Zpos mW)).
    unfold mW. rewrite Z2Pos.id by (rewrite E53; nia).
    rewrite Zdigits2_shiftl by lia. cbn [Zdigits2]. fold d. lia. }
  unfold div. cbn [SFdiv].
  destruct (SFdiv_core_binary_spec mW (d - 53) 8388608000000000 (-23)) as [l ->].
  pose proof (div_quotient_canonical mW (d - 53) 8388608000000000 (-23)) as [Hq Hc].
  cbv zeta in Hq, Hc. rewrite HdW in *.
  change (Zpos (digits2_pos 8388608000000000)) with 53 in *.
  replace (Z.min (fexp (53 + (d - 53) - (53 + -23))) (d - 53 - -23)) with (d - 83) in *
    by (unfold fexp; lia).
  replace (d - 53 - -23 - (d - 83)) with 53 in * by lia.
  set (Q := Zpos mW * 2 ^ 53 / 8388608000000000) in *.
  assert (HQ : Q + 1 <= (2 ^ 53 - 1) * 2 ^ (-53 - (d - 83))).
  { replace (-53 - (d - 83)) with (30 - d) by lia. fold P.
    assert (HQm : Q * 8388608000000000 <= Zpos mW * 2 ^ 53).
    { unfold Q. rewrite Z.mul_comm. apply Z.mul_div_le. lia. }
    rewrite HmW in HQm. change (2 ^ 53) with 9007199254740992 in *.
    assert (Zpos p * P <= 999999999 * P) by nia.
    nia. }
  destruct (binary_round_aux_le (xorb s false) Q (d - 83) l (2 ^ 53 - 1) (-53)
              Hq ltac:(reflexivity) ltac:(reflexivity) Hc HQ)
    as (m3 & e3 & Hr & Hm3 & Hord).
  pose proof (binary_round_aux_valid (xorb s false) Q (d - 83) l Hq Hc) as Hv.
  rewrite Hr in *. unfold finish in *. cbn [fst snd] in *.
  destruct m3 as [|m3|m3]; try lia.
  - destruct (xorb s false); reflexivity.
  - replace (e3 <=? emax - prec) with true in *
      by (symmetry; apply Z.leb_le; unfold emax, prec; lia).
    apply valid_finite in Hv as [Hv _]. apply canonical_digits in Hv.
    pose proof (digits2_pos_bounds m3) as [_ U3].
    unfold add. cbn [SFadd]. apply trunc_small; [lia|].
    destruct Hord as [He|[-> Hm]].
    + assert (2 ^ Zpos (digits2_pos m3) <= 2 ^ (- e3)) by (apply Z.pow_le_mono_r; lia).
      lia.
    + change (2 ^ (- -53)) with (2 ^ 53). lia.
Qed.

Theorem Seconds_fraction d :
  - Duration.Second < d < Duration.Second -> to_int64 (Duration.Seconds d) = 0.
Proof.
  unfold Duration.Second. intros Hd. unfold Duration.Seconds, Duration.Second.
  assert (Hq : Z.quot d 1000000000 = 0).
  { destruct (Z_lt_le_dec d 0).
    - replace d with (- (- d)) by lia. rewrite Z.quot_opp_l by lia.
      rewrite Z.quot_small; lia.
    - apply Z.quot_small; lia. }
  assert (Hr : Z.rem d 1000000000 = d).
  { destruct (Z_lt_le_dec d 0).
    - replace d with (- (- d)) at 1 by lia. rewrite Z.rem_opp_l by lia.
      rewrite Z.rem_small; lia.
    - apply Z.rem_small; lia. }
  rewrite Hq, Hr, of_int_1e9.
  change (of_int 0) with (S754_zero false).
  unfold of_int. destruct d as [|p|p]; cbn [binary_normalize].
  - reflexivity.
  - apply div_below_second. lia.
  - apply div_below_second. lia.
Qed.

(** *** The order on floats *)

Lemma SFcompare_antisym x y :
  SFcompare y x = option_map CompOpp (SFcompare x y).
Proof.
  destruct x as [sx|sx| |sx mx ex], y as [sy|sy| |sy my ey];
    cbn [SFcompare option_map]; try reflexivity;
    try (destruct sx; reflexivity); try (destruct sy; reflexivity);
    try (destruct sx, sy; reflexivity).
  change (Pos.compare_cont Eq my mx) with (Pos.compare my mx).
  change (Pos.compare_cont Eq mx my) with (Pos.compare mx my).
  rewrite (Z.compare_antisym ex ey), (Pos.compare_antisym mx my).
  destruct sx, sy; cbn [CompOpp]; try reflexivity;
    destruct (ex ?= ey); cbn [CompOpp]; try reflexivity;
    now rewrite ?CompOpp_involutive.
Qed.

Lemma ltb_false_leb x y :
  is_nan x = false -> is_nan y = false -> ltb x y = false -> leb y x = true.
Proof.
  unfold ltb, leb, SFltb, SFleb. intros Hx Hy. rewrite (SFcompare_antisym x y).
  destruct (SFcompare x y) as [[| |]|] eqn:E; cbn; auto; try discriminate.
  destruct x, y; cbn in *; try discriminate;
    repeat match goal with b : bool |- _ => destruct b end; discriminate.
Qed.

Lemma leb_ltb_false x y : leb x y = true -> ltb y x = false.
Proof.
  unfold ltb, leb, SFltb, SFleb. rewrite (SFcompare_antisym x y).
  destruct (SFcompare x y) as [[| |]|]; cbn; auto; discriminate.
Qed.

Lemma leb_pos_iff m1 e1 m2 e2 :
  leb (S754_finite false m1 e1) (S754_finite false m2 e2) = true <->
  e1 < e2 \/ (e1 = e2 /\ Zpos m1 <= Zpos m2).
Proof.
  unfold leb, SFleb. cbn [SFcompare].
  change (Pos.compare_cont Eq m1 m2) with (Pos.compare m1 m2).
  destruct (Z.compare_spec e1 e2) as [E|E|E];
    [destruct (Pos.compare_spec m1 m2) as [M|M|M] | | ];
    split; intros H; try discriminate; try reflexivity; lia.
Qed.

Lemma ltb_pos_iff m1 e1 m2 e2 :
  ltb (S754_finite false m1 e1) (S754_finite false m2 e2) = true <->
  e1 < e2 \/ (e1 = e2 /\ Zpos m1 < Zpos m2).
Proof.
  unfold ltb, SFltb. cbn [SFcompare].
  change (Pos.compare_cont Eq m1 m2) with (Pos.compare m1 m2).
  destruct (Z.compare_spec e1 e2) as [E|E|E];
    [destruct (Pos.compare_spec m1 m2) as [M|M|M] | | ];
    split; intros H; try discriminate; try reflexivity; lia.
Qed.

(** *** Taking one token from a bucket that holds at least one *)

Lemma one_eq : one = S754_finite false 4503599627370496 (-52).
Proof. reflexivity. Qed.

Theorem sub_one_bounds x B :
  valid x -> ltb x one = false -> leb x B = true -> is_finite B = true ->
  leb zero (sub x one) = true /\ leb (sub x one) B = true /\
  is_finite (sub x one) = true.
Proof.
  intros Hv H1 HB HfB. rewrite one_eq in *.
  destruct x as [sx|[|]| |[|] mx ex]; try discriminate.
  - destruct B; discriminate.
  - destruct B as [sB|sB| |[|] mB eB]; try discriminate.
    apply leb_pos_iff in HB.
    assert (Hx1 : -52 < ex \/ (ex = -52 /\ 4503599627370496 <= Zpos mx)).
    { destruct (ltb (S754_finite false mx ex) (S754_finite false 4503599627370496 (-52))) eqn:E;
        [discriminate|].
      destruct (Z_lt_le_dec ex (-52)) as [L|L].
      - assert (T : ltb (S754_finite false mx ex)
                        (S754_finite false 4503599627370496 (-52)) = true)
          by (apply ltb_pos_iff; lia). congruence.
      - destruct (Z.eq_dec ex (-52)) as [->|]; [|lia].
        destruct (Z_lt_le_dec (Zpos mx) 4503599627370496) as [L'|L']; [|lia].
        assert (T : ltb (S754_finite false mx (-52))
                        (S754_finite false 4503599627370496 (-52)) = true)
          by (apply ltb_pos_iff; lia). congruence. }
    apply valid_finite in Hv as [Hc Hex].
    pose proof (canonical_digits mx ex Hc) as (_ & _ & Hd).
    assert (Hd53 : Zpos (digits2_pos mx) = 53) by lia. clear Hd.
    pose proof (digits2_pos_bounds mx) as [Lx Ux]. rewrite Hd53 in Lx, Ux.
    change (2 ^ (53 - 1)) with 4503599627370496 in Lx.
    unfold sub. cbn [SFsub].
    replace (Z.min ex (-52)) with (-52) by lia.
    pose proof (shl_align_spec mx ex (-52)) as Hsx.
    destruct (shl_align mx ex (-52)) as [mx' ex']. destruct Hsx as [Ex Hmx].
    change (shl_align 4503599627370496 (-52) (-52)) with (4503599627370496%positive, -52).
    cbn [fst cond_Zopp]. rewrite Ex in Hmx.
    replace (Z.min ex (-52)) with (-52) in Hmx by lia.
    replace (ex - -52) with (ex + 52) in Hmx by lia.
    assert (Hp : 1 <= 2 ^ (ex + 52)).
    { assert (0 < 2 ^ (ex + 52)) by (apply Z.pow_pos_nonneg; lia). lia. }
    destruct (Zpos mx' - 4503599627370496) as [|q|q] eqn:EM; cbn [binary_normalize].
    + repeat split; reflexivity || (apply leb_pos_iff in HB; reflexivity) || auto.
    + destruct (binary_round_eq false q (-52)) as (mz & ez & Hez & Hmz & ->).
      assert (Hez52 : ez <= -52) by lia.
      assert (Hpz : 0 < 2 ^ (-52 - ez)) by (apply Z.pow_pos_nonneg; lia).
      assert (Hmz0 : 0 < mz) by (subst mz; nia).
      assert (Hn : ez <= fexp (Zdigits2 mz + ez)).
      { subst mz. rewrite Zdigits2_shiftl by lia. cbn [Zdigits2].
        replace (Zpos (digits2_pos q) + (-52 - ez) + ez)
          with (Zpos (digits2_pos q) + -52) by lia. lia. }
      assert (Hle : mz + 1 <= Zpos mx * 2 ^ (ex - ez)).
      { replace (ex - ez) with ((ex + 52) + (-52 - ez)) by lia.
        rewrite Z.pow_add_r by lia. subst mz.
        assert (Zpos q = Zpos mx * 2 ^ (ex + 52) - 4503599627370496) by lia.
        rewrite H. nia. }
      destruct (binary_round_aux_le false mz ez loc_Exact (Zpos mx) ex
                  ltac:(lia) ltac:(lia) Hc Hn Hle)
        as (m3 & e3 & -> & Hm3 & Hord).
      unfold finish. cbn [fst snd].
      destruct m3 as [|m3|m3]; try lia.
      * repeat split; reflexivity.
      * replace (e3 <=? emax - prec) with true
          by (symmetry; apply Z.leb_le; unfold emax, prec; lia).
        repeat split; try reflexivity.
        apply leb_pos_iff. lia.
    + exfalso. nia.
Qed.
(** *** Integers of the machine convert to finite floats *)

Lemma of_int_finite z : - 2 ^ 64 < z < 2 ^ 64 -> is_finite (of_int z) = true.
Proof.
  intros Hz. unfold of_int.
  assert (H : forall s p, Zpos p < 2 ^ 64 ->
            is_finite (binary_round prec emax s p 0) = true).
  { intros s p Hp.
    destruct (binary_round_eq s p 0) as (mz & ez & Hez & Hmz & ->).
    assert (He : ez <= 0) by lia.
    assert (Hpz : 0 < 2 ^ (0 - ez)) by (apply Z.pow_pos_nonneg; lia).
    assert (Hmz0 : 0 < mz) by (subst mz; nia).
    assert (Hn : ez <= fexp (Zdigits2 mz + ez)).
    { subst mz. rewrite Zdigits2_shiftl by lia. cbn [Zdigits2].
      replace (Zpos (digits2_pos p) + (0 - ez) + ez)
        with (Zpos (digits2_pos p) + 0) by lia. lia. }
    assert (Hle : mz + 1 <= 4503599627370496 * 2 ^ (12 - ez)).
    { replace (12 - ez) with (12 + (0 - ez)) by lia.
      rewrite Z.pow_add_r by lia. change (2 ^ 12) with 4096.
      change (2 ^ 64) with 18446744073709551616 in Hp. subst mz. nia. }
    destruct (binary_round_aux_le s mz ez loc_Exact 4503599627370496 12
                ltac:(lia) ltac:(lia) ltac:(reflexivity) Hn Hle)
      as (m3 & e3 & -> & Hm3 & Hord).
    unfold finish. cbn [fst snd]. destruct m3 as [|m3|m3]; try lia; [reflexivity|].
    replace (e3 <=? emax - prec) with true
      by (symmetry; apply Z.leb_le; unfold emax, prec; lia).
    reflexivity. }
  destruct z as [|p|p]; cbn [binary_normalize]; [reflexivity | apply H; lia |].
  apply H. lia.
Qed.

Lemma leb_refl x : is_nan x = false -> leb x x = true.
Proof.
  unfold leb, SFleb. destruct x as [s|[|]| |[|] m e]; cbn; try reflexivity;
    try discriminate; intros _; rewrite Z.compare_refl;
    change (Pos.compare_cont Eq m m) with (Pos.compare m m);
    now rewrite Pos.compare_refl.
Qed.

Lemma leb_not_nan x y : leb x y = true -> is_nan x = false /\ is_nan y = false.
Proof. destruct x, y; cbn; auto; discriminate. Qed.

Lemma ltb_leb x y : ltb x y = true -> leb x y = true.
Proof.
  unfold ltb, leb, SFltb, SFleb. destruct (SFcompare x y) as [[| |]|]; auto.
Qed.

Lemma of_int_not_nan z : is_nan (of_int z) = false.
Proof.
  unfold of_int. destruct z as [|p|p]; cbn [binary_normalize]; [reflexivity| |];
    eapply has_sign_not_nan, binary_round_sign.
Qed.

(** *** Floats that are not negative *)

Definition nonneg (x : float64) : Prop :=
  match x with
  | S754_zero _ | S754_infinity false | S754_finite false _ _ => True
  | _ => False
  end.

Lemma has_sign_nonneg x : has_sign false x -> nonneg x.
Proof. destruct x as [s|[|]| |[|] m e]; cbn; auto; discriminate. Qed.

Lemma leb_zero_nonneg x : leb zero x = true -> nonneg x.
Proof. destruct x as [s|[|]| |[|] m e]; cbn; auto; discriminate. Qed.

Lemma mul_nonneg x y :
  nonneg x -> nonneg y -> is_nan (mul x y) = true \/ nonneg (mul x y).
Proof.
  unfold mul.
  destruct x as [sx|[|]| |[|] mx ex]; cbn [nonneg]; try contradiction;
    destruct y as [sy|[|]| |[|] my ey]; cbn [nonneg]; try contradiction;
    intros _ _; cbn [SFmul is_nan nonneg xorb]; auto.
  right. apply has_sign_nonneg. apply binary_round_aux_sign. lia.
Qed.

(** [int(x)] of a float that is not negative is not negative, or is the
    smallest integer when [x] does not fit. *)
Lemma to_int64_nonneg x :
  is_nan x = true \/ nonneg x ->
  0 <= to_int64 x <= GoInt.max_int64 \/ to_int64 x = GoInt.min_int64.
Proof.
  intros [H|H].
  - destruct x; try discriminate. now right.
  - destruct x as [s|[|]| |[|] m e]; cbn [nonneg] in H; try contradiction.
    + left. cbn. unfold GoInt.max_int64. lia.
    + now right.
    + unfold to_int64, trunc. cbn [cond_Zopp].
      set (v := if 0 <=? e then _ else _).
      assert (0 <= v).
      { unfold v. destruct (0 <=? e) eqn:E.
        - apply Z.leb_le in E. apply Z.mul_nonneg_nonneg; [lia|].
          apply Z.pow_nonneg. lia.
        - apply Z.leb_gt in E. apply Z.quot_pos; [lia|].
          apply Z.pow_pos_nonneg; lia. }
      unfold GoInt.in_int64b. destruct (GoInt.min_int64 <=? v) eqn:E1;
        destruct (v <=? GoInt.max_int64) eqn:E2; cbn; auto.
      left. apply Z.leb_le in E2. lia.
Qed.

(** [int(x)] of a float that is not negative is the floor of [x]. *)
Lemma trunc_floor m e :
  trunc (S754_finite false m e)
  = if 0 <=? e then Zpos m * 2 ^ e else Zpos m / 2 ^ (- e).
Proof.
  unfold trunc. cbn [cond_Zopp]. destruct (0 <=? e) eqn:E; [reflexivity|].
  apply Z.leb_gt in E. apply Z.quot_div_nonneg; [lia|].
  apply Z.pow_pos_nonneg; lia.
Qed.

End F64Facts.

(** ** Strings: decimal numbers and keys *)

Module StrFacts.

Import Str.

Fixpoint has_char (c : ascii) (s : string) : bool :=
  match s with
  | EmptyString => false
  | String a r => Ascii.eqb a c || has_char c r
  end.

Lemma to_int_proper z :
  Z.to_int z <> Decimal.Pos Decimal.Nil /\ Z.to_int z <> Decimal.Neg Decimal.Nil.
Proof.
  destruct z as [|p|p]; cbn [Z.to_int]; split; try discriminate;
    intros [= E]; now apply DecimalPos.Unsigned.to_uint_nonnil in E.
Qed.

Lemma int_of_Itoa z : NilZero.int_of_string (Itoa z) = Some (Z.to_int z).
Proof. unfold Itoa. apply NilZero.isi; apply to_int_proper. Qed.

Lemma Itoa_inj a b : Itoa a = Itoa b -> a = b.
Proof.
  intros E. apply DecimalZ.to_int_inj.
  pose proof (int_of_Itoa a) as Ha. rewrite E, int_of_Itoa in Ha. congruence.
Qed.

Lemma string2ll_Itoa z : GoInt.in_int64 z -> Redis.string2ll (Itoa z) = Some z.
Proof.
  intros Hz. unfold Redis.string2ll. rewrite int_of_Itoa, DecimalZ.of_to.
  rewrite GoIntFacts.in_int64b_true by assumption.
  now rewrite String.eqb_refl.
Qed.

Lemma uint_of_string_sign r :
  NilZero.uint_of_string (String "+" r) = None /\
  NilZero.uint_of_string (String "-" r) = None.
Proof.
  unfold NilZero.uint_of_string. cbn [NilEmpty.uint_of_string].
  destruct (NilEmpty.uint_of_string r); split; reflexivity.
Qed.

Lemma of_uint_to_uint p : Z.of_uint (Pos.to_uint p) = Zpos p.
Proof. unfold Z.of_uint. now rewrite DecimalPos.Unsigned.of_to. Qed.

Lemma Atoi_unsigned s d :
  NilZero.uint_of_string s = Some d ->
  Atoi s = (if GoInt.in_int64b (Z.of_uint d) then Some (Z.of_uint d) else None).
Proof.
  intros E. unfold Atoi.
  destruct s as [|a r]; [discriminate|].
  destruct (Ascii.eqb_spec a "+") as [->|N1].
  { destruct (uint_of_string_sign r) as [H _]. congruence. }
  destruct (Ascii.eqb_spec a "-") as [->|N2].
  { destruct (uint_of_string_sign r) as [_ H]. congruence. }
  assert (Hs : (match String a r with
                | String "+"%char r0 => (false, r0)
                | String "-"%char r0 => (true, r0)
                | _ => (false, String a r)
                end) = (false, String a r)).
  { destruct a as [[|] [|] [|] [|] [|] [|] [|] [|]]; try reflexivity;
      exfalso; solve [apply N1; reflexivity | apply N2; reflexivity]. }
  rewrite Hs, E. reflexivity.
Qed.

Lemma Atoi_Itoa z : GoInt.in_int64 z -> Atoi (Itoa z) = Some z.
Proof.
  intros Hz. pose proof (GoIntFacts.in_int64b_true z Hz) as Hb.
  destruct z as [|p|p]; unfold Itoa; cbn [Z.to_int NilZero.string_of_int].
  - reflexivity.
  - rewrite (Atoi_unsigned _ (Pos.to_uint p)).
    + now rewrite of_uint_to_uint, Hb.
    + apply NilZero.usu, DecimalPos.Unsigned.to_uint_nonnil.
  - unfold Atoi. cbv iota beta.
    rewrite NilZero.usu by apply DecimalPos.Unsigned.to_uint_nonnil.
    rewrite of_uint_to_uint.
    change (cond_Zopp true (Zpos p)) with (Zneg p). now rewrite Hb.
Qed.

(** Decimal numbers hold no colon. *)
Lemma has_colon_uint d : has_char ":" (NilEmpty.string_of_uint d) = false.
Proof. induction d; cbn [NilEmpty.string_of_uint has_char]; auto. Qed.

Lemma has_colon_Itoa z : has_char ":" (Itoa z) = false.
Proof.
  unfold Itoa. destruct (Z.to_int z) as [d|d]; cbn [NilZero.string_of_int].
  - unfold NilZero.string_of_uint. destruct d; try apply has_colon_uint. reflexivity.
  - cbn [has_char]. unfold NilZero.string_of_uint.
    destruct d; try apply has_colon_uint. reflexivity.
Qed.

Lemma has_char_app c a b : has_char c (a ++ b) = has_char c a || has_char c b.
Proof.
  induction a as [|x a IH]; simpl; [reflexivity|].
  now rewrite IH, orb_assoc.
Qed.

Lemma append_inj_r s a b : s ++ a = s ++ b -> a = b.
Proof. induction s as [|x s IH]; simpl; [auto | intros [= E]; auto]. Qed.

(** A string is cut in one way at its last occurrence of a character. *)
Lemma split_last c a b x y :
  has_char c x = false -> has_char c y = false ->
  a ++ String c x = b ++ String c y -> a = b /\ x = y.
Proof.
  intros Hx Hy. revert b.
  induction a as [|a0 a IH]; intros [|b0 b]; simpl; intros E.
  - injection E as E. auto.
  - injection E as E1 E2. subst x.
    rewrite has_char_app in Hx. cbn [has_char] in Hx.
    rewrite Ascii.eqb_refl, orb_true_r in Hx. discriminate.
  - injection E as E1 E2. subst y.
    rewrite has_char_app in Hy. cbn [has_char] in Hy.
    rewrite Ascii.eqb_refl, orb_true_r in Hy. discriminate.
  - injection E as E1 E2. subst b0.
    destruct (IH b E2) as [-> ->]. auto.
Qed.

(** The key of a bucket determines the identifier. *)
Lemma Sprintf_s_s_inj p a b : Sprintf_s_s p a = Sprintf_s_s p b -> a = b.
Proof.
  unfold Sprintf_s_s. intros E. apply append_inj_r in E.
  now apply append_inj_r in E.
Qed.

(** The key of a window determines the identifier and the window. *)
Lemma Sprintf_s_s_d_inj p a b n m :
  Sprintf_s_s_d p a n = Sprintf_s_s_d p b m -> a = b /\ n = m.
Proof.
  unfold Sprintf_s_s_d. intros E. apply append_inj_r in E.
  apply (append_inj_r ":") in E.
  change (a ++ ":" ++ Itoa n) with (a ++ String ":" (Itoa n)) in E.
  change (b ++ ":" ++ Itoa m) with (b ++ String ":" (Itoa m)) in E.
  apply split_last in E; try apply has_colon_Itoa.
  destruct E as [-> E]. split; [reflexivity | now apply Itoa_inj].
Qed.

Lemma Contains_app a sub : Contains (a ++ sub) sub = true.
Proof.
  assert (Hp : forall s, String.prefix s s = true).
  { induction s as [|c r IHr]; simpl; [reflexivity|].
    now destruct (Ascii.ascii_dec c c). }
  induction a as [|x a IH]; simpl.
  - change ("" ++ sub) with sub.
    destruct sub as [|c r]; [reflexivity|].
    cbn [Contains]. now rewrite Hp.
  - rewrite IH. now destruct (match sub with "" => true | String _ _ => _ end).
Qed.

End StrFacts.

(** * The durations go-redis sends *)

Module Wire.

(** [EXPIRE] receives a positive number of seconds exactly for a positive
    duration. *)
Lemma formatSec_pos d : (0 <? Redis.formatSec d) = (0 <? d).
Proof.
  unfold Redis.formatSec, Duration.Second.
  destruct (Z.ltb_spec 0 d) as [Hd|Hd]; cbn [andb].
  - destruct (Z.ltb_spec d 1000000000) as [Hs|Hs]; [reflexivity|].
    apply Z.ltb_lt.
    assert (1 <= Z.quot d 1000000000); [|lia].
    rewrite Z.quot_div_nonneg by lia.
    apply Z.div_le_lower_bound; lia.
  - apply Z.ltb_ge.
    replace d with (- - d) by lia.
    rewrite Z.quot_opp_l by lia.
    pose proof (Z.quot_pos (- d) 1000000000). lia.
Qed.

(** Whole seconds are sent as they are. *)
Lemma formatSec_whole k : 0 < k -> Redis.formatSec (k * Duration.Second) = k.
Proof.
  intros Hk. unfold Redis.formatSec, Duration.Second.
  destruct (Z.ltb_spec (k * 1000000000) 1000000000) as [H|H]; [lia|].
  rewrite andb_false_r. apply Z.quot_mul. lia.
Qed.

(** From one second on, less than a second is lost. *)
Lemma formatSec_bounds d :
  Duration.Second <= d ->
  d - Duration.Second < Redis.formatSec d * Duration.Second <= d.
Proof.
  unfold Redis.formatSec, Duration.Second. intros Hd.
  destruct (Z.ltb_spec d 1000000000) as [H|H]; [lia|].
  rewrite andb_false_r, Z.quot_div_nonneg by lia.
  pose proof (Z.div_mod d 1000000000 ltac:(lia)).
  pose proof (Z.mod_pos_bound d 1000000000 ltac:(lia)). lia.
Qed.

(** A positive duration under a second is sent as one second. *)
Lemma formatSec_short d :
  0 < d < Duration.Second -> Redis.formatSec d = 1.
Proof.
  unfold Redis.formatSec, Duration.Second. intros Hd.
  destruct (Z.ltb_spec 0 d); [|lia].
  destruct (Z.ltb_spec d 1000000000); [reflexivity|lia].
Qed.

Lemma formatMs_whole k : 0 < k -> Redis.formatMs (k * Redis.Millisecond) = k.
Proof.
  intros Hk. unfold Redis.formatMs, Redis.Millisecond.
  destruct (Z.ltb_spec (k * 1000000) 1000000) as [H|H]; [lia|].
  rewrite andb_false_r. apply Z.quot_mul. lia.
Qed.

Lemma set_ttl_pos d : 0 < d -> 0 < Redis.set_ttl d.
Proof.
  intros Hd. unfold Redis.set_ttl.
  destruct (Redis.usePrecise d).
  - unfold Redis.formatMs, Redis.Millisecond.
    destruct (Z.ltb_spec 0 d); [|lia]. cbn [andb].
    destruct (Z.ltb_spec d 1000000); [lia|].
    rewrite Z.quot_div_nonneg by lia.
    assert (1 <= d / 1000000) by (apply Z.div_le_lower_bound; lia). lia.
  - pose proof (formatSec_pos d) as H.
    destruct (Z.ltb_spec 0 d); [|lia].
    apply Z.ltb_lt in H. unfold Duration.Second. lia.
Qed.

(** [SET] keeps a positive duration of whole milliseconds as it is. *)
Lemma set_ttl_whole d :
  0 < d -> Z.rem d Redis.Millisecond = 0 -> Redis.set_ttl d = d.
Proof.
  intros Hd Hr. unfold Redis.set_ttl, Redis.usePrecise.
  pose proof (Z.quot_rem' d Redis.Millisecond) as Hq. rewrite Hr in Hq.
  destruct (Z.ltb_spec d Duration.Second) as [Hs|Hs]; cbn [orb].
  - unfold Redis.formatMs.
    destruct (Z.ltb_spec d Redis.Millisecond) as [Hm|Hm].
    + exfalso. rewrite Z.quot_small in Hq by lia. lia.
    + rewrite andb_false_r. lia.
  - destruct (Z.eqb_spec (Z.rem d Duration.Second) 0) as [H0|H0]; cbn [negb].
    + unfold Redis.formatSec.
      destruct (Z.ltb_spec d Duration.Second); [lia|].
      rewrite andb_false_r.
      pose proof (Z.quot_rem' d Duration.Second). lia.
    + unfold Redis.formatMs.
      destruct (Z.ltb_spec d Redis.Millisecond) as [Hm|Hm];
        [unfold Redis.Millisecond, Duration.Second in *; lia|].
      rewrite andb_false_r. lia.
Qed.

(** At most one millisecond is lost, and a duration under a millisecond
    counts as one. *)
Lemma set_ttl_bounds d :
  Redis.Millisecond <= d ->
  d - Redis.Millisecond < Redis.set_ttl d <= d.
Proof.
  intros Hd. unfold Redis.set_ttl, Redis.usePrecise.
  destruct (Z.ltb_spec d Duration.Second) as [Hs|Hs]; cbn [orb].
  - unfold Redis.formatMs, Redis.Millisecond in *.
    destruct (Z.ltb_spec d 1000000); [lia|].
    rewrite andb_false_r, Z.quot_div_nonneg by lia.
    pose proof (Z.div_mod d 1000000 ltac:(lia)).
    pose proof (Z.mod_pos_bound d 1000000 ltac:(lia)). lia.
  - destruct (Z.eqb_spec (Z.rem d Duration.Second) 0) as [H0|H0]; cbn [negb].
    + unfold Redis.formatSec.
      destruct (Z.ltb_spec d Duration.Second); [lia|].
      rewrite andb_false_r.
      pose proof (Z.quot_rem' d Duration.Second).
      unfold Redis.Millisecond. lia.
    + unfold Redis.formatMs, Redis.Millisecond in *.
      destruct (Z.ltb_spec d 1000000); [lia|].
      rewrite andb_false_r, Z.quot_div_nonneg by lia.
      pose proof (Z.div_mod d 1000000 ltac:(lia)).
      pose proof (Z.mod_pos_bound d 1000000 ltac:(lia)). lia.
Qed.

End Wire.

(** ** Which keys a computation touches *)

Module Frame.

Definition keyset : Type := string -> Prop.

(** Two servers that answer alike on the keys of [K]. *)
Definition agree (K : keyset) (s1 s2 : Redis.server) : Prop :=
  Redis.fault s1 = Redis.fault s2 /\
  forall k, K k -> Redis.kv s1 !! k = Redis.kv s2 !! k.

(** [s'] differs from [s] on keys of [K] only. *)
Definition changes_only (K : keyset) (s s' : Redis.server) : Prop :=
  Redis.fault s' = Redis.fault s /\
  forall k, ~ K k -> Redis.kv s' !! k = Redis.kv s !! k.

(** A computation confined to the keys of [K]: it changes no other key,
    calls the repository on keys of [K] only, and what it returns and does
    depends on the keys of [K] only. *)
Record confined {A} (K : keyset) (c : M A) : Prop := {
  conf_frame : forall w, changes_only K (server w) (server (snd (c w)));
  conf_calls : forall w, exists cs,
      calls (snd (c w)) = (calls w ++ cs)%list /\ Forall (fun x => K (call_key x)) cs;
  conf_read : forall w1 w2,
      agree K (server w1) (server w2) ->
      fst (c w1) = fst (c w2) /\
      agree K (server (snd (c w1))) (server (snd (c w2)))
}.

(** A Redis command that works on one key. *)
Definition local {A} (key : string)
    (cmd : Redis.server -> Redis.reply A * Redis.server) : Prop :=
  (forall s, changes_only (eq key) s (snd (cmd s))) /\
  (forall s1 s2, agree (eq key) s1 s2 ->
     fst (cmd s1) = fst (cmd s2) /\ agree (eq key) (snd (cmd s1)) (snd (cmd s2))).

Ltac local_tac :=
  split;
  [ intros [f m];
    cbv [Redis.INCR Redis.GET Redis.EXISTS Redis.SET Redis.EXPIRE
           Redis.DEL Redis.set_kv Redis.fault Redis.kv changes_only];
    repeat case_match; simplify_eq/=; (split; [done|]);
    intros; simplify_map_eq; try done; congruence
  | intros [f1 m1] [f2 m2] [Hf Hk]; simpl in Hf, Hk; subst;
    specialize (Hk _ eq_refl);
    cbv [Redis.INCR Redis.GET Redis.EXISTS Redis.SET Redis.EXPIRE
           Redis.DEL Redis.set_kv Redis.fault Redis.kv agree];
    rewrite Hk;
    repeat case_match; simplify_eq/=; repeat split; try done;
    intros ? <-; simplify_map_eq; try done; congruence ].

Lemma local_INCR key : local key (Redis.INCR key).
Proof. local_tac. Qed.

Lemma local_GET key : local key (Redis.GET key).
Proof. local_tac. Qed.

Lemma local_EXISTS key : local key (Redis.EXISTS key).
Proof. local_tac. Qed.

Lemma local_SET key v d : local key (Redis.SET key v d).
Proof. local_tac. Qed.

Lemma local_EXPIRE key d : local key (Redis.EXPIRE key d).
Proof. local_tac. Qed.

Lemma local_DEL key : local key (Redis.DEL key).
Proof. local_tac. Qed.

Lemma changes_only_refl K s : changes_only K s s.
Proof. split; auto. Qed.

Lemma changes_only_trans K s1 s2 s3 :
  changes_only K s1 s2 -> changes_only K s2 s3 -> changes_only K s1 s3.
Proof.
  intros [F1 H1] [F2 H2]. split; [congruence|].
  intros k Hk. rewrite H2, H1; auto.
Qed.

Lemma confined_ret {A} K (a : A) : confined K (ret a).
Proof.
  split; intros; cbn.
  - apply changes_only_refl.
  - exists []. rewrite app_nil_r. auto.
  - auto.
Qed.

Lemma confined_fail {A} K err : confined K (@fail A err).
Proof.
  split; intros; cbn.
  - apply changes_only_refl.
  - exists []. rewrite app_nil_r. auto.
  - auto.
Qed.

Lemma confined_panic {A} K msg : confined K (@panic A msg).
Proof.
  split; intros; cbn.
  - apply changes_only_refl.
  - exists []. rewrite app_nil_r. auto.
  - auto.
Qed.

Lemma confined_log K c : K (call_key c) -> confined K (log c).
Proof.
  intros Hc. split; intros; cbn.
  - apply changes_only_refl.
  - exists [c]. auto.
  - auto.
Qed.

Lemma confined_command {A B} K key
    (cmd : Redis.server -> Redis.reply A * Redis.server)
    (on : Redis.reply A -> outcome B) :
  K key -> local key cmd -> confined K (command cmd on).
Proof.
  intros HK [Hf Hr]. split.
  - intros w. unfold command. specialize (Hf (server w)).
    destruct (cmd (server w)) as [r s']. cbn in *.
    destruct Hf as [F H]. split; [exact F|].
    intros k Hk. apply H. intros <-. auto.
  - intros w. unfold command. destruct (cmd (server w)) as [r s']. cbn.
    exists []. rewrite app_nil_r. auto.
  - intros w1 w2 [F H]. unfold command.
    destruct (Hr (server w1) (server w2)) as [E [F' H']].
    { split; [exact F|]. intros k <-. auto. }
    pose proof (Hf (server w1)) as [_ G1]. pose proof (Hf (server w2)) as [_ G2].
    destruct (cmd (server w1)) as [r1 s1], (cmd (server w2)) as [r2 s2].
    cbn in *. subst r2. split; [reflexivity|]. split; [exact F'|].
    intros k Hk. destruct (decide (key = k)) as [<-|Hne]; [auto|].
    rewrite G1, G2; auto.
Qed.

Lemma confined_bind {A B} K (c : M A) (k : A -> M B) :
  confined K c -> (forall a, confined K (k a)) -> confined K (bind c k).
Proof.
  intros [Cf Cc Cr] Hk. split.
  - intros w. unfold bind. specialize (Cf w).
    destruct (c w) as [[a|e|m] w']; cbn in *; auto.
    eapply changes_only_trans; [exact Cf|]. apply (conf_frame _ _ (Hk a)).
  - intros w. unfold bind. destruct (Cc w) as (cs & E & F).
    destruct (c w) as [[a|e|m] w']; cbn in *; [|exists cs; auto..].
    destruct (conf_calls _ _ (Hk a) w') as (cs' & E' & F').
    exists (cs ++ cs')%list. rewrite E', E, app_assoc. split; [reflexivity|].
    apply Forall_app; auto.
  - intros w1 w2 Hag. unfold bind. destruct (Cr w1 w2 Hag) as [E Hag'].
    destruct (c w1) as [[a1|e1|m1] w1'], (c w2) as [[a2|e2|m2] w2'];
      cbn in *; try discriminate; injection E as ->;
      [ | split; [reflexivity | assumption] ..].
    apply (conf_read _ _ (Hk a2)); auto.
Qed.

Lemma confined_wrap {A} K prefix (c : M A) :
  confined K c -> confined K (wrap prefix c).
Proof.
  intros [Cf Cc Cr]. split.
  - intros w. unfold wrap. specialize (Cf w).
    destruct (c w) as [[a|e|m] w']; cbn in *; auto.
  - intros w. unfold wrap. specialize (Cc w).
    destruct (c w) as [[a|e|m] w']; cbn in *; auto.
  - intros w1 w2 Hag. unfold wrap. destruct (Cr w1 w2 Hag) as [E Hag'].
    destruct (c w1) as [[a1|e1|m1] w1'], (c w2) as [[a2|e2|m2] w2'];
      cbn in *; try discriminate; injection E as ->;
      (split; [reflexivity | assumption]).
Qed.

Lemma confined_attempt {A} K (c : M A) :
  confined K c -> confined K (attempt c).
Proof.
  intros [Cf Cc Cr]. split.
  - intros w. unfold attempt. specialize (Cf w).
    destruct (c w) as [[a|e|m] w']; cbn in *; auto.
  - intros w. unfold attempt. specialize (Cc w).
    destruct (c w) as [[a|e|m] w']; cbn in *; auto.
  - intros w1 w2 Hag. unfold attempt. destruct (Cr w1 w2 Hag) as [E Hag'].
    destruct (c w1) as [[a1|e1|m1] w1'], (c w2) as [[a2|e2|m2] w2'];
      cbn in *; try discriminate; injection E as ->;
      (split; [reflexivity | assumption]).
Qed.

Lemma confined_divide K a b : confined K (divide a b).
Proof. unfold divide. destruct (b =? 0); [apply confined_panic | apply confined_ret]. Qed.

Lemma confined_modulo K a b : confined K (modulo a b).
Proof. unfold modulo. destruct (b =? 0); [apply confined_panic | apply confined_ret]. Qed.

(** Goes through a computation: binds, branches, and the leaves. *)
Ltac confined_step :=
  lazymatch goal with
  | |- confined _ (bind _ _) => apply confined_bind; [ | intros ? ]
  | |- confined _ (wrap _ _) => apply confined_wrap
  | |- confined _ (attempt _) => apply confined_attempt
  | |- confined _ (ret _) => apply confined_ret
  | |- confined _ (fail _) => apply confined_fail
  | |- confined _ (panic _) => apply confined_panic
  | |- confined _ (divide _ _) => apply confined_divide
  | |- confined _ (modulo _ _) => apply confined_modulo
  | |- confined _ (log _) => apply confined_log; cbn [call_key]; assumption
  | |- confined _ (command _ _) =>
      eapply confined_command;
        [ eassumption
        | first [ apply local_INCR | apply local_GET | apply local_EXISTS
                | apply local_SET | apply local_EXPIRE | apply local_DEL ] ]
  | |- confined _ (if ?b then _ else _) => destruct b
  | |- confined _ (match ?x with _ => _ end) => destruct x
  end.

Ltac confined_tac := repeat confined_step.

Section Repository.
Variable K : keyset.
Variable key : string.
Hypothesis HK : K key.

Lemma confined_IncrementPreserveTTL d :
  confined K (RateLimitRepository.IncrementPreserveTTL key d).
Proof.
  unfold RateLimitRepository.IncrementPreserveTTL, RedisRepository.Increment,
    RedisRepository.Expire.
  confined_tac.
Qed.

Lemma confined_Check : confined K (RateLimitRepository.Check key).
Proof.
  unfold RateLimitRepository.Check, RedisRepository.Exists, RedisRepository.Get.
  confined_tac.
Qed.

Lemma confined_SetState state d :
  confined K (RateLimitRepository.SetState key state d).
Proof.
  unfold RateLimitRepository.SetState, RedisRepository.Set_.
  confined_tac.
Qed.

Lemma confined_GetState : confined K (RateLimitRepository.GetState key).
Proof.
  unfold RateLimitRepository.GetState, RedisRepository.Get.
  confined_tac.
Qed.

End Repository.

Ltac solve_key := first [ assumption | reflexivity | eexists; reflexivity ].

Ltac confined_strategy :=
  repeat first
    [ lazymatch goal with
      | |- confined _ (RateLimitRepository.IncrementPreserveTTL _ _) =>
          apply confined_IncrementPreserveTTL; solve_key
      | |- confined _ (RateLimitRepository.Check _) =>
          apply confined_Check; solve_key
      | |- confined _ (RateLimitRepository.SetState _ _ _) =>
          apply confined_SetState; solve_key
      | |- confined _ (RateLimitRepository.GetState _) =>
          apply confined_GetState; solve_key
      end
    | confined_step ].

Import Selector.

Lemma confined_fixed_Allow s identifier now :
  confined (keys (FixedLimiter s) identifier) (FixedWindow.Allow s identifier now).
Proof. unfold FixedWindow.Allow, keys. confined_strategy. Qed.

Lemma confined_fixed_Info s identifier now :
  confined (keys (FixedLimiter s) identifier)
    (FixedWindow.GetRateLimitInfo s identifier now).
Proof. unfold FixedWindow.GetRateLimitInfo, keys. confined_strategy. Qed.

Lemma confined_sliding_Allow s identifier now :
  confined (keys (SlidingLimiter s) identifier)
    (SlidingWindow.Allow s identifier now).
Proof. unfold SlidingWindow.Allow, keys. confined_strategy. Qed.

Lemma confined_sliding_Info s identifier now :
  confined (keys (SlidingLimiter s) identifier)
    (SlidingWindow.GetRateLimitInfo s identifier now).
Proof. unfold SlidingWindow.GetRateLimitInfo, keys. confined_strategy. Qed.

Section Buckets.
Context `{JSON TokenBucket.tokenBucketState} `{JSON LeakyBucket.leakyBucketState}.

Lemma confined_token_Allow s identifier t0 now :
  confined (keys (TokenLimiter s) identifier)
    (TokenBucket.Allow s identifier t0 now).
Proof.
  unfold TokenBucket.Allow, TokenBucket.getBucketState,
    TokenBucket.saveBucketState, keys.
  confined_strategy.
Qed.

Lemma confined_token_Info s identifier t0 now :
  confined (keys (TokenLimiter s) identifier)
    (TokenBucket.GetRateLimitInfo s identifier t0 now).
Proof.
  unfold TokenBucket.GetRateLimitInfo, TokenBucket.getBucketState, keys.
  confined_strategy.
Qed.

Lemma confined_leaky_Allow s identifier t0 now :
  confined (keys (LeakyLimiter s) identifier)
    (LeakyBucket.Allow s identifier t0 now).
Proof.
  unfold LeakyBucket.Allow, LeakyBucket.getBucketState,
    LeakyBucket.saveBucketState, keys.
  confined_strategy.
Qed.

Lemma confined_leaky_Info s identifier t0 now :
  confined (keys (LeakyLimiter s) identifier)
    (LeakyBucket.GetRateLimitInfo s identifier t0 now).
Proof.
  unfold LeakyBucket.GetRateLimitInfo, LeakyBucket.getBucketState, keys.
  confined_strategy.
Qed.

Lemma confined_Allow (l : Limiter) identifier t0 now :
  confined (keys l identifier) (Middleware.Allow l identifier t0 now).
Proof.
  destruct l; cbn [Middleware.Allow Limiter_store Middleware.FixedWindow_store
                     Middleware.SlidingWindow_store Middleware.TokenBucket_store
                     Middleware.LeakyBucket_store].
  - apply confined_fixed_Allow.
  - apply confined_sliding_Allow.
  - apply confined_token_Allow.
  - apply confined_leaky_Allow.
Qed.

Lemma confined_Info (l : Limiter) identifier t0 now :
  confined (keys l identifier) (Middleware.GetRateLimitInfo l identifier t0 now).
Proof.
  destruct l; cbn [Middleware.GetRateLimitInfo Limiter_store
                     Middleware.FixedWindow_store Middleware.SlidingWindow_store
                     Middleware.TokenBucket_store Middleware.LeakyBucket_store].
  - apply confined_fixed_Info.
  - apply confined_sliding_Info.
  - apply confined_token_Info.
  - apply confined_leaky_Info.
Qed.

End Buckets.

(** The keys of two identifiers are apart: the key determines the
    identifier. *)
Lemma keys_apart l id1 id2 k : keys l id1 k -> keys l id2 k -> id1 = id2.
Proof.
  destruct l; cbn [keys].
  - intros [n ->] [m E]. now apply StrFacts.Sprintf_s_s_d_inj in E.
  - intros [n ->] [m E]. now apply StrFacts.Sprintf_s_s_d_inj in E.
  - intros -> E. now apply StrFacts.Sprintf_s_s_inj in E.
  - intros -> E. now apply StrFacts.Sprintf_s_s_inj in E.
Qed.

End Frame.

(** ** What the repository does on a server that can be reached *)

Module Run.

(** The world after one more call, and after a store to a key. *)
Definition logged (w : world) (c : call) : world :=
  {| server := server w; calls := calls w ++ [c] |}.

Definition stored (w : world) (key : string) (e : Redis.entry) : world :=
  {| server := Redis.set_kv (server w) (<[key := e]> (Redis.kv (server w)));
     calls := calls w |}.

(** The time-to-live [SET] leaves on a key. *)
Definition ttl_after_set (w : world) (key : string) (d : Duration.t)
  : option Duration.t :=
  if 0 <? d then Some (Redis.set_ttl d)
  else if d =? -1
       then match Redis.kv (server w) !! key with
            | Some e => Redis.ttl e
            | None => None
            end
       else None.

Lemma append_assoc (a b c : string) : ((a ++ b) ++ c = a ++ (b ++ c))%string.
Proof.
  induction a as [|x a IH]; [reflexivity|].
  change (String x ((a ++ b) ++ c) = String x (a ++ (b ++ c)))%string.
  now rewrite IH.
Qed.

Lemma not_found_message key :
  Str.Contains ("failed to get state: " ++ "key " ++ key ++ " not found")
    "not found" = true.
Proof.
  change (" not found"%string) with (" " ++ "not found")%string.
  rewrite <- !append_assoc. apply StrFacts.Contains_app.
Qed.

Section Reachable.
Variable w : world.
Hypothesis Hup : Redis.fault (server w) = None.

Lemma GetState_absent key :
  Redis.kv (server w) !! key = None ->
  RateLimitRepository.GetState key w =
  (Fail ("failed to get state: " ++ "key " ++ key ++ " not found"),
   logged w (CallGetState key)).
Proof.
  intros Hk.
  unfold RateLimitRepository.GetState, RedisRepository.Get, bind, wrap, log,
    command, Redis.GET. cbn [server calls]. now rewrite Hup, Hk.
Qed.

Lemma GetState_present key e :
  Redis.kv (server w) !! key = Some e ->
  RateLimitRepository.GetState key w =
  (Ret (Redis.value e), logged w (CallGetState key)).
Proof.
  intros Hk.
  unfold RateLimitRepository.GetState, RedisRepository.Get, bind, wrap, log,
    command, Redis.GET. cbn [server calls]. now rewrite Hup, Hk.
Qed.

Lemma SetState_ok key v d :
  RateLimitRepository.SetState key v d w =
  (Ret tt,
   stored (logged w (CallSetState key v d)) key
     (Redis.Entry v (ttl_after_set w key d))).
Proof.
  unfold RateLimitRepository.SetState, RedisRepository.Set_, bind, wrap, log,
    command, Redis.SET. cbn [server calls]. now rewrite Hup.
Qed.

Lemma Check_absent key :
  Redis.kv (server w) !! key = None ->
  RateLimitRepository.Check key w = (Ret 0, logged w (CallCheck key)).
Proof.
  intros Hk.
  unfold RateLimitRepository.Check, RedisRepository.Exists, RedisRepository.Get,
    bind, wrap, log, command, Redis.EXISTS. cbn [server calls].
  now rewrite Hup, Hk.
Qed.

Lemma Check_present key n t :
  GoInt.in_int64 n ->
  Redis.kv (server w) !! key = Some (Redis.Entry (Str.Itoa n) t) ->
  RateLimitRepository.Check key w = (Ret n, logged w (CallCheck key)).
Proof.
  intros Hn Hk.
  unfold RateLimitRepository.Check, RedisRepository.Exists, RedisRepository.Get,
    bind, wrap, log, command, Redis.EXISTS, Redis.GET. cbn [server calls].
  rewrite Hup, Hk. cbn. rewrite Hup, Hk. cbn.
  now rewrite StrFacts.Atoi_Itoa.
Qed.

Lemma IncrementPreserveTTL_absent key d :
  0 < d ->
  Redis.kv (server w) !! key = None ->
  RateLimitRepository.IncrementPreserveTTL key d w =
  (Ret 1,
   stored (logged w (CallIncrementPreserveTTL key d)) key
     (Redis.Entry "1" (Some (Redis.formatSec d * Duration.Second)))).
Proof.
  intros Hd Hk.
  assert (Hd' : (0 <? d) = true) by (apply Z.ltb_lt; lia).
  pose proof (Wire.formatSec_pos d) as Hs. rewrite Hd' in Hs.
  unfold RateLimitRepository.IncrementPreserveTTL, RedisRepository.Increment,
    RedisRepository.Expire, bind, wrap, log, command, Redis.INCR, Redis.EXPIRE,
    ret, stored, logged.
  set (sec := Redis.formatSec d) in *. clearbody sec.
  set (second := Duration.Second). clearbody second.
  cbn [server calls]. rewrite Hup, Hk. cbn. rewrite ?Hd'. cbn.
  rewrite ?Hup, lookup_insert_eq. cbn. rewrite ?Hs. cbn.
  now rewrite insert_insert_eq.
Qed.

Lemma IncrementPreserveTTL_present key d n t :
  0 < n < GoInt.max_int64 ->
  Redis.kv (server w) !! key = Some (Redis.Entry (Str.Itoa n) t) ->
  RateLimitRepository.IncrementPreserveTTL key d w =
  (Ret (n + 1),
   stored (logged w (CallIncrementPreserveTTL key d)) key
     (Redis.Entry (Str.Itoa (n + 1)) t)).
Proof.
  intros Hn Hk.
  unfold RateLimitRepository.IncrementPreserveTTL, RedisRepository.Increment,
    RedisRepository.Expire, bind, wrap, log, command, Redis.INCR, ret, stored,
    logged.
  cbn [server calls]. rewrite Hup, Hk. cbn.
  rewrite StrFacts.string2ll_Itoa
    by (unfold GoInt.in_int64, GoInt.min_int64, GoInt.max_int64 in *; lia).
  replace (n =? GoInt.max_int64) with false by (symmetry; apply Z.eqb_neq; lia).
  cbn. replace (n + 1 =? 1) with false by (symmetry; apply Z.eqb_neq; lia).
  reflexivity.
Qed.

End Reachable.

(** What the two state calls do whatever the server answers. *)
Lemma GetState_logged key w :
  snd (RateLimitRepository.GetState key w) = logged w (CallGetState key).
Proof.
  unfold RateLimitRepository.GetState, RedisRepository.Get, bind, wrap, log,
    command, Redis.GET, logged.
  cbn [server calls]. destruct w as [[f m] cs]. cbn.
  repeat (case_match; simplify_eq/=; try reflexivity).
Qed.

Lemma SetState_calls key v d w :
  calls (snd (RateLimitRepository.SetState key v d w)) =
  (calls w ++ [CallSetState key v d])%list.
Proof.
  unfold RateLimitRepository.SetState, RedisRepository.Set_, bind, wrap, log,
    command, Redis.SET.
  cbn [server calls]. repeat (case_match; simplify_eq/=; try reflexivity).
Qed.

End Run.

(** * The fixed window *)

Module FixedWindowFacts.

Import FixedWindow Run.

(** The window a time falls in, and the key of an identifier in it, as
    [Allow] computes them. *)
Definition windowNum (s : FixedWindowStore) (now : Time.t) : Z :=
  GoInt.quo (Time.Unix now) (F64.to_int64 (Duration.Seconds (windowSize s))).

Definition key (s : FixedWindowStore) (identifier : string) (n : Z) : string :=
  Str.Sprintf_s_s_d (keyPrefix s) identifier n.

Section OneWindow.
Variable s : FixedWindowStore.
Variable identifier : string.
Hypothesis Hwindow : Duration.Second <= windowSize s.

Lemma divide_window now w :
  divide (Time.Unix now) (F64.to_int64 (Duration.Seconds (windowSize s))) w =
  (Ret (windowNum s now), w).
Proof.
  unfold divide, windowNum.
  pose proof (F64Facts.Seconds_whole (windowSize s) Hwindow) as H.
  apply Z.eqb_neq in H. now rewrite H.
Qed.

(** The first call of a window creates the counter at 1, with the window
    size in whole seconds as its time-to-live. *)
Lemma Allow_first now w :
  Redis.fault (server w) = None ->
  Redis.kv (server w) !! key s identifier (windowNum s now) = None ->
  Allow s identifier now w =
  (Ret (1 <=? limit s),
   stored (logged w (CallIncrementPreserveTTL (key s identifier (windowNum s now))
                       (windowSize s)))
     (key s identifier (windowNum s now))
     (Redis.Entry "1"
        (Some (Redis.formatSec (windowSize s) * Duration.Second)))).
Proof.
  intros Hup Hk. unfold Allow, bind. rewrite divide_window.
  unfold wrap. fold (key s identifier (windowNum s now)).
  rewrite IncrementPreserveTTL_absent; auto.
  unfold Duration.Second in Hwindow. lia.
Qed.

(** A later call adds one to the counter, whatever the limit, and allows
    the request when the new count is within the limit. *)
Lemma Allow_next now w n t :
  Redis.fault (server w) = None ->
  0 < n < GoInt.max_int64 ->
  Redis.kv (server w) !! key s identifier (windowNum s now)
    = Some (Redis.Entry (Str.Itoa n) t) ->
  Allow s identifier now w =
  (Ret (n + 1 <=? limit s),
   stored (logged w (CallIncrementPreserveTTL (key s identifier (windowNum s now))
                       (windowSize s)))
     (key s identifier (windowNum s now))
     (Redis.Entry (Str.Itoa (n + 1)) t)).
Proof.
  intros Hup Hn Hk. unfold Allow, bind. rewrite divide_window.
  unfold wrap. fold (key s identifier (windowNum s now)).
  rewrite (IncrementPreserveTTL_present w Hup _ _ n t); auto.
Qed.

(** [n] further calls in the window [k], from a counter at [i]. *)
Lemma run_in_window k t times :
  Forall (fun now => windowNum s now = k) times ->
  forall (i : nat) w,
    (0 < i)%nat ->
    Z.of_nat (i + length times) <= GoInt.max_int64 ->
    Redis.fault (server w) = None ->
    Redis.kv (server w) !! key s identifier k
      = Some (Redis.Entry (Str.Itoa (Z.of_nat i)) t) ->
    let r := run_at (Allow s identifier) times w in
    fst r = map (fun j => Ret (Z.of_nat j <=? limit s)) (seq (S i) (length times)) /\
    Redis.fault (server (snd r)) = None /\
    Redis.kv (server (snd r)) !! key s identifier k
      = Some (Redis.Entry (Str.Itoa (Z.of_nat (i + length times))) t) /\
    calls (snd r) =
    (calls w ++
     repeat (CallIncrementPreserveTTL (key s identifier k) (windowSize s))
       (length times))%list.
Proof.
  induction 1 as [|now times Hnow Hrest IH]; intros i w Hi Hmax Hup Hk.
  - cbn. rewrite Nat.add_0_r, app_nil_r. auto.
  - cbn [run_at length] in *.
    rewrite (Allow_next now w (Z.of_nat i) t); auto; [|lia|now rewrite Hnow].
    rewrite Hnow.
    set (w1 := stored _ _ _).
    specialize (IH (S i) w1 ltac:(lia) ltac:(lia) Hup).
    destruct (run_at (Allow s identifier) times w1) as [os w2] eqn:Er.
    cbn [fst snd] in *.
    destruct IH as (E1 & E2 & E3 & E4).
    { unfold w1, stored, logged. cbn. rewrite lookup_insert_eq.
      do 3 f_equal. lia. }
    repeat split; auto.
    + cbn [seq map]. rewrite E1. do 3 f_equal. lia.
    + rewrite E3. do 3 f_equal. lia.
    + rewrite E4. unfold w1, stored, logged. cbn [calls repeat].
      now rewrite <- app_assoc.
Qed.

Lemma outcomes_up_to_limit (n : nat) :
  map (fun j => @Ret bool (Z.of_nat j <=? Z.of_nat n)) (seq 1 (S n)) =
  (repeat (Ret true) n ++ [Ret false])%list.
Proof.
  rewrite seq_S, map_app. cbn [map]. f_equal.
  - assert (H : forall m, (m <= n)%nat ->
        map (fun j => @Ret bool (Z.of_nat j <=? Z.of_nat n)) (seq 1 m)
        = repeat (Ret true) m).
    { induction m as [|m IHm]; intros Hm; [reflexivity|].
      rewrite seq_S, map_app, IHm by lia. cbn [map].
      replace (Z.of_nat (1 + m) <=? Z.of_nat n) with true
        by (symmetry; apply Z.leb_le; lia).
      clear. induction m; cbn; [reflexivity | now f_equal]. }
    apply H. lia.
  - replace (Z.of_nat (1 + n) <=? Z.of_nat n) with false
      by (symmetry; apply Z.leb_gt; lia).
    reflexivity.
Qed.

End OneWindow.

(** C1.  For a limit [L] and a window of a second or more, [L + 1] calls of
    [Allow] for one identifier at times of one window, on a server that can
    be reached and holds no counter for that window yet: the first [L] calls
    are allowed and the last one is denied; every call, the denied one
    included, is one [IncrementPreserveTTL] on the key of the window (the
    increment does not depend on the limit); and the counter stored at the
    end is [L + 1], which is also what [Check] then reads.  Its time-to-live
    is the one the first call sets: the window size as [EXPIRE] receives it,
    in whole seconds. *)
Theorem fixed_window_counts_every_call s identifier k times w :
  Duration.Second <= windowSize s ->
  0 <= limit s < GoInt.max_int64 ->
  Z.of_nat (length times) = limit s + 1 ->
  Forall (fun now => windowNum s now = k) times ->
  Redis.fault (server w) = None ->
  Redis.kv (server w) !! key s identifier k = None ->
  let r := run_at (Allow s identifier) times w in
  fst r = (repeat (Ret true) (Z.to_nat (limit s)) ++ [Ret false])%list /\
  Redis.kv (server (snd r)) !! key s identifier k
    = Some (Redis.Entry (Str.Itoa (limit s + 1))
              (Some (Redis.formatSec (windowSize s) * Duration.Second))) /\
  fst (RateLimitRepository.Check (key s identifier k) (snd r)) = Ret (limit s + 1) /\
  calls (snd r) =
  (calls w ++
   repeat (CallIncrementPreserveTTL (key s identifier k) (windowSize s))
     (Z.to_nat (limit s + 1)))%list.
Proof.
  intros Hw HL Hlen Hall Hup Hk.
  destruct times as [|now times]; [cbn in Hlen; lia|].
  apply Forall_cons_iff in Hall as [Hnow Hrest].
  cbn [run_at length] in *.
  rewrite (Allow_first s identifier Hw now w Hup) by now rewrite Hnow.
  rewrite Hnow. set (w1 := stored _ _ _).
  pose proof (run_in_window s identifier Hw k
                (Some (Redis.formatSec (windowSize s) * Duration.Second))
                times Hrest
                1%nat w1 ltac:(lia) ltac:(lia) Hup) as IH.
  destruct (run_at (Allow s identifier) times w1) as [os w2] eqn:Er.
  cbn [fst snd] in *.
  destruct IH as (E1 & E2 & E3 & E4).
  { unfold w1, stored, logged. cbn. now rewrite lookup_insert_eq. }
  assert (Hn : length times = Z.to_nat (limit s)) by lia.
  repeat split.
  - rewrite E1, Hn.
    pose proof (outcomes_up_to_limit (Z.to_nat (limit s))) as Ho.
    rewrite Z2Nat.id in Ho by lia. cbn [seq map] in Ho.
    replace (Z.of_nat 1 <=? limit s) with (1 <=? limit s) in Ho by reflexivity.
    exact Ho.
  - rewrite E3. do 3 f_equal. lia.
  - rewrite (Check_present w2 E2 _ (limit s + 1)
               (Some (Redis.formatSec (windowSize s) * Duration.Second))).
    + reflexivity.
    + unfold GoInt.in_int64, GoInt.min_int64, GoInt.max_int64 in *. lia.
    + rewrite E3. do 3 f_equal. lia.
  - rewrite E4. unfold w1, stored, logged. cbn [calls].
    rewrite <- app_assoc. f_equal.
    replace (Z.to_nat (limit s + 1)) with (S (length times)) by lia.
    reflexivity.
Qed.

(** The theorem at a limit of 3 and a window of a minute. *)
Lemma fixed_window_counts_every_call_witness :
  fst (run_at (Allow (NewFixedWindowStore 3 60000000000) "ip:10.0.0.1")
         [120000000000; 121000000000; 130000000000; 179000000000] empty_world)
  = [Ret true; Ret true; Ret true; Ret false].
Proof.
  refine (proj1 (fixed_window_counts_every_call
                   (NewFixedWindowStore 3 60000000000) "ip:10.0.0.1" 2
                   [120000000000; 121000000000; 130000000000; 179000000000]
                   empty_world _ _ _ _ _ _)).
  - vm_compute. discriminate.
  - vm_compute. split; [discriminate | reflexivity].
  - reflexivity.
  - repeat constructor.
  - reflexivity.
  - reflexivity.
Defined.

End FixedWindowFacts.

(** * The divisor of the window strategies *)

Module WindowDivisor.

(** A computation that returns a value or an error on every world. *)
Definition total {A} (c : M A) : Prop :=
  forall w msg, fst (c w) <> Panic msg.

Lemma total_ret {A} (a : A) : total (ret a).
Proof. intros w msg. discriminate. Qed.

Lemma total_bind {A B} (c : M A) (k : A -> M B) :
  total c -> (forall a, total (k a)) -> total (bind c k).
Proof.
  intros Hc Hk w msg. unfold bind. specialize (Hc w).
  destruct (c w) as [[a|e|m] w']; cbn in *.
  - apply Hk.
  - discriminate.
  - exfalso. now apply (Hc m).
Qed.

Lemma total_wrap {A} prefix (c : M A) : total c -> total (wrap prefix c).
Proof.
  intros Hc w msg. unfold wrap. specialize (Hc w).
  destruct (c w) as [[a|e|m] w']; cbn in *; auto; discriminate.
Qed.

Lemma total_command {A} (cmd : Redis.server -> Redis.reply A * Redis.server)
    (B : Type) (on : Redis.reply A -> outcome B) :
  (forall r msg, on r <> Panic msg) -> total (command cmd on).
Proof.
  intros Hon w msg. unfold command. destruct (cmd (server w)). cbn. apply Hon.
Qed.

Lemma total_result_of {A} (r : Redis.reply A) msg : result_of r <> Panic msg.
Proof. destruct r; discriminate. Qed.

Lemma total_IncrementPreserveTTL key d :
  total (RateLimitRepository.IncrementPreserveTTL key d).
Proof.
  unfold RateLimitRepository.IncrementPreserveTTL, RedisRepository.Increment,
    RedisRepository.Expire.
  apply total_bind; [intros w msg; discriminate | intros _].
  apply total_bind.
  { apply total_wrap, total_command, @total_result_of. }
  intros val. apply total_bind; [|intros _; apply total_ret].
  destruct ((val =? 1) && (0 <? d)); [|apply total_ret].
  destruct (0 <? d); [|apply total_ret].
  apply total_wrap, total_command. intros r msg. destruct r; discriminate.
Qed.

Lemma total_Check key : total (RateLimitRepository.Check key).
Proof.
  unfold RateLimitRepository.Check, RedisRepository.Exists, RedisRepository.Get.
  apply total_bind; [intros w msg; discriminate | intros _].
  apply total_bind.
  { apply total_wrap, total_command. intros r msg. destruct r; discriminate. }
  intros e. destruct (negb e); [apply total_ret|].
  apply total_bind.
  { apply total_wrap, total_command. intros r msg. destruct r; discriminate. }
  intros countStr. destruct (Str.Atoi countStr); [apply total_ret|].
  intros w msg. discriminate.
Qed.

Lemma total_divide a b : b <> 0 -> total (divide a b).
Proof.
  intros Hb w msg. unfold divide. apply Z.eqb_neq in Hb. rewrite Hb. discriminate.
Qed.

Lemma total_modulo a b : b <> 0 -> total (modulo a b).
Proof.
  intros Hb w msg. unfold modulo. apply Z.eqb_neq in Hb. rewrite Hb. discriminate.
Qed.

Definition divide_by_zero : string := "runtime error: integer divide by zero".

(** C10.  The window strategies divide by [int64(windowSize.Seconds())]
    with no test of the divisor.  For a window of a second or more the
    divisor is not zero, and [Allow] and [GetRateLimitInfo] of both
    strategies return a value or an error on every world.  For a window
    shorter than a second (in either direction from zero) the divisor is
    zero, and each of the four panics with a division by zero. *)
Theorem window_divisor (windowSize : Duration.t) :
  (Duration.Second <= windowSize ->
   F64.to_int64 (Duration.Seconds windowSize) <> 0 /\
   forall limit prefix identifier now,
     total (FixedWindow.Allow
              {| FixedWindow.limit := limit; FixedWindow.windowSize := windowSize;
                 FixedWindow.keyPrefix := prefix |} identifier now) /\
     total (FixedWindow.GetRateLimitInfo
              {| FixedWindow.limit := limit; FixedWindow.windowSize := windowSize;
                 FixedWindow.keyPrefix := prefix |} identifier now) /\
     total (SlidingWindow.Allow
              {| SlidingWindow.limit := limit;
                 SlidingWindow.windowSize := windowSize;
                 SlidingWindow.keyPrefix := prefix |} identifier now) /\
     total (SlidingWindow.GetRateLimitInfo
              {| SlidingWindow.limit := limit;
                 SlidingWindow.windowSize := windowSize;
                 SlidingWindow.keyPrefix := prefix |} identifier now)) /\
  (- Duration.Second < windowSize < Duration.Second ->
   F64.to_int64 (Duration.Seconds windowSize) = 0 /\
   forall limit prefix identifier now w,
     FixedWindow.Allow
       {| FixedWindow.limit := limit; FixedWindow.windowSize := windowSize;
          FixedWindow.keyPrefix := prefix |} identifier now w
     = (Panic divide_by_zero, w) /\
     FixedWindow.GetRateLimitInfo
       {| FixedWindow.limit := limit; FixedWindow.windowSize := windowSize;
          FixedWindow.keyPrefix := prefix |} identifier now w
     = (Panic divide_by_zero, w) /\
     SlidingWindow.Allow
       {| SlidingWindow.limit := limit; SlidingWindow.windowSize := windowSize;
          SlidingWindow.keyPrefix := prefix |} identifier now w
     = (Panic divide_by_zero, w) /\
     SlidingWindow.GetRateLimitInfo
       {| SlidingWindow.limit := limit; SlidingWindow.windowSize := windowSize;
          SlidingWindow.keyPrefix := prefix |} identifier now w
     = (Panic divide_by_zero, w)).
Proof.
  split.
  - intros Hw. pose proof (F64Facts.Seconds_whole windowSize Hw) as Hs.
    split; [exact Hs|]. intros limit prefix identifier now.
    unfold FixedWindow.Allow, FixedWindow.GetRateLimitInfo, SlidingWindow.Allow,
      SlidingWindow.GetRateLimitInfo.
    cbn [FixedWindow.windowSize SlidingWindow.windowSize].
    repeat split.
    + apply total_bind; [now apply total_divide | intros n].
      apply total_bind; [apply total_wrap, total_IncrementPreserveTTL|].
      intros c. apply total_ret.
    + apply total_bind; [now apply total_divide | intros n].
      apply total_bind; [apply total_Check | intros c; apply total_ret].
    + apply total_bind; [now apply total_divide | intros n].
      apply total_bind; [apply total_Check | intros c].
      apply total_bind; [apply total_Check | intros p].
      apply total_bind; [now apply total_modulo | intros r].
      case_match; [apply total_ret|].
      apply total_bind; [apply total_IncrementPreserveTTL|].
      intros _. apply total_ret.
    + apply total_bind; [now apply total_divide | intros n].
      apply total_bind; [apply total_Check | intros c].
      apply total_bind; [apply total_Check | intros p].
      apply total_bind; [now apply total_modulo | intros r].
      apply total_ret.
  - intros Hw. pose proof (F64Facts.Seconds_fraction windowSize Hw) as Hs.
    split; [exact Hs|]. intros limit prefix identifier now w.
    unfold FixedWindow.Allow, FixedWindow.GetRateLimitInfo, SlidingWindow.Allow,
      SlidingWindow.GetRateLimitInfo, bind, divide.
    cbn [FixedWindow.windowSize SlidingWindow.windowSize].
    rewrite Hs. auto.
Qed.

(** The theorem at a window of a minute and at one of half a second. *)
Lemma window_divisor_witness :
  F64.to_int64 (Duration.Seconds 60000000000) <> 0 /\
  F64.to_int64 (Duration.Seconds 500000000) = 0.
Proof.
  split.
  - apply (proj1 (window_divisor 60000000000)). vm_compute. discriminate.
  - apply (proj2 (window_divisor 500000000)). vm_compute. split; reflexivity.
Defined.

End WindowDivisor.

(** * The sliding window *)

Module SlidingWindowFacts.

Import SlidingWindow Run.

(** The windows and keys of a call at [now], as [Allow] computes them. *)
Definition secs (s : SlidingWindowStore) : Z :=
  F64.to_int64 (Duration.Seconds (windowSize s)).

Definition currentWindow (s : SlidingWindowStore) (now : Time.t) : Z :=
  GoInt.quo (Time.Unix now) (secs s).

Definition currentKey (s : SlidingWindowStore) (identifier : string)
    (now : Time.t) : string :=
  Str.Sprintf_s_s_d (keyPrefix s) identifier (currentWindow s now).

Definition previousKey (s : SlidingWindowStore) (identifier : string)
    (now : Time.t) : string :=
  Str.Sprintf_s_s_d (keyPrefix s) identifier (GoInt.sub (currentWindow s now) 1).

(** The count a key holds: none while the key is missing, else the number
    [INCR] wrote. *)
Definition holds (w : world) (key : string) (n : Z) : Prop :=
  (Redis.kv (server w) !! key = None /\ n = 0) \/
  (exists t, Redis.kv (server w) !! key = Some (Redis.Entry (Str.Itoa n) t) /\
             0 < n <= GoInt.max_int64).


Lemma Check_holds key w n :
  Redis.fault (server w) = None -> holds w key n ->
  RateLimitRepository.Check key w = (Ret n, logged w (CallCheck key)).
Proof.
  intros Hup [[Hk ->]|(t & Hk & Hn)].
  - now apply Check_absent.
  - apply (Check_present w Hup key n t); auto.
    unfold GoInt.in_int64, GoInt.min_int64, GoInt.max_int64 in *. lia.
Qed.



Lemma IncrementPreserveTTL_holds key d w n :
  Redis.fault (server w) = None -> holds w key n -> n < GoInt.max_int64 ->
  fst (RateLimitRepository.IncrementPreserveTTL key d w) = Ret (n + 1).
Proof.
  intros Hup [[Hk ->]|(t & Hk & Hn)] Hmax.
  - unfold RateLimitRepository.IncrementPreserveTTL, RedisRepository.Increment,
      RedisRepository.Expire, bind, wrap, log, command, Redis.INCR, Redis.EXPIRE,
      ret.
    pose proof (Wire.formatSec_pos d) as Hs.
    set (sec := Redis.formatSec d) in *. clearbody sec.
    set (second := Duration.Second). clearbody second.
    cbn [server calls]. rewrite Hup, Hk. cbn.
    destruct (0 <? d); cbn; [|reflexivity].
    rewrite Hup, lookup_insert_eq; cbn. now rewrite Hs.
  - now rewrite (IncrementPreserveTTL_present w Hup key d n t) by (auto; lia).
Qed.




(** The decision of [Allow].  On a server that can be reached, with [c] the
    count of the current window and [p] the count of the previous one,
    [Allow] allows the request exactly when the weighted count is strictly
    below the limit. *)
Lemma Allow_decides s identifier now w c p :
  Duration.Second <= windowSize s ->
  Redis.fault (server w) = None ->
  holds w (currentKey s identifier now) c ->
  holds w (previousKey s identifier now) p ->
  c < GoInt.max_int64 ->
  fst (Allow s identifier now w)
  = Ret (weightedCount s (GoInt.rem (Time.Unix now) (secs s)) p c <? limit s).
Proof.
  intros Hw Hup Hc Hp Hmax.
  pose proof (F64Facts.Seconds_whole (windowSize s) Hw) as Hs.
  apply Z.eqb_neq in Hs.
  unfold Allow, bind, divide, modulo. fold (secs s) in *. rewrite Hs.
  cbn [ret]. fold (currentWindow s now).
  fold (currentKey s identifier now) (previousKey s identifier now).
  rewrite (Check_holds _ w c Hup Hc).
  rewrite (Check_holds _ (logged w _) p Hup Hp).
  set (wc := weightedCount s _ p c).
  destruct (Z.leb_spec (limit s) wc) as [H|H].
  - cbn. f_equal. symmetry. apply Z.ltb_ge. exact H.
  - pose proof (IncrementPreserveTTL_holds (currentKey s identifier now)
                  (GoInt.mul (windowSize s) 2)
                  (logged (logged w (CallCheck (currentKey s identifier now)))
                     (CallCheck (previousKey s identifier now)))
                  c Hup Hc Hmax) as Hi.
    destruct (RateLimitRepository.IncrementPreserveTTL _ _ _) as [o w3].
    cbn [fst] in Hi. subst o. cbn. f_equal. symmetry. apply Z.ltb_lt. exact H.
Qed.

End SlidingWindowFacts.

(** * The token bucket *)

Module TokenBucketFacts.

Import TokenBucket Run.

Section WithJSON.
Context `{JSON tokenBucketState}.

Definition key (s : TokenBucketStore) (identifier : string) : string :=
  Str.Sprintf_s_s (keyPrefix s) identifier.

(** The state of a bucket that is not stored: full, as of [t0]. *)
Definition fresh (s : TokenBucketStore) (t0 : Time.t) : tokenBucketState :=
  {| Tokens := F64.of_int (burst s); LastRefill := t0 |}.

(** [tokens + elapsed*rate], before the cap. *)
Definition refilled (s : TokenBucketStore) (st : tokenBucketState)
    (now : Time.t) : F64.float64 :=
  F64.add (Tokens st)
    (F64.mul (Duration.Seconds (Time.Sub now (LastRefill st))) (rate s)).

(** The state [Allow] saves when it allows. *)
Definition consumed (s : TokenBucketStore) (st : tokenBucketState)
    (now : Time.t) : tokenBucketState :=
  {| Tokens := F64.sub (refill s st now) F64.one; LastRefill := now |}.

Lemma token_getBucketState_logged s k t0 w :
  snd (getBucketState s k t0 w) = logged w (CallGetState k).
Proof.
  unfold getBucketState, bind, attempt.
  pose proof (GetState_logged k w) as E.
  destruct (RateLimitRepository.GetState k w) as [[v|e|m] w1]; cbn [snd] in *;
    subst w1; try reflexivity.
  - unfold Unmarshal. destruct (decode v); reflexivity.
  - destruct (Str.Contains e "not found"); reflexivity.
Qed.

Lemma token_getBucketState_absent s k t0 w :
  Redis.fault (server w) = None ->
  Redis.kv (server w) !! k = None ->
  getBucketState s k t0 w = (Ret (fresh s t0), logged w (CallGetState k)).
Proof.
  intros Hup Hk. unfold getBucketState, bind, attempt.
  rewrite (GetState_absent w Hup k Hk). now rewrite not_found_message.
Qed.

Lemma token_getBucketState_decoded s k t0 w e st :
  Redis.fault (server w) = None ->
  Redis.kv (server w) !! k = Some e ->
  decode (Redis.value e) = Ok st ->
  getBucketState s k t0 w = (Ret st, logged w (CallGetState k)).
Proof.
  intros Hup Hk Hd. unfold getBucketState, bind, attempt.
  rewrite (GetState_present w Hup k e Hk). unfold Unmarshal. now rewrite Hd.
Qed.

Lemma token_getBucketState_malformed s k t0 w e err :
  Redis.fault (server w) = None ->
  Redis.kv (server w) !! k = Some e ->
  decode (Redis.value e) = Err err ->
  getBucketState s k t0 w =
  (Fail ("failed to unmarshal token bucket state: " ++ err),
   logged w (CallGetState k)).
Proof.
  intros Hup Hk Hd. unfold getBucketState, bind, attempt.
  rewrite (GetState_present w Hup k e Hk). unfold Unmarshal. now rewrite Hd.
Qed.

(** [Allow] once the state is loaded. *)
Lemma token_Allow_loaded s identifier t0 now w st :
  fst (getBucketState s (key s identifier) t0 w) = Ret st ->
  Allow s identifier t0 now w =
  (if F64.ltb (refill s st now) F64.one then ret false
   else wrap "failed to save bucket state: "
          (saveBucketState s (key s identifier) (consumed s st now)) ;;;
        ret true)
    (logged w (CallGetState (key s identifier))).
Proof.
  intros Hl. unfold Allow. fold (key s identifier).
  pose proof (token_getBucketState_logged s (key s identifier) t0 w) as E.
  unfold bind at 1. unfold wrap at 1.
  destruct (getBucketState s (key s identifier) t0 w) as [o w1].
  cbn [fst snd] in *. subst o w1. reflexivity.
Qed.

(** The capped level is the smaller of the burst size and the refilled
    level. *)
Lemma refill_min s st now :
  F64.is_nan (refilled s st now) = false ->
  F64.leb (refill s st now) (F64.of_int (burst s)) = true /\
  F64.leb (refill s st now) (refilled s st now) = true /\
  (refill s st now = refilled s st now \/
   refill s st now = F64.of_int (burst s)).
Proof.
  intros Hn. unfold refill. fold (refilled s st now).
  pose proof (F64Facts.of_int_not_nan (burst s)) as HB.
  destruct (F64.gtb (refilled s st now) (F64.of_int (burst s))) eqn:E.
  - repeat split; auto.
    + now apply F64Facts.leb_refl.
    + now apply F64Facts.ltb_leb.
  - repeat split; auto.
    + apply F64Facts.ltb_false_leb; auto.
    + now apply F64Facts.leb_refl.
Qed.

Lemma refill_valid s st now :
  F64.valid (rate s) -> F64.valid (Tokens st) -> F64.valid (refill s st now).
Proof.
  intros Hr Ht. unfold refill.
  destruct (F64.gtb _ _); [apply F64Facts.of_int_valid|].
  apply F64Facts.add_valid; auto.
  apply F64Facts.mul_valid; auto. apply F64Facts.Seconds_valid.
Qed.

Lemma refill_nan s st now :
  F64.is_nan (refill s st now) = false -> F64.is_nan (refilled s st now) = false.
Proof.
  unfold refill. fold (refilled s st now).
  destruct (F64.gtb (refilled s st now) (F64.of_int (burst s))) eqn:E; auto.
  intros _. unfold F64.gtb, SFltb in E.
  destruct (refilled s st now); try reflexivity.
  destruct (F64.of_int (burst s)); discriminate.
Qed.

(** With a token in the bucket, the level after taking it is finite and
    between zero and the burst size. *)
Lemma consumed_bounds s st now :
  F64.valid (rate s) -> F64.valid (Tokens st) -> GoInt.in_int64 (burst s) ->
  F64.is_nan (refill s st now) = false ->
  F64.ltb (refill s st now) F64.one = false ->
  F64.leb F64.zero (Tokens (consumed s st now)) = true /\
  F64.leb (Tokens (consumed s st now)) (F64.of_int (burst s)) = true /\
  F64.is_finite (Tokens (consumed s st now)) = true.
Proof.
  intros Hr Ht Hb Hn Hlt. cbn [consumed Tokens].
  apply F64Facts.sub_one_bounds; auto.
  - now apply refill_valid.
  - apply refill_min. now apply refill_nan.
  - apply F64Facts.of_int_finite.
    unfold GoInt.in_int64, GoInt.min_int64, GoInt.max_int64 in Hb. lia.
Qed.


End WithJSON.


End TokenBucketFacts.

(** * The leaky bucket *)

Module LeakyBucketFacts.

Import LeakyBucket Run.

Section WithJSON.
Context `{JSON leakyBucketState}.

Definition key (s : LeakyBucketStore) (identifier : string) : string :=
  Str.Sprintf_s_s (keyPrefix s) identifier.

(** The state of a bucket that is not stored: empty, as of [t0]. *)
Definition fresh (t0 : Time.t) : leakyBucketState :=
  {| Water := 0; LastLeak := t0 |}.

(** The state [Allow] saves when it denies, and when it allows. *)
Definition held (s : LeakyBucketStore) (st : leakyBucketState)
    (now : Time.t) : leakyBucketState :=
  {| Water := drained s st now; LastLeak := LastLeak st |}.

Definition poured (s : LeakyBucketStore) (st : leakyBucketState)
    (now : Time.t) : leakyBucketState :=
  {| Water := GoInt.add (drained s st now) 1; LastLeak := now |}.

Lemma leaky_getBucketState_logged s k t0 w :
  snd (getBucketState s k t0 w) = logged w (CallGetState k).
Proof.
  unfold getBucketState, bind, attempt.
  pose proof (GetState_logged k w) as E.
  destruct (RateLimitRepository.GetState k w) as [[v|e|m] w1]; cbn [snd] in *;
    subst w1; try reflexivity.
  - unfold Unmarshal. destruct (decode v); reflexivity.
  - destruct (Str.Contains e "not found"); reflexivity.
Qed.

Lemma leaky_getBucketState_absent s k t0 w :
  Redis.fault (server w) = None ->
  Redis.kv (server w) !! k = None ->
  getBucketState s k t0 w = (Ret (fresh t0), logged w (CallGetState k)).
Proof.
  intros Hup Hk. unfold getBucketState, bind, attempt.
  rewrite (GetState_absent w Hup k Hk). now rewrite not_found_message.
Qed.

Lemma leaky_getBucketState_decoded s k t0 w e st :
  Redis.fault (server w) = None ->
  Redis.kv (server w) !! k = Some e ->
  decode (Redis.value e) = Ok st ->
  getBucketState s k t0 w = (Ret st, logged w (CallGetState k)).
Proof.
  intros Hup Hk Hd. unfold getBucketState, bind, attempt.
  rewrite (GetState_present w Hup k e Hk). unfold Unmarshal. now rewrite Hd.
Qed.

Lemma leaky_getBucketState_malformed s k t0 w e err :
  Redis.fault (server w) = None ->
  Redis.kv (server w) !! k = Some e ->
  decode (Redis.value e) = Err err ->
  getBucketState s k t0 w =
  (Fail ("failed to unmarshal leaky bucket state: " ++ err),
   logged w (CallGetState k)).
Proof.
  intros Hup Hk Hd. unfold getBucketState, bind, attempt.
  rewrite (GetState_present w Hup k e Hk). unfold Unmarshal. now rewrite Hd.
Qed.

(** [Allow] once the state is loaded. *)
Lemma leaky_Allow_loaded s identifier t0 now w st :
  fst (getBucketState s (key s identifier) t0 w) = Ret st ->
  Allow s identifier t0 now w =
  (if capacity s <=? drained s st now
   then saveBucketState s (key s identifier) (held s st now) ;;; ret false
   else saveBucketState s (key s identifier) (poured s st now) ;;; ret true)
    (logged w (CallGetState (key s identifier))).
Proof.
  intros Hl. unfold Allow. fold (key s identifier).
  pose proof (leaky_getBucketState_logged s (key s identifier) t0 w) as E.
  unfold bind at 1.
  destruct (getBucketState s (key s identifier) t0 w) as [o w1].
  cbn [fst snd] in *. subst o w1. reflexivity.
Qed.

(** Saving on a server that can be reached. *)
Lemma saveBucketState_ok s k st w :
  Redis.fault (server w) = None ->
  saveBucketState s k st w =
  (Ret tt,
   stored (logged w (CallSetState k (encode st) (expiresIn s))) k
     (Redis.Entry (encode st) (ttl_after_set w k (expiresIn s)))).
Proof.
  intros Hup. unfold saveBucketState, Marshal. apply (SetState_ok w Hup).
Qed.

(** C2, as the code has it.  On a server that can be reached, when the
    stored state [st] decays to a level that is at least the capacity,
    [Allow] denies the request and, before it returns, makes one write: the
    state with the decayed water and with [lastLeak] as it was loaded.  The
    time of the last leak is not moved to [now] by a denied call. *)
Theorem leaky_bucket_deny s identifier t0 now w e st :
  Redis.fault (server w) = None ->
  Redis.kv (server w) !! key s identifier = Some e ->
  decode (Redis.value e) = Ok st ->
  capacity s <= drained s st now ->
  Allow s identifier t0 now w =
  (Ret false,
   stored
     (logged (logged w (CallGetState (key s identifier)))
        (CallSetState (key s identifier)
           (encode {| Water := drained s st now; LastLeak := LastLeak st |})
           (expiresIn s)))
     (key s identifier)
     (Redis.Entry
        (encode {| Water := drained s st now; LastLeak := LastLeak st |})
        (ttl_after_set w (key s identifier) (expiresIn s)))).
Proof.
  intros Hup Hk Hd Hfull.
  rewrite (leaky_Allow_loaded s identifier t0 now w st)
    by now rewrite (leaky_getBucketState_decoded s _ t0 w e st Hup Hk Hd).
  apply Z.leb_le in Hfull. rewrite Hfull. unfold bind.
  rewrite saveBucketState_ok by exact Hup. reflexivity.
Qed.

End WithJSON.

Import Codec.

(** A server that holds a full bucket of five units, last leaked at time 0,
    for the caller at 10.0.0.1. *)
Definition full_bucket : world :=
  stored empty_world "rate_limit_leaky_bucket:ip:10.0.0.1"
    (Redis.Entry (encode {| Water := 5; LastLeak := 0 |}) None).

(** C2, as the specification states it, fails: half a second after the last leak the
    call is denied, and the state it writes has the time of the last leak
    still at 0, not at the time of the call. *)
Lemma leaky_bucket_deny_counterexample :
  exists e,
    @Allow Codec.leaky_json (NewLeakyBucketStore 5 (F64.of_int 1) 3600000000000)
      "ip:10.0.0.1" 500000000 500000000 full_bucket
    = (Ret false,
       stored
         (logged
            (logged full_bucket
               (CallGetState "rate_limit_leaky_bucket:ip:10.0.0.1"))
            (CallSetState "rate_limit_leaky_bucket:ip:10.0.0.1"
               (Redis.value e) 3600000000000))
         "rate_limit_leaky_bucket:ip:10.0.0.1" e) /\
    decode (Redis.value e) = Ok {| Water := 5; LastLeak := 0 |} /\
    decode (Redis.value e) <> Ok {| Water := 5; LastLeak := 500000000 |}.
Proof.
  exists (Redis.Entry (encode {| Water := 5; LastLeak := 0 |})
            (Some 3600000000000)).
  split; [|split].
  - vm_compute. reflexivity.
  - vm_compute. reflexivity.
  - vm_compute. discriminate.
Qed.

(** The theorem at the full bucket, half a second after its last leak. *)
Lemma leaky_bucket_deny_witness :
  fst (@Allow Codec.leaky_json
         (NewLeakyBucketStore 5 (F64.of_int 1) 3600000000000)
         "ip:10.0.0.1" 500000000 500000000 full_bucket) = Ret false.
Proof.
  rewrite (@leaky_bucket_deny Codec.leaky_json
             (NewLeakyBucketStore 5 (F64.of_int 1) 3600000000000)
             "ip:10.0.0.1" 500000000 500000000 full_bucket
             (Redis.Entry (encode {| Water := 5; LastLeak := 0 |}) None)
             {| Water := 5; LastLeak := 0 |}).
  - reflexivity.
  - reflexivity.
  - reflexivity.
  - reflexivity.
  - vm_compute. discriminate.
Defined.

End LeakyBucketFacts.

(** * Both buckets *)

Module BucketFacts.

Import Run.

(** A sequence keeps the world of its first part when the rest only
    returns. *)
Lemma snd_then_ret {A B} (c : M A) (b : B) w :
  snd ((c ;;; ret b) w) = snd (c w).
Proof. unfold bind, ret. destruct (c w) as [[a|e|m] w1]; reflexivity. Qed.

Lemma snd_wrap {A} prefix (c : M A) w : snd (wrap prefix c w) = snd (c w).
Proof. unfold wrap. destruct (c w) as [[a|e|m] w1]; reflexivity. Qed.

Lemma fst_bind_fail {A B} (c : M A) (k : A -> M B) w err :
  fst (c w) = Fail err -> fst (bind c k w) = Fail err.
Proof. unfold bind. destruct (c w) as [[a|e|m] w1]; cbn; congruence. Qed.

Section WithJSON.
Context {token_json : JSON TokenBucket.tokenBucketState}.
Context {leaky_json : JSON LeakyBucket.leakyBucketState}.

(** C9.  A stored blob that is read from a server that can be reached and
    does not decode makes [Allow] of either bucket return an error, the
    decoder's, after the one read: no decision is returned, no fresh state
    is made and nothing is written. *)
Theorem malformed_state_is_an_error identifier t0 now w :
  Redis.fault (server w) = None ->
  (forall (s : TokenBucket.TokenBucketStore) e err,
     Redis.kv (server w) !! TokenBucketFacts.key s identifier = Some e ->
     decode (A := TokenBucket.tokenBucketState) (Redis.value e) = Err err ->
     TokenBucket.Allow s identifier t0 now w =
     (Fail ("failed to get bucket state: "
            ++ "failed to unmarshal token bucket state: " ++ err),
      logged w (CallGetState (TokenBucketFacts.key s identifier)))) /\
  (forall (s : LeakyBucket.LeakyBucketStore) e err,
     Redis.kv (server w) !! LeakyBucketFacts.key s identifier = Some e ->
     decode (A := LeakyBucket.leakyBucketState) (Redis.value e) = Err err ->
     LeakyBucket.Allow s identifier t0 now w =
     (Fail ("failed to unmarshal leaky bucket state: " ++ err),
      logged w (CallGetState (LeakyBucketFacts.key s identifier)))).
Proof.
  intros Hup. split; intros s e err Hk Hd.
  - unfold TokenBucket.Allow. fold (TokenBucketFacts.key s identifier).
    unfold bind, wrap.
    now rewrite (TokenBucketFacts.token_getBucketState_malformed s _ t0 w e err Hup Hk Hd).
  - unfold LeakyBucket.Allow. fold (LeakyBucketFacts.key s identifier).
    unfold bind.
    now rewrite (LeakyBucketFacts.leaky_getBucketState_malformed s _ t0 w e err Hup Hk Hd).
Qed.

End WithJSON.

Import Codec.

(** A server that holds, for the caller at 10.0.0.1, a blob that is no
    state of either bucket. *)
Definition garbled : world :=
  stored
    (stored empty_world "rate_limit_token_bucket:ip:10.0.0.1"
       (Redis.Entry "{" None))
    "rate_limit_leaky_bucket:ip:10.0.0.1" (Redis.Entry "{" None).

(** The theorem at the garbled blob. *)
Lemma malformed_state_is_an_error_witness :
  fst (TokenBucket.Allow
         (TokenBucket.NewTokenBucketStore (F64.of_int 1) 5 3600000000000)
         "ip:10.0.0.1" 0 0 garbled)
  = Fail ("failed to get bucket state: "
          ++ "failed to unmarshal token bucket state: " ++ "invalid character")
  /\
  fst (LeakyBucket.Allow
         (LeakyBucket.NewLeakyBucketStore 5 (F64.of_int 1) 3600000000000)
         "ip:10.0.0.1" 0 0 garbled)
  = Fail ("failed to unmarshal leaky bucket state: " ++ "invalid character").
Proof.
  destruct (malformed_state_is_an_error "ip:10.0.0.1" 0 0 garbled eq_refl)
    as [Ht Hl].
  split.
  - rewrite (Ht (TokenBucket.NewTokenBucketStore (F64.of_int 1) 5 3600000000000)
               (Redis.Entry "{" None) "invalid character");
      reflexivity.
  - rewrite (Hl (LeakyBucket.NewLeakyBucketStore 5 (F64.of_int 1) 3600000000000)
               (Redis.Entry "{" None) "invalid character");
      reflexivity.
Defined.

End BucketFacts.

(** * The levels of the buckets *)

Module BucketLevels.

Import Run BucketFacts.

(** What leaks out of a bucket whose leak rate is not negative, over a time
    that is not negative: a count that is not negative, or the number the
    machine gives for a product too large for an integer. *)
Lemma leaked_range (s : LeakyBucket.LeakyBucketStore) st now :
  F64.leb F64.zero (LeakyBucket.leakRate s) = true ->
  LeakyBucket.LastLeak st <= now ->
  0 <= LeakyBucket.leaked s st now <= GoInt.max_int64 \/
  LeakyBucket.leaked s st now = GoInt.min_int64.
Proof.
  intros Hr Ht. unfold LeakyBucket.leaked.
  apply F64Facts.to_int64_nonneg, F64Facts.mul_nonneg.
  - apply F64Facts.has_sign_nonneg, F64Facts.Seconds_sign.
    unfold Time.Sub, GoInt.min_int64, GoInt.max_int64. lia.
  - now apply F64Facts.leb_zero_nonneg.
Qed.

Lemma drained_range (s : LeakyBucket.LeakyBucketStore) st now :
  F64.leb F64.zero (LeakyBucket.leakRate s) = true ->
  LeakyBucket.LastLeak st <= now ->
  0 <= LeakyBucket.Water st <= GoInt.max_int64 ->
  0 <= LeakyBucket.drained s st now <= LeakyBucket.Water st.
Proof.
  intros Hr Ht Hw. unfold LeakyBucket.drained, GoInt.sub.
  destruct (leaked_range s st now Hr Ht) as [Hl| ->].
  - rewrite GoIntFacts.wrap64_id; [lia|].
    unfold GoInt.in_int64, GoInt.min_int64, GoInt.max_int64 in *. lia.
  - unfold GoInt.wrap64, GoInt.min_int64, GoInt.max_int64 in *.
    replace (LeakyBucket.Water st - - 2 ^ 63 + 2 ^ 63)
      with (LeakyBucket.Water st + 1 * 2 ^ 64) by lia.
    rewrite Z.mod_add by lia. rewrite Z.mod_small by lia. lia.
Qed.

Section WithJSON.
Context {token_json : JSON TokenBucket.tokenBucketState}.
Context {leaky_json : JSON LeakyBucket.leakyBucketState}.

(** The calls of the token bucket's [Allow]. *)
Lemma token_Allow_calls (s : TokenBucket.TokenBucketStore) identifier t0 now w st :
  fst (TokenBucket.getBucketState s (TokenBucketFacts.key s identifier) t0 w)
    = Ret st ->
  calls (snd (TokenBucket.Allow s identifier t0 now w)) =
  (calls w ++
   CallGetState (TokenBucketFacts.key s identifier) ::
   (if F64.ltb (TokenBucket.refill s st now) F64.one then []
    else if F64.is_finite (TokenBucket.Tokens (TokenBucketFacts.consumed s st now))
         then [CallSetState (TokenBucketFacts.key s identifier)
                 (encode (TokenBucketFacts.consumed s st now))
                 (TokenBucket.expiresIn s)]
         else []))%list.
Proof.
  intros Hl. rewrite (TokenBucketFacts.token_Allow_loaded s identifier t0 now w st Hl).
  destruct (F64.ltb (TokenBucket.refill s st now) F64.one); [reflexivity|].
  rewrite snd_then_ret, snd_wrap.
  unfold TokenBucket.saveBucketState, TokenBucket.Marshal.
  destruct (F64.is_finite _); [|reflexivity].
  rewrite SetState_calls. cbn [logged calls]. now rewrite <- app_assoc.
Qed.

(** The calls of the leaky bucket's [Allow]. *)
Lemma leaky_Allow_calls (s : LeakyBucket.LeakyBucketStore) identifier t0 now w st :
  fst (LeakyBucket.getBucketState s (LeakyBucketFacts.key s identifier) t0 w)
    = Ret st ->
  calls (snd (LeakyBucket.Allow s identifier t0 now w)) =
  (calls w ++
   [CallGetState (LeakyBucketFacts.key s identifier);
    CallSetState (LeakyBucketFacts.key s identifier)
      (encode (if LeakyBucket.capacity s <=? LeakyBucket.drained s st now
               then LeakyBucketFacts.held s st now
               else LeakyBucketFacts.poured s st now))
      (LeakyBucket.expiresIn s)])%list.
Proof.
  intros Hl. rewrite (LeakyBucketFacts.leaky_Allow_loaded s identifier t0 now w st Hl).
  destruct (LeakyBucket.capacity s <=? LeakyBucket.drained s st now);
    rewrite snd_then_ret; unfold LeakyBucket.saveBucketState, LeakyBucket.Marshal;
    rewrite SetState_calls; cbn [logged calls]; now rewrite <- app_assoc.
Qed.

(** C7, with the leak rate not negative.  Whatever [Allow] of a bucket
    writes is a state whose level is in range.  The token bucket writes
    tokens between 0 and the burst size, for any state it loads.  The leaky
    bucket, when its leak rate is at least zero, the water it loads is
    between 0 and the capacity and the last leak is not after [now], writes
    water between 0 and the capacity. *)
Theorem bucket_levels_stay_in_range identifier t0 now w :
  (forall (s : TokenBucket.TokenBucketStore) st,
     F64.valid (TokenBucket.rate s) ->
     GoInt.in_int64 (TokenBucket.burst s) ->
     F64.valid (TokenBucket.Tokens st) ->
     fst (TokenBucket.getBucketState s (TokenBucketFacts.key s identifier) t0 w)
       = Ret st ->
     exists cs,
       calls (snd (TokenBucket.Allow s identifier t0 now w))
         = (calls w ++ cs)%list /\
       forall k v d, In (CallSetState k v d) cs ->
         exists st',
           v = encode st' /\
           F64.leb F64.zero (TokenBucket.Tokens st') = true /\
           F64.leb (TokenBucket.Tokens st') (F64.of_int (TokenBucket.burst s))
             = true) /\
  (forall (s : LeakyBucket.LeakyBucketStore) st,
     GoInt.in_int64 (LeakyBucket.capacity s) ->
     F64.leb F64.zero (LeakyBucket.leakRate s) = true ->
     0 <= LeakyBucket.Water st <= LeakyBucket.capacity s ->
     LeakyBucket.LastLeak st <= now ->
     fst (LeakyBucket.getBucketState s (LeakyBucketFacts.key s identifier) t0 w)
       = Ret st ->
     exists cs,
       calls (snd (LeakyBucket.Allow s identifier t0 now w))
         = (calls w ++ cs)%list /\
       forall k v d, In (CallSetState k v d) cs ->
         exists st',
           v = encode st' /\
           0 <= LeakyBucket.Water st' <= LeakyBucket.capacity s).
Proof.
  split.
  - intros s st Hr Hb Hv Hl. eexists. split.
    { apply (token_Allow_calls s identifier t0 now w st Hl). }
    intros k v d Hin.
    destruct (F64.ltb (TokenBucket.refill s st now) F64.one) eqn:Hlt.
    { destruct Hin as [E|[]]. discriminate. }
    destruct (F64.is_finite
                (TokenBucket.Tokens (TokenBucketFacts.consumed s st now))) eqn:Hf.
    2: { destruct Hin as [E|[]]. discriminate. }
    destruct Hin as [E|[E|[]]]; [discriminate|]. injection E as _ <- _.
    exists (TokenBucketFacts.consumed s st now). split; [reflexivity|].
    assert (Hn : F64.is_nan (TokenBucket.refill s st now) = false).
    { cbn [TokenBucketFacts.consumed TokenBucket.Tokens] in Hf.
      destruct (TokenBucket.refill s st now); try reflexivity. discriminate. }
    destruct (TokenBucketFacts.consumed_bounds s st now Hr Hv Hb Hn Hlt)
      as (H0 & H1 & _).
    now split.
  - intros s st Hc Hr Hw Ht Hl. eexists. split.
    { apply (leaky_Allow_calls s identifier t0 now w st Hl). }
    intros k v d Hin.
    destruct Hin as [E|[E|[]]]; [discriminate|]. injection E as _ <- _.
    eexists. split; [reflexivity|].
    assert (Hd : 0 <= LeakyBucket.drained s st now <= LeakyBucket.Water st).
    { apply drained_range; auto.
      unfold GoInt.in_int64 in Hc. lia. }
    destruct (LeakyBucket.capacity s <=? LeakyBucket.drained s st now) eqn:E.
    + cbn [LeakyBucketFacts.held LeakyBucket.Water]. lia.
    + apply Z.leb_gt in E.
      cbn [LeakyBucketFacts.poured LeakyBucket.Water]. unfold GoInt.add.
      rewrite GoIntFacts.wrap64_id; [lia|].
      unfold GoInt.in_int64, GoInt.min_int64, GoInt.max_int64 in *. lia.
Qed.

End WithJSON.

Import Codec.

(** C7, as the specification states it, fails for the leaky bucket when the leak rate
    is negative: the bucket of capacity 5 holds 5 units, three seconds pass,
    and the denied call writes 8 units. *)
Lemma bucket_levels_counterexample :
  exists e,
    LeakyBucket.Allow
      (LeakyBucket.NewLeakyBucketStore 5 (F64.of_int (-1)) 3600000000000)
      "ip:10.0.0.1" 3000000000 3000000000 LeakyBucketFacts.full_bucket
    = (Ret false,
       stored
         (logged
            (logged LeakyBucketFacts.full_bucket
               (CallGetState "rate_limit_leaky_bucket:ip:10.0.0.1"))
            (CallSetState "rate_limit_leaky_bucket:ip:10.0.0.1"
               (Redis.value e) 3600000000000))
         "rate_limit_leaky_bucket:ip:10.0.0.1" e) /\
    decode (Redis.value e)
      = Ok {| LeakyBucket.Water := 8; LeakyBucket.LastLeak := 0 |} /\
    ~ 8 <= LeakyBucket.capacity
           (LeakyBucket.NewLeakyBucketStore 5 (F64.of_int (-1)) 3600000000000).
Proof.
  exists (Redis.Entry
            (encode {| LeakyBucket.Water := 8; LeakyBucket.LastLeak := 0 |})
            (Some 3600000000000)).
  split; [|split].
  - vm_compute. reflexivity.
  - vm_compute. reflexivity.
  - vm_compute. intros Hle. now apply Hle.
Qed.

(** The theorem at a token bucket that is not stored and at the full leaky
    bucket, three seconds after its last leak. *)
Lemma bucket_levels_stay_in_range_witness :
  (exists cs,
     calls (snd (TokenBucket.Allow
                   (TokenBucket.NewTokenBucketStore (F64.of_int 1) 5 3600000000000)
                   "ip:10.0.0.1" 0 1000 empty_world))
       = (calls empty_world ++ cs)%list /\
     forall k v d, In (CallSetState k v d) cs ->
       exists st',
         v = encode st' /\
         F64.leb F64.zero (TokenBucket.Tokens st') = true /\
         F64.leb (TokenBucket.Tokens st') (F64.of_int 5) = true) /\
  (exists cs,
     calls (snd (LeakyBucket.Allow
                   (LeakyBucket.NewLeakyBucketStore 5 (F64.of_int 1) 3600000000000)
                   "ip:10.0.0.1" 3000000000 3000000000
                   LeakyBucketFacts.full_bucket))
       = (calls LeakyBucketFacts.full_bucket ++ cs)%list /\
     forall k v d, In (CallSetState k v d) cs ->
       exists st', v = encode st' /\ 0 <= LeakyBucket.Water st' <= 5).
Proof.
  destruct (bucket_levels_stay_in_range "ip:10.0.0.1" 0 1000 empty_world)
    as [Ht _].
  destruct (bucket_levels_stay_in_range "ip:10.0.0.1" 3000000000 3000000000
              LeakyBucketFacts.full_bucket) as [_ Hl].
  split.
  - apply (Ht (TokenBucket.NewTokenBucketStore (F64.of_int 1) 5 3600000000000)
              {| TokenBucket.Tokens := F64.of_int 5; TokenBucket.LastRefill := 0 |}).
    + reflexivity.
    + vm_compute. split; discriminate.
    + reflexivity.
    + reflexivity.
  - apply (Hl (LeakyBucket.NewLeakyBucketStore 5 (F64.of_int 1) 3600000000000)
              {| LeakyBucket.Water := 5; LeakyBucket.LastLeak := 0 |}).
    + vm_compute. split; discriminate.
    + reflexivity.
    + cbn. lia.
    + cbn. lia.
    + reflexivity.
Defined.

End BucketLevels.

(** * The adapter *)

Module MiddlewareFacts.

Import Middleware.

(** What the adapter does once it has an identifier. *)
Definition limited {S : Type} `{RateLimiterStore S} (s : S)
    (identifier : string) (t0 now t0' now' : Time.t) : M response :=
  r <- attempt (Allow s identifier t0 now) ;;
  match r with
  | Ok true => ret Next
  | Ok false => DenyHandler s identifier None t0' now'
  | Err err => DenyHandler s identifier (Some err) t0' now'
  end.

(** A request with no key and no address of its origin. *)
Definition anonymous : Context :=
  {| X_API_Key := ""; RealIP := ""; Path := "/" |}.

(** C5, as the specification states it, fails: for a request with neither a key nor an
    address the extractor returns the identifier [ip:] and no error, and
    the adapter calls [Allow] with it: the fixed window counts the request
    under the key built from [ip:] and lets it through. *)
Lemma extraction_counterexample :
  IdentifierExtractor anonymous = Ok "ip:" /\
  fst (RateLimiterWithConfig IdentifierExtractor
         (FixedWindow.NewFixedWindowStore 3 60000000000) anonymous 0 0 0 0
         empty_world) = Ret Next /\
  calls (snd (RateLimiterWithConfig IdentifierExtractor
                (FixedWindow.NewFixedWindowStore 3 60000000000) anonymous
                0 0 0 0 empty_world))
  = [CallIncrementPreserveTTL "rate_limit_fixed_window:ip::0" 60000000000].
Proof. repeat split; vm_compute; reflexivity. Qed.

Section Adapter.
Context {S : Type} `{RateLimiterStore S}.

(** C5, as the code has it.  The extraction of an identifier never fails:
    it is [api:] and the key when the request has a key, and [ip:] and the
    address otherwise, whatever the address is; the per-path extractor adds
    the path.  The identifier is never the empty string, and the adapter
    always goes on to [Allow] with it.  With neither a key nor an address
    the identifier is [ip:]. *)
Theorem extraction_never_fails (s : S) (c : Context) (t0 now t0' now' : Time.t) :
  IdentifierExtractor c
    = Ok (if String.eqb (X_API_Key c) "" then "ip:" ++ RealIP c
          else "api:" ++ X_API_Key c) /\
  IdentifierExtractorPerPath c
    = Ok (if String.eqb (X_API_Key c) ""
          then "ip:" ++ RealIP c ++ ":" ++ Path c
          else "api:" ++ X_API_Key c ++ ":" ++ Path c) /\
  (forall extractor identifier,
     extractor = IdentifierExtractor \/ extractor = IdentifierExtractorPerPath ->
     extractor c = Ok identifier ->
     identifier <> "" /\
     RateLimiterWithConfig extractor s c t0 now t0' now'
       = limited s identifier t0 now t0' now') /\
  (X_API_Key c = "" -> RealIP c = "" ->
   RateLimiterWithConfig IdentifierExtractor s c t0 now t0' now'
     = limited s "ip:" t0 now t0' now').
Proof.
  assert (E1 : IdentifierExtractor c
               = Ok (if String.eqb (X_API_Key c) "" then "ip:" ++ RealIP c
                     else "api:" ++ X_API_Key c)).
  { unfold IdentifierExtractor. now destruct (String.eqb (X_API_Key c) ""). }
  assert (E2 : IdentifierExtractorPerPath c
               = Ok (if String.eqb (X_API_Key c) ""
                     then "ip:" ++ RealIP c ++ ":" ++ Path c
                     else "api:" ++ X_API_Key c ++ ":" ++ Path c)).
  { unfold IdentifierExtractorPerPath, Str.Sprintf_s_s_s.
    now destruct (String.eqb (X_API_Key c) ""). }
  split; [exact E1|]. split; [exact E2|]. split.
  - intros extractor identifier He Hid. split.
    + destruct He as [-> | ->]; [rewrite E1 in Hid | rewrite E2 in Hid];
        injection Hid as <-; destruct (String.eqb (X_API_Key c) "");
        discriminate.
    + unfold RateLimiterWithConfig. now rewrite Hid.
  - intros Hk Hip. unfold RateLimiterWithConfig. rewrite E1, Hk, Hip.
    reflexivity.
Qed.

End Adapter.

(** The theorem at the request with neither a key nor an address. *)
Lemma extraction_never_fails_witness :
  RateLimiterWithConfig IdentifierExtractor
    (FixedWindow.NewFixedWindowStore 3 60000000000) anonymous 0 0 0 0
  = limited (FixedWindow.NewFixedWindowStore 3 60000000000) "ip:" 0 0 0 0.
Proof.
  apply (extraction_never_fails
           (FixedWindow.NewFixedWindowStore 3 60000000000) anonymous 0 0 0 0).
  - reflexivity.
  - reflexivity.
Defined.

End MiddlewareFacts.

(** * Identifiers do not meet *)

Module Isolation.

Import Selector Frame.

(** The two operations of a limiter, and what they answer. *)
Inductive operation : Type := OpAllow | OpInfo.

Inductive answer : Type :=
| Decision (permit : bool)
| Information (info : RateLimitResponse).

Section WithJSON.
Context `{JSON TokenBucket.tokenBucketState} `{JSON LeakyBucket.leakyBucketState}.

Definition perform (l : Limiter) (o : operation) (identifier : string)
    (t0 now : Time.t) : M answer :=
  match o with
  | OpAllow =>
      permit <- Middleware.Allow l identifier t0 now ;; ret (Decision permit)
  | OpInfo =>
      info <- Middleware.GetRateLimitInfo l identifier t0 now ;;
      ret (Information info)
  end.

Lemma confined_perform l o identifier t0 now :
  confined (keys l identifier) (perform l o identifier t0 now).
Proof.
  destruct o; cbn [perform]; apply confined_bind;
    try (intros; apply confined_ret).
  - apply confined_Allow.
  - apply confined_Info.
Qed.

(** C8.  For two identifiers that differ and any of the four strategies, a
    call of [Allow] or of the information for the first identifier calls the
    repository on keys built from the first identifier only, changes no
    other key, and returns what the keys of the first identifier determine.
    No key is built from both identifiers.  So the call leaves every key of
    the second identifier as it was, and [Allow] and the information for the
    second identifier answer after the call what they answer before it. *)
Theorem partition_isolation (l : Limiter) (o1 o2 : operation)
    (id1 id2 : string) (t0 now t0' now' : Time.t) (w : world) :
  id1 <> id2 ->
  (exists cs,
     calls (snd (perform l o1 id1 t0 now w)) = (calls w ++ cs)%list /\
     Forall (fun c => keys l id1 (call_key c)) cs) /\
  (forall k, ~ keys l id1 k ->
     Redis.kv (server (snd (perform l o1 id1 t0 now w))) !! k
     = Redis.kv (server w) !! k) /\
  (forall w2, agree (keys l id1) (server w) (server w2) ->
     fst (perform l o1 id1 t0 now w) = fst (perform l o1 id1 t0 now w2)) /\
  (forall k, keys l id1 k -> ~ keys l id2 k) /\
  (forall k, keys l id2 k ->
     Redis.kv (server (snd (perform l o1 id1 t0 now w))) !! k
     = Redis.kv (server w) !! k) /\
  fst (perform l o2 id2 t0' now' (snd (perform l o1 id1 t0 now w)))
  = fst (perform l o2 id2 t0' now' w).
Proof.
  intros Hne.
  pose proof (confined_perform l o1 id1 t0 now) as C1.
  pose proof (confined_perform l o2 id2 t0' now') as C2.
  assert (Hapart : forall k, keys l id1 k -> ~ keys l id2 k).
  { intros k H1 H2. apply Hne. exact (keys_apart l id1 id2 k H1 H2). }
  destruct (conf_frame _ _ C1 w) as [Hfault Hkeep].
  repeat split.
  - apply (conf_calls _ _ C1 w).
  - exact Hkeep.
  - intros w2 Hag. apply (conf_read _ _ C1 w w2 Hag).
  - exact Hapart.
  - intros k H2. apply Hkeep. intros H1. exact (Hapart k H1 H2).
  - apply (conf_read _ _ C2). split; [exact Hfault|].
    intros k H2. apply Hkeep. intros H1. exact (Hapart k H1 H2).
Qed.

End WithJSON.

Import Codec.

(** The theorem at two callers of a fixed window of three requests a minute:
    after the first caller is counted, the second is answered as before. *)
Lemma partition_isolation_witness :
  fst (perform (NewRateLimiter
                  {| Strategy := "fixed_window"; Limit_ := 3;
                     Window := 60000000000; Burst := 5; Rate := F64.of_int 1 |})
         OpInfo "ip:10.0.0.2" 0 1000
         (snd (perform (NewRateLimiter
                          {| Strategy := "fixed_window"; Limit_ := 3;
                             Window := 60000000000; Burst := 5;
                             Rate := F64.of_int 1 |})
                 OpAllow "ip:10.0.0.1" 0 1000 empty_world)))
  = fst (perform (NewRateLimiter
                    {| Strategy := "fixed_window"; Limit_ := 3;
                       Window := 60000000000; Burst := 5; Rate := F64.of_int 1 |})
           OpInfo "ip:10.0.0.2" 0 1000 empty_world).
Proof.
  apply (partition_isolation
           (NewRateLimiter
              {| Strategy := "fixed_window"; Limit_ := 3;
                 Window := 60000000000; Burst := 5; Rate := F64.of_int 1 |})
           OpAllow OpInfo "ip:10.0.0.1" "ip:10.0.0.2" 0 1000 0 1000 empty_world).
  vm_compute. discriminate.
Defined.

End Isolation.

(** * What only reads *)

Module ReadOnly.

Import Selector.

(** A computation that leaves the server as it is and calls the repository
    for reading only. *)
Definition reads {A} (c : M A) : Prop :=
  forall w,
    server (snd (c w)) = server w /\
    exists cs,
      calls (snd (c w)) = (calls w ++ cs)%list /\
      Forall (fun x => is_write x = false) cs.

Lemma reads_ret {A} (a : A) : reads (ret a).
Proof. intros w. split; [reflexivity|]. exists []. now rewrite app_nil_r. Qed.

Lemma reads_fail {A} err : reads (@fail A err).
Proof. intros w. split; [reflexivity|]. exists []. now rewrite app_nil_r. Qed.

Lemma reads_panic {A} msg : reads (@panic A msg).
Proof. intros w. split; [reflexivity|]. exists []. now rewrite app_nil_r. Qed.

Lemma reads_log c : is_write c = false -> reads (log c).
Proof. intros Hc w. split; [reflexivity|]. exists [c]. split; auto. Qed.

Lemma reads_bind {A B} (c : M A) (k : A -> M B) :
  reads c -> (forall a, reads (k a)) -> reads (bind c k).
Proof.
  intros Hc Hk w. unfold bind. destruct (Hc w) as (Hs & cs & Hcs & Hr).
  destruct (c w) as [[a|e|m] w1]; cbn [snd] in *; try (split; eauto; fail).
  destruct (Hk a w1) as (Hs' & cs' & Hcs' & Hr').
  split; [congruence|]. exists (cs ++ cs')%list. split.
  - rewrite Hcs', Hcs. now rewrite <- app_assoc.
  - apply Forall_app. auto.
Qed.

Lemma reads_wrap {A} prefix (c : M A) : reads c -> reads (wrap prefix c).
Proof.
  intros Hc w. unfold wrap. specialize (Hc w).
  destruct (c w) as [[a|e|m] w1]; exact Hc.
Qed.

Lemma reads_attempt {A} (c : M A) : reads c -> reads (attempt c).
Proof.
  intros Hc w. unfold attempt. specialize (Hc w).
  destruct (c w) as [[a|e|m] w1]; exact Hc.
Qed.

Lemma reads_divide a b : reads (divide a b).
Proof. unfold divide. destruct (b =? 0); [apply reads_panic | apply reads_ret]. Qed.

Lemma reads_modulo a b : reads (modulo a b).
Proof. unfold modulo. destruct (b =? 0); [apply reads_panic | apply reads_ret]. Qed.

Lemma reads_Get key : reads (RedisRepository.Get key).
Proof.
  intros w. unfold RedisRepository.Get, command, Redis.GET.
  destruct w as [[f m] cs]. cbn.
  destruct f; [|destruct (m !! key)]; cbn;
    (split; [reflexivity | exists []; now rewrite app_nil_r]).
Qed.

Lemma reads_Exists key : reads (RedisRepository.Exists key).
Proof.
  intros w. unfold RedisRepository.Exists, command, Redis.EXISTS.
  destruct w as [[f m] cs]. cbn.
  destruct f; [|destruct (m !! key)]; cbn;
    (split; [reflexivity | exists []; now rewrite app_nil_r]).
Qed.

Ltac reads_step :=
  lazymatch goal with
  | |- reads (bind _ _) => apply reads_bind; [|intros ?]
  | |- reads (wrap _ _) => apply reads_wrap
  | |- reads (attempt _) => apply reads_attempt
  | |- reads (ret _) => apply reads_ret
  | |- reads (fail _) => apply reads_fail
  | |- reads (panic _) => apply reads_panic
  | |- reads (log _) => apply reads_log; reflexivity
  | |- reads (divide _ _) => apply reads_divide
  | |- reads (modulo _ _) => apply reads_modulo
  | |- reads (RedisRepository.Get _) => apply reads_Get
  | |- reads (RedisRepository.Exists _) => apply reads_Exists
  | |- reads (if ?b then _ else _) => destruct b
  | |- reads (match ?x with _ => _ end) => destruct x
  end.

Lemma reads_Check key : reads (RateLimitRepository.Check key).
Proof. unfold RateLimitRepository.Check. repeat reads_step. Qed.

Lemma reads_GetState key : reads (RateLimitRepository.GetState key).
Proof. unfold RateLimitRepository.GetState. repeat reads_step. Qed.

Section WithJSON.
Context `{JSON TokenBucket.tokenBucketState} `{JSON LeakyBucket.leakyBucketState}.

Lemma reads_token_getBucketState s key t0 :
  reads (TokenBucket.getBucketState s key t0).
Proof.
  unfold TokenBucket.getBucketState.
  apply reads_bind; [apply reads_attempt, reads_GetState|].
  intros r. repeat reads_step.
Qed.

Lemma reads_leaky_getBucketState s key t0 :
  reads (LeakyBucket.getBucketState s key t0).
Proof.
  unfold LeakyBucket.getBucketState.
  apply reads_bind; [apply reads_attempt, reads_GetState|].
  intros r. repeat reads_step.
Qed.

Lemma reads_Info (l : Limiter) identifier t0 now :
  reads (Middleware.GetRateLimitInfo l identifier t0 now).
Proof.
  destruct l; cbn [Middleware.GetRateLimitInfo Limiter_store
                     Middleware.FixedWindow_store Middleware.SlidingWindow_store
                     Middleware.TokenBucket_store Middleware.LeakyBucket_store].
  - unfold FixedWindow.GetRateLimitInfo.
    apply reads_bind; [apply reads_divide|]. intros n.
    apply reads_bind; [apply reads_Check|]. intros c. apply reads_ret.
  - unfold SlidingWindow.GetRateLimitInfo.
    apply reads_bind; [apply reads_divide|]. intros n.
    apply reads_bind; [apply reads_Check|]. intros c.
    apply reads_bind; [apply reads_Check|]. intros p.
    apply reads_bind; [apply reads_modulo|]. intros r. apply reads_ret.
  - unfold TokenBucket.GetRateLimitInfo.
    apply reads_bind; [apply reads_token_getBucketState|]. intros st.
    apply reads_ret.
  - unfold LeakyBucket.GetRateLimitInfo.
    apply reads_bind; [apply reads_leaky_getBucketState|]. intros st.
    apply reads_ret.
Qed.

(** The information about a limit only reads.  For each of the four
    strategies and any state of the server, [GetRateLimitInfo] leaves the
    server as it is: no key is created, changed or deleted and no
    time-to-live is touched; the repository calls it makes are [Check] and
    [GetState] only. *)
Theorem info_only_reads (l : Limiter) identifier t0 now w :
  server (snd (Middleware.GetRateLimitInfo l identifier t0 now w)) = server w /\
  exists cs,
    calls (snd (Middleware.GetRateLimitInfo l identifier t0 now w))
      = (calls w ++ cs)%list /\
    Forall (fun c => exists k, c = CallCheck k \/ c = CallGetState k) cs.
Proof.
  destruct (reads_Info l identifier t0 now w) as (Hs & cs & Hcs & Hr).
  split; [exact Hs|]. exists cs. split; [exact Hcs|].
  eapply Forall_impl; [exact Hr|].
  intros [k d|k|k|k v d|k]; cbn; try discriminate; eauto.
Qed.

(** The handler of a denied request never lets the request through and
    never changes the server.  With an error from [Allow] it answers 500; else
    it asks for the information about the limit and answers 429 with the
    three headers made from it, or 500 when the information cannot be
    had. *)
Theorem deny_handler_answers (l : Limiter) identifier err t0 now w :
  server (snd (Middleware.DenyHandler l identifier err t0 now w)) = server w /\
  match err, fst (Middleware.GetRateLimitInfo l identifier t0 now w) with
  | Some _, _ =>
      fst (Middleware.DenyHandler l identifier err t0 now w)
      = Ret (Middleware.JSONResponse 500
               [("error", "Internal rate limit error")] [])
  | None, Ret info =>
      fst (Middleware.DenyHandler l identifier err t0 now w)
      = Ret (Middleware.JSONResponse 429 [("error", "Rate limit exceeded")]
               [("X-RateLimit-Limit", Str.Itoa (Limit info));
                ("X-RateLimit-Remaining", Str.Itoa (Remaining info));
                ("X-RateLimit-Reset", Str.Itoa (Reset info))])
  | None, Fail _ =>
      fst (Middleware.DenyHandler l identifier err t0 now w)
      = Ret (Middleware.JSONResponse 500
               [("error", "Failed to get rate limit info")] [])
  | None, Panic msg =>
      fst (Middleware.DenyHandler l identifier err t0 now w) = Panic msg
  end.
Proof.
  unfold Middleware.DenyHandler. destruct err as [e|].
  - split; reflexivity.
  - unfold bind, attempt.
    pose proof (reads_Info l identifier t0 now w) as (Hs & _).
    destruct (Middleware.GetRateLimitInfo l identifier t0 now w)
      as [[info|e|m] w1]; cbn [fst snd] in *; split; auto.
Qed.

End WithJSON.

End ReadOnly.

(** * A server that cannot be reached *)

Module Faults.

Import Selector Run.

Section Down.
Variable w : world.
Variable msg : string.
Hypothesis Hdown : Redis.fault (server w) = Some msg.

Lemma IncrementPreserveTTL_down key d :
  RateLimitRepository.IncrementPreserveTTL key d w =
  (Fail ("failed to increment counter: " ++ msg),
   logged w (CallIncrementPreserveTTL key d)).
Proof.
  unfold RateLimitRepository.IncrementPreserveTTL, RedisRepository.Increment,
    bind, wrap, log, command, Redis.INCR. cbn [server calls]. now rewrite Hdown.
Qed.

Lemma Check_down key :
  RateLimitRepository.Check key w =
  (Fail ("failed to check if key exists: " ++ msg), logged w (CallCheck key)).
Proof.
  unfold RateLimitRepository.Check, RedisRepository.Exists, bind, wrap, log,
    command, Redis.EXISTS. cbn [server calls]. now rewrite Hdown.
Qed.

Lemma GetState_down key :
  RateLimitRepository.GetState key w =
  (Fail ("failed to get state: " ++ msg), logged w (CallGetState key)).
Proof.
  unfold RateLimitRepository.GetState, RedisRepository.Get, bind, wrap, log,
    command, Redis.GET. cbn [server calls]. now rewrite Hdown.
Qed.

Lemma SetState_down key v d :
  RateLimitRepository.SetState key v d w =
  (Fail ("failed to set state: " ++ msg), logged w (CallSetState key v d)).
Proof.
  unfold RateLimitRepository.SetState, RedisRepository.Set_, bind, wrap, log,
    command, Redis.SET. cbn [server calls]. now rewrite Hdown.
Qed.

End Down.

Section WithJSON.
Context `{JSON TokenBucket.tokenBucketState} `{JSON LeakyBucket.leakyBucketState}.

(** No strategy allows a request when the server cannot be reached.
    Whatever the error of the server says, [Allow] of each of the four
    strategies returns an error, a denial or stops on the zero divisor, never
    a permit, and the server is left as it was. *)
Theorem no_permit_without_the_server (l : Limiter) identifier t0 now w msg :
  Redis.fault (server w) = Some msg ->
  fst (Middleware.Allow l identifier t0 now w) <> Ret true /\
  server (snd (Middleware.Allow l identifier t0 now w)) = server w.
Proof.
  intros Hdown.
  destruct l; cbn [Middleware.Allow Limiter_store Middleware.FixedWindow_store
                     Middleware.SlidingWindow_store Middleware.TokenBucket_store
                     Middleware.LeakyBucket_store].
  - unfold FixedWindow.Allow, bind, wrap, divide.
    destruct (_ =? 0); [cbn; split; [discriminate | reflexivity]|].
    cbn [ret]. rewrite (IncrementPreserveTTL_down _ msg) by exact Hdown.
    cbn. split; [discriminate | reflexivity].
  - unfold SlidingWindow.Allow, bind, divide.
    destruct (_ =? 0); [cbn; split; [discriminate | reflexivity]|].
    cbn [ret]. rewrite (Check_down _ msg) by exact Hdown.
    cbn. split; [discriminate | reflexivity].
  - unfold TokenBucket.Allow, TokenBucket.getBucketState, bind, wrap, attempt.
    rewrite (GetState_down _ msg) by exact Hdown.
    destruct (Str.Contains _ _); [|cbn; split; [discriminate | reflexivity]].
    cbn [ret]. destruct (F64.ltb _ _); [cbn; split; [discriminate | reflexivity]|].
    unfold TokenBucket.saveBucketState. destruct (TokenBucket.Marshal _);
      [|cbn; split; [discriminate | reflexivity]].
    rewrite (SetState_down _ msg) by exact Hdown.
    cbn. split; [discriminate | reflexivity].
  - unfold LeakyBucket.Allow, LeakyBucket.getBucketState, bind, attempt.
    rewrite (GetState_down _ msg) by exact Hdown.
    destruct (Str.Contains _ _); [|cbn; split; [discriminate | reflexivity]].
    cbn [ret]. unfold LeakyBucket.saveBucketState, LeakyBucket.Marshal.
    destruct (_ <=? _); rewrite (SetState_down _ msg) by exact Hdown;
      cbn; split; (discriminate || reflexivity).
Qed.

End WithJSON.

(** A server that refuses its connections. *)
Definition unreachable : world :=
  {| server := {| Redis.fault := Some "dial tcp: connection refused";
                  Redis.kv := ∅ |};
     calls := [] |}.

(** The theorem at the fixed window of the user routes. *)
Lemma no_permit_without_the_server_witness :
  fst (FixedWindow.Allow (FixedWindow.NewFixedWindowStore 3 60000000000)
         "ip:10.0.0.1" 0 unreachable) <> Ret true.
Proof.
  apply (@no_permit_without_the_server Codec.token_json Codec.leaky_json
           (FixedLimiter (FixedWindow.NewFixedWindowStore 3 60000000000))
           "ip:10.0.0.1" 0 0 unreachable "dial tcp: connection refused").
  reflexivity.
Defined.

End Faults.

(** * A bucket that is not found *)

Module NotFound.

Import Run.

(** A text in front that lacks the first character of [sub] does not change
    whether [sub] occurs. *)
Lemma Contains_skip c sub p m :
  StrFacts.has_char c p = false ->
  Str.Contains (p ++ m) (String c sub) = Str.Contains m (String c sub).
Proof.
  induction p as [|x p IH]; intros Hp; [reflexivity|].
  cbn [StrFacts.has_char] in Hp. apply orb_false_iff in Hp as [Hx Hp].
  change (String x p ++ m) with (String x (p ++ m)).
  cbn [Str.Contains String.prefix].
  destruct (Ascii.ascii_dec c x) as [->|_].
  - now rewrite Ascii.eqb_refl in Hx.
  - now apply IH.
Qed.

Section WithJSON.
Context {token_json : JSON TokenBucket.tokenBucketState}.
Context {leaky_json : JSON LeakyBucket.leakyBucketState}.

(** Whether a bucket is there is read off the text of the error.  When the
    server answers the read of a bucket with an error [msg], both buckets
    take the bucket as not stored, and go on with a fresh state, exactly when
    [msg] contains the words [not found]; any other error is returned, with
    the prefix of the repository. *)
Theorem absent_is_read_off_the_text identifier t0 w msg :
  Redis.fault (server w) = Some msg ->
  (forall s : TokenBucket.TokenBucketStore,
     fst (TokenBucket.getBucketState s (TokenBucketFacts.key s identifier) t0 w)
     = if Str.Contains msg "not found"
       then Ret (TokenBucketFacts.fresh s t0)
       else Fail ("failed to get state: " ++ msg)) /\
  (forall s : LeakyBucket.LeakyBucketStore,
     fst (LeakyBucket.getBucketState s (LeakyBucketFacts.key s identifier) t0 w)
     = if Str.Contains msg "not found"
       then Ret (LeakyBucketFacts.fresh t0)
       else Fail ("failed to get state: " ++ msg)) /\
  (forall s : TokenBucket.TokenBucketStore,
     Str.Contains msg "not found" = true ->
     fst (TokenBucket.GetRateLimitInfo s identifier t0 t0 w)
     = fst (TokenBucket.GetRateLimitInfo s identifier t0 t0 empty_world)).
Proof.
  intros Hdown.
  assert (E : Str.Contains ("failed to get state: " ++ msg) "not found"
              = Str.Contains msg "not found")
    by (apply Contains_skip; reflexivity).
  split; [|split].
  - intros s. unfold TokenBucket.getBucketState, bind, attempt.
    rewrite (Faults.GetState_down w msg Hdown), E.
    now destruct (Str.Contains msg "not found").
  - intros s. unfold LeakyBucket.getBucketState, bind, attempt.
    rewrite (Faults.GetState_down w msg Hdown), E.
    now destruct (Str.Contains msg "not found").
  - intros s Hc. unfold TokenBucket.GetRateLimitInfo, bind.
    rewrite (TokenBucketFacts.token_getBucketState_absent s _ t0 empty_world)
      by reflexivity.
    unfold TokenBucket.getBucketState, bind, attempt.
    rewrite (Faults.GetState_down w msg Hdown), E, Hc.
    reflexivity.
Qed.

End WithJSON.

(** The theorem at a server whose name cannot be resolved. *)
Lemma absent_is_read_off_the_text_witness :
  fst (@LeakyBucket.getBucketState Codec.leaky_json
         (LeakyBucket.NewLeakyBucketStore 5 (F64.of_int 1) 3600000000000)
         "rate_limit_leaky_bucket:ip:10.0.0.1" 7
         {| server := {| Redis.fault := Some "lookup redis: host not found";
                         Redis.kv := ∅ |};
            calls := [] |})
  = Ret {| LeakyBucket.Water := 0; LeakyBucket.LastLeak := 7 |}.
Proof.
  apply (proj1 (proj2
           (@absent_is_read_off_the_text Codec.token_json Codec.leaky_json
              "ip:10.0.0.1" 7
              {| server := {| Redis.fault := Some "lookup redis: host not found";
                              Redis.kv := ∅ |};
                 calls := [] |}
              "lookup redis: host not found" eq_refl))
           (LeakyBucket.NewLeakyBucketStore 5 (F64.of_int 1) 3600000000000)).
Defined.

End NotFound.

(** * The counters of the repository *)

Module Counters.

Import Run.

Lemma string2ll_range v n : Redis.string2ll v = Some n -> GoInt.in_int64 n.
Proof.
  unfold Redis.string2ll.
  destruct (NilZero.int_of_string v) as [d|]; [|discriminate].
  destruct (GoInt.in_int64b (Z.of_int d)) eqn:E; [|discriminate].
  cbn [andb]. destruct (String.eqb _ v); [|discriminate].
  intros [= <-]. unfold GoInt.in_int64b in E.
  apply andb_true_iff in E as [E1 E2].
  apply Z.leb_le in E1. apply Z.leb_le in E2. split; assumption.
Qed.

(** The time-to-live of a counter after an increment to [c]: set on the
    increment to 1, when the expiration is positive, to the whole seconds
    [EXPIRE] receives, and kept otherwise. *)
Definition ttl_after_increment (c : Z) (d : Duration.t)
    (t : option Duration.t) : option Duration.t :=
  if (c =? 1) && (0 <? d)
  then Some (Redis.formatSec d * Duration.Second) else t.

(** [IncrementPreserveTTL] on a server that can be reached. *)
Lemma IncrementPreserveTTL_reachable key d w :
  Redis.fault (server w) = None ->
  RateLimitRepository.IncrementPreserveTTL key d w =
  match Redis.kv (server w) !! key with
  | None =>
      (Ret 1,
       stored (logged w (CallIncrementPreserveTTL key d)) key
         (Redis.Entry "1" (ttl_after_increment 1 d None)))
  | Some e =>
      match Redis.string2ll (Redis.value e) with
      | None =>
          (Fail ("failed to increment counter: "
                 ++ "ERR value is not an integer or out of range"),
           logged w (CallIncrementPreserveTTL key d))
      | Some n =>
          if n =? GoInt.max_int64
          then (Fail ("failed to increment counter: "
                      ++ "ERR increment or decrement would overflow"),
                logged w (CallIncrementPreserveTTL key d))
          else (Ret (n + 1),
                stored (logged w (CallIncrementPreserveTTL key d)) key
                  (Redis.Entry (Str.Itoa (n + 1))
                     (ttl_after_increment (n + 1) d (Redis.ttl e))))
      end
  end.
Proof.
  intros Hup.
  pose proof (Wire.formatSec_pos d) as Hs.
  unfold RateLimitRepository.IncrementPreserveTTL, RedisRepository.Increment,
    RedisRepository.Expire, bind, wrap, log, command, Redis.INCR, Redis.EXPIRE,
    ret, stored, logged, ttl_after_increment.
  cbn [server calls]. rewrite Hup.
  destruct (Redis.kv (server w) !! key) as [e|] eqn:Ek.
  - destruct (Redis.string2ll (Redis.value e)) as [n|]; [|reflexivity].
    destruct (n =? GoInt.max_int64); [reflexivity|].
    cbn [result_of]. destruct ((n + 1 =? 1) && (0 <? d)) eqn:Eb; [|reflexivity].
    apply andb_true_iff in Eb as [_ Ed]. rewrite Ed in Hs |- *.
    cbn [server calls Redis.set_kv Redis.fault Redis.kv].
    rewrite ?Hup, lookup_insert_eq, ?Hs. cbn [result_of Redis.value].
    now rewrite insert_insert_eq.
  - cbn [result_of Z.eqb Pos.eqb andb]. destruct (0 <? d) eqn:Ed; [|reflexivity].
    cbn [server calls Redis.set_kv Redis.fault Redis.kv].
    rewrite ?Hup, lookup_insert_eq, ?Hs. cbn [result_of Redis.value].
    now rewrite insert_insert_eq.
Qed.

Lemma Check_stored key n t w :
  Redis.fault (server w) = None -> GoInt.in_int64 n ->
  RateLimitRepository.Check key (stored w key (Redis.Entry (Str.Itoa n) t)) =
  (Ret n, logged (stored w key (Redis.Entry (Str.Itoa n) t)) (CallCheck key)).
Proof.
  intros Hup Hn.
  apply (Check_present (stored w key _) Hup key n t Hn).
  cbn. apply lookup_insert_eq.
Qed.

(** A count that [IncrementPreserveTTL] returns is the count that [Check]
    reads next, whatever the server held and whatever the expiration. *)
Theorem check_reads_the_increment key d w c :
  fst (RateLimitRepository.IncrementPreserveTTL key d w) = Ret c ->
  fst (RateLimitRepository.Check key
         (snd (RateLimitRepository.IncrementPreserveTTL key d w))) = Ret c.
Proof.
  destruct (Redis.fault (server w)) as [msg|] eqn:Hf.
  { rewrite (Faults.IncrementPreserveTTL_down w msg Hf). discriminate. }
  rewrite (IncrementPreserveTTL_reachable key d w Hf).
  destruct (Redis.kv (server w) !! key) as [e|] eqn:Ek.
  - destruct (Redis.string2ll (Redis.value e)) as [n|] eqn:En; [|discriminate].
    pose proof (string2ll_range _ _ En) as [Hlo Hhi].
    destruct (n =? GoInt.max_int64) eqn:Emax; [discriminate|].
    apply Z.eqb_neq in Emax. cbn [fst snd]. intros [= <-].
    rewrite Check_stored; auto. split; lia.
  - cbn [fst snd]. intros [= <-].
    now rewrite (Check_stored key 1).
Qed.

(** The theorem at the first increment of a key. *)
Lemma check_reads_the_increment_witness :
  fst (RateLimitRepository.Check "k"
         (snd (RateLimitRepository.IncrementPreserveTTL "k" 60 empty_world)))
  = Ret 1.
Proof.
  apply (check_reads_the_increment "k" 60 empty_world 1). reflexivity.
Defined.

(** Increments of one key, one after the other, each with its own
    expiration. *)
Fixpoint increments (key : string) (ds : list Duration.t) (w : world)
  : list (outcome Z) * world :=
  match ds with
  | [] => ([], w)
  | d :: rest =>
      let '(o, w1) := RateLimitRepository.IncrementPreserveTTL key d w in
      let '(os, w2) := increments key rest w1 in
      (o :: os, w2)
  end.

Lemma increments_from key ds :
  forall (i : nat) t w,
    (0 < i)%nat ->
    Z.of_nat (i + length ds) <= GoInt.max_int64 ->
    Redis.fault (server w) = None ->
    Redis.kv (server w) !! key = Some (Redis.Entry (Str.Itoa (Z.of_nat i)) t) ->
    fst (increments key ds w)
      = map (fun j => Ret (Z.of_nat j)) (seq (S i) (length ds)) /\
    Redis.fault (server (snd (increments key ds w))) = None /\
    Redis.kv (server (snd (increments key ds w))) !! key
      = Some (Redis.Entry (Str.Itoa (Z.of_nat (i + length ds))) t).
Proof.
  induction ds as [|d ds IH]; intros i t w Hi Hmax Hup Hk.
  - cbn. rewrite Nat.add_0_r. auto.
  - cbn [increments length] in *.
    rewrite (IncrementPreserveTTL_reachable key d w Hup), Hk.
    cbn [Redis.value Redis.ttl].
    rewrite StrFacts.string2ll_Itoa
      by (unfold GoInt.in_int64, GoInt.min_int64, GoInt.max_int64 in *; lia).
    replace (Z.of_nat i =? GoInt.max_int64) with false
      by (symmetry; apply Z.eqb_neq; lia).
    unfold ttl_after_increment.
    replace (Z.of_nat i + 1 =? 1) with false by (symmetry; apply Z.eqb_neq; lia).
    cbn [andb]. set (w1 := stored _ _ _).
    specialize (IH (S i) t w1 ltac:(lia) ltac:(lia) Hup).
    destruct (increments key ds w1) as [os w2]. cbn [fst snd] in *.
    destruct IH as (E1 & E2 & E3).
    { unfold w1, stored, logged. cbn. rewrite lookup_insert_eq.
      do 3 f_equal. lia. }
    repeat split; auto.
    + cbn [seq map]. rewrite E1. do 2 f_equal. lia.
    + rewrite E3. do 3 f_equal. lia.
Qed.

(** The expiration of a counter is the one of its first increment.  On a
    server that can be reached, increments of a key that is not there count
    1, 2, 3, ...; the first sets the time-to-live to its expiration in whole
    seconds (as [EXPIRE] receives it: rounded down, a positive expiration
    under a second counting as one second), when that is positive, and the
    later ones leave it there, whatever expirations they are called with. *)
Theorem first_expiration_stays key d ds w :
  Redis.fault (server w) = None ->
  Redis.kv (server w) !! key = None ->
  Z.of_nat (length ds) < GoInt.max_int64 ->
  fst (increments key (d :: ds) w)
    = map (fun j => Ret (Z.of_nat j)) (seq 1 (S (length ds))) /\
  Redis.kv (server (snd (increments key (d :: ds) w))) !! key
    = Some (Redis.Entry (Str.Itoa (Z.of_nat (S (length ds))))
              (if 0 <? d then Some (Redis.formatSec d * Duration.Second)
               else None)).
Proof.
  intros Hup Hk Hlen. cbn [increments].
  rewrite (IncrementPreserveTTL_reachable key d w Hup), Hk.
  set (w1 := stored _ _ _).
  pose proof (increments_from key ds 1%nat (ttl_after_increment 1 d None) w1
                ltac:(lia) ltac:(lia) Hup) as IH.
  destruct (increments key ds w1) as [os w2]. cbn [fst snd] in *.
  destruct IH as (E1 & E2 & E3).
  { unfold w1, stored, logged. cbn. now rewrite lookup_insert_eq. }
  split.
  - cbn [seq map]. now rewrite E1.
  - rewrite E3. reflexivity.
Qed.

(** The theorem at three increments with the expirations 1.5 s, 60 s and 0:
    the counter is left with one second to live. *)
Lemma first_expiration_stays_witness :
  Redis.kv (server (snd (increments "k" [1500000000; 60000000000; 0]
                           empty_world))) !! "k"
  = Some (Redis.Entry "3" (Some 1000000000)).
Proof.
  apply (proj2 (first_expiration_stays "k" 1500000000 [60000000000; 0]
                  empty_world eq_refl eq_refl eq_refl)).
Defined.

(** [Increment] on a server that can be reached. *)
Lemma Increment_reachable key d w :
  Redis.fault (server w) = None ->
  RateLimitRepository.Increment key d w =
  match Redis.kv (server w) !! key with
  | None => (Ret 1, stored w key (Redis.Entry "1" (ttl_after_set w key d)))
  | Some e =>
      match Str.Atoi (Redis.value e) with
      | None =>
          (Fail ("invalid rate limit counter value: strconv.Atoi: parsing "
                 ++ Redis.value e), w)
      | Some n =>
          (Ret (GoInt.add n 1),
           stored w key
             (Redis.Entry (Str.Itoa (GoInt.add n 1)) (ttl_after_set w key d)))
      end
  end.
Proof.
  intros Hup. destruct w as [[f m] cs]. cbn in Hup. subst f.
  unfold RateLimitRepository.Increment, RedisRepository.Exists,
    RedisRepository.Get, RedisRepository.Set_, bind, wrap, command,
    Redis.EXISTS, Redis.GET, Redis.SET, ret, fail, stored, ttl_after_set.
  cbn [server calls Redis.fault Redis.kv].
  destruct (m !! key) as [e|] eqn:Ek; cbn [result_of Z.ltb Z.compare negb].
  - cbn [server calls Redis.fault Redis.kv fst snd]. rewrite ?Ek.
    cbn [result_of].
    destruct (Str.Atoi (Redis.value e)) as [n|]; [|reflexivity].
    cbn [server calls Redis.fault Redis.kv result_of]. now rewrite ?Ek.
  - cbn [server calls Redis.fault Redis.kv result_of]. now rewrite ?Ek.
Qed.

(** Two ways to count.  For a counter at [n] with a time-to-live [t], on a
    server that can be reached, [IncrementPreserveTTL] and [Increment] both
    return [n + 1] and store it; the first keeps [t], the second replaces it
    by the expiration of the call as [SET] receives it: in whole
    milliseconds, or in whole seconds when it is a number of whole
    seconds. *)
Theorem increment_keeps_or_renews key d n t w :
  Redis.fault (server w) = None ->
  Redis.kv (server w) !! key = Some (Redis.Entry (Str.Itoa n) t) ->
  0 < n < GoInt.max_int64 ->
  0 < d ->
  (fst (RateLimitRepository.IncrementPreserveTTL key d w) = Ret (n + 1) /\
   Redis.kv (server (snd (RateLimitRepository.IncrementPreserveTTL key d w)))
     !! key = Some (Redis.Entry (Str.Itoa (n + 1)) t)) /\
  (fst (RateLimitRepository.Increment key d w) = Ret (n + 1) /\
   Redis.kv (server (snd (RateLimitRepository.Increment key d w)))
     !! key = Some (Redis.Entry (Str.Itoa (n + 1)) (Some (Redis.set_ttl d)))).
Proof.
  intros Hup Hk Hn Hd.
  assert (Hr : GoInt.in_int64 n)
    by (unfold GoInt.in_int64, GoInt.min_int64, GoInt.max_int64 in *; lia).
  split.
  - rewrite (IncrementPreserveTTL_present w Hup key d n t Hn Hk).
    cbn. now rewrite lookup_insert_eq.
  - rewrite (Increment_reachable key d w Hup), Hk. cbn [Redis.value].
    rewrite (StrFacts.Atoi_Itoa n Hr). unfold GoInt.add.
    rewrite GoIntFacts.wrap64_id
      by (unfold GoInt.in_int64, GoInt.min_int64, GoInt.max_int64 in *; lia).
    cbn [fst snd stored server Redis.set_kv Redis.kv].
    rewrite lookup_insert_eq. unfold ttl_after_set.
    replace (0 <? d) with true by (symmetry; apply Z.ltb_lt; lia).
    auto.
Qed.

(** The theorem at a counter at 7 with five seconds to live and an
    expiration of 1.5007 s: [Increment] leaves it with 1.5 s. *)
Lemma increment_keeps_or_renews_witness :
  Redis.kv (server (snd (RateLimitRepository.Increment "k" 1500700000
                           (stored empty_world "k"
                              (Redis.Entry "7" (Some 5000000000))))))
    !! "k" = Some (Redis.Entry "8" (Some 1500000000)).
Proof.
  apply (proj2 (proj2 (increment_keeps_or_renews "k" 1500700000 7
                         (Some 5000000000)
                         (stored empty_world "k"
                            (Redis.Entry "7" (Some 5000000000)))
                         eq_refl eq_refl (conj eq_refl eq_refl) eq_refl))).
Defined.

Lemma Check_garbled key e w :
  Redis.fault (server w) = None ->
  Redis.kv (server w) !! key = Some e ->
  Str.Atoi (Redis.value e) = None ->
  RateLimitRepository.Check key w =
  (Fail ("invalid rate limit counter value: strconv.Atoi: parsing "
         ++ Redis.value e), logged w (CallCheck key)).
Proof.
  intros Hup Hk Ha.
  unfold RateLimitRepository.Check, RedisRepository.Exists, RedisRepository.Get,
    bind, wrap, log, command, Redis.EXISTS, Redis.GET. cbn [server calls].
  rewrite Hup, Hk. cbn. rewrite Hup, Hk. cbn. now rewrite Ha.
Qed.

(** A counter that is no number is an error.  On a server that can be
    reached, with a window of a second or more: when the counter of the
    current window holds a text that [INCR] does not take for a number, the
    fixed window's [Allow] returns an error; when it holds a text that
    [Atoi] does not take, the sliding window's [Allow] and the information of
    both strategies return an error.  In each case no decision is made and
    the server is left as it is. *)
Theorem garbled_counter_is_an_error identifier now w e :
  Redis.fault (server w) = None ->
  (forall s : FixedWindow.FixedWindowStore,
     Duration.Second <= FixedWindow.windowSize s ->
     Redis.kv (server w)
       !! FixedWindowFacts.key s identifier (FixedWindowFacts.windowNum s now)
       = Some e ->
     (Redis.string2ll (Redis.value e) = None ->
      exists err,
        FixedWindow.Allow s identifier now w =
        (Fail err,
         logged w (CallIncrementPreserveTTL
                     (FixedWindowFacts.key s identifier
                        (FixedWindowFacts.windowNum s now))
                     (FixedWindow.windowSize s)))) /\
     (Str.Atoi (Redis.value e) = None ->
      exists err,
        FixedWindow.GetRateLimitInfo s identifier now w =
        (Fail err,
         logged w (CallCheck
                     (FixedWindowFacts.key s identifier
                        (FixedWindowFacts.windowNum s now)))))) /\
  (forall s : SlidingWindow.SlidingWindowStore,
     Duration.Second <= SlidingWindow.windowSize s ->
     Redis.kv (server w) !! SlidingWindowFacts.currentKey s identifier now
       = Some e ->
     Str.Atoi (Redis.value e) = None ->
     exists err,
       SlidingWindow.Allow s identifier now w =
       (Fail err,
        logged w (CallCheck (SlidingWindowFacts.currentKey s identifier now))) /\
       SlidingWindow.GetRateLimitInfo s identifier now w =
       (Fail err,
        logged w (CallCheck (SlidingWindowFacts.currentKey s identifier now)))).
Proof.
  intros Hup. split.
  - intros s Hw Hk. split.
    + intros Hn. eexists.
      unfold FixedWindow.Allow, bind.
      rewrite (FixedWindowFacts.divide_window s Hw).
      unfold wrap. fold (FixedWindowFacts.key s identifier
                           (FixedWindowFacts.windowNum s now)).
      rewrite (IncrementPreserveTTL_reachable _ _ w Hup), Hk, Hn. reflexivity.
    + intros Ha. eexists.
      unfold FixedWindow.GetRateLimitInfo, bind.
      rewrite (FixedWindowFacts.divide_window s Hw).
      fold (FixedWindowFacts.key s identifier (FixedWindowFacts.windowNum s now)).
      rewrite (Check_garbled _ e w Hup Hk Ha). reflexivity.
  - intros s Hw Hk Ha. eexists.
    pose proof (F64Facts.Seconds_whole (SlidingWindow.windowSize s) Hw) as Hs.
    apply Z.eqb_neq in Hs.
    unfold SlidingWindow.Allow, SlidingWindow.GetRateLimitInfo, bind, divide.
    rewrite Hs. cbn [ret].
    fold (SlidingWindowFacts.secs s).
    fold (SlidingWindowFacts.currentWindow s now).
    fold (SlidingWindowFacts.currentKey s identifier now).
    rewrite (Check_garbled _ e w Hup Hk Ha). split; reflexivity.
Qed.

(** The theorem at a counter that holds a word. *)
Lemma garbled_counter_is_an_error_witness :
  exists err,
    fst (SlidingWindow.Allow (SlidingWindow.NewSlidingWindowStore 10 60000000000)
           "ip:10.0.0.1" 0
           (stored empty_world "rate_limit_sliding_window:ip:10.0.0.1:0"
              (Redis.Entry "many" None)))
    = Fail err.
Proof.
  destruct (proj2 (garbled_counter_is_an_error "ip:10.0.0.1" 0
              (stored empty_world "rate_limit_sliding_window:ip:10.0.0.1:0"
                 (Redis.Entry "many" None))
              (Redis.Entry "many" None) eq_refl)
             (SlidingWindow.NewSlidingWindowStore 10 60000000000))
    as (err & Ha & _).
  - vm_compute. discriminate.
  - reflexivity.
  - reflexivity.
  - exists err. now rewrite Ha.
Defined.

(** [Reset] starts a counter or a bucket anew.  On a server that can be
    reached, [Reset] succeeds whether the key is there or not, removes that
    key and no other, and after it [Check] reads 0, the next increment
    returns 1, and both buckets load their fresh state. *)
Theorem reset_starts_anew key w :
  Redis.fault (server w) = None ->
  fst (RateLimitRepository.Reset key w) = Ret tt /\
  Redis.kv (server (snd (RateLimitRepository.Reset key w)))
    = delete key (Redis.kv (server w)) /\
  fst (RateLimitRepository.Check key (snd (RateLimitRepository.Reset key w)))
    = Ret 0 /\
  (forall d,
     fst (RateLimitRepository.IncrementPreserveTTL key d
            (snd (RateLimitRepository.Reset key w))) = Ret 1) /\
  (forall (J : JSON TokenBucket.tokenBucketState) s t0,
     fst (TokenBucket.getBucketState s key t0
            (snd (RateLimitRepository.Reset key w)))
     = Ret {| TokenBucket.Tokens := F64.of_int (TokenBucket.burst s);
              TokenBucket.LastRefill := t0 |}) /\
  (forall (J : JSON LeakyBucket.leakyBucketState) s t0,
     fst (LeakyBucket.getBucketState s key t0
            (snd (RateLimitRepository.Reset key w)))
     = Ret {| LeakyBucket.Water := 0; LeakyBucket.LastLeak := t0 |}).
Proof.
  intros Hup.
  assert (E : RateLimitRepository.Reset key w =
              (Ret tt,
               {| server := Redis.set_kv (server w)
                              (delete key (Redis.kv (server w)));
                  calls := calls w ++ [CallReset key] |})).
  { unfold RateLimitRepository.Reset, RedisRepository.Delete, bind, log,
      command, Redis.DEL. cbn [server calls]. rewrite Hup.
    destruct (Redis.kv (server w) !! key) eqn:Ek; cbn [result_of]; [reflexivity|].
    do 2 f_equal. destruct (server w) as [f m]. cbn in *.
    unfold Redis.set_kv. cbn. now rewrite delete_id. }
  rewrite E. cbn [fst snd]. set (w1 := {| server := _ |}).
  assert (Hup1 : Redis.fault (server w1) = None) by exact Hup.
  assert (Hk1 : Redis.kv (server w1) !! key = None) by apply lookup_delete_eq.
  split; [reflexivity|]. split; [reflexivity|]. split; [|split; [|split]].
  - now rewrite (Check_absent w1 Hup1 key Hk1).
  - intros d. now rewrite (IncrementPreserveTTL_reachable key d w1 Hup1), Hk1.
  - intros J s t0.
    now rewrite (TokenBucketFacts.token_getBucketState_absent s key t0 w1 Hup1 Hk1).
  - intros J s t0.
    now rewrite (LeakyBucketFacts.leaky_getBucketState_absent s key t0 w1 Hup1 Hk1).
Qed.

(** The theorem at a counter at 7. *)
Lemma reset_starts_anew_witness :
  fst (RateLimitRepository.Check "k"
         (snd (RateLimitRepository.Reset "k"
                 (stored empty_world "k" (Redis.Entry "7" (Some 5))))))
  = Ret 0.
Proof.
  apply (reset_starts_anew "k" (stored empty_world "k" (Redis.Entry "7" (Some 5)))
           eq_refl).
Defined.

End Counters.

(** * The states of the buckets and what is reported of them *)

Module BucketStates.

Import Run.

Section WithJSON.
Context {token_json : JSON TokenBucket.tokenBucketState}.
Context {leaky_json : JSON LeakyBucket.leakyBucketState}.

(** A state that is saved is the state that is loaded.  On a server that
    can be reached, for a state that the encoding gives back when decoded
    (and, for the token bucket, with a finite number of tokens), saving
    succeeds, the key holds the encoded state with the time-to-live [SET]
    leaves for the expiration of the store (a positive expiration in whole
    milliseconds, or in whole seconds when it is a number of whole seconds;
    [-1] keeps the present one; any other leaves none), and loading returns
    the state. *)
Theorem saved_state_is_loaded key t0 w :
  Redis.fault (server w) = None ->
  (forall (s : TokenBucket.TokenBucketStore) st,
     decode (encode st) = Ok st ->
     F64.is_finite (TokenBucket.Tokens st) = true ->
     fst (TokenBucket.saveBucketState s key st w) = Ret tt /\
     Redis.kv (server (snd (TokenBucket.saveBucketState s key st w))) !! key
       = Some (Redis.Entry (encode st)
                 (ttl_after_set w key (TokenBucket.expiresIn s))) /\
     fst (TokenBucket.getBucketState s key t0
            (snd (TokenBucket.saveBucketState s key st w))) = Ret st) /\
  (forall (s : LeakyBucket.LeakyBucketStore) st,
     decode (encode st) = Ok st ->
     fst (LeakyBucket.saveBucketState s key st w) = Ret tt /\
     Redis.kv (server (snd (LeakyBucket.saveBucketState s key st w))) !! key
       = Some (Redis.Entry (encode st)
                 (ttl_after_set w key (LeakyBucket.expiresIn s))) /\
     fst (LeakyBucket.getBucketState s key t0
            (snd (LeakyBucket.saveBucketState s key st w))) = Ret st).
Proof.
  intros Hup. split.
  - intros s st Hd Hf. unfold TokenBucket.saveBucketState, TokenBucket.Marshal.
    rewrite Hf, (SetState_ok w Hup). cbn [fst snd].
    set (w1 := stored _ _ _).
    assert (Hk : Redis.kv (server w1) !! key
                 = Some (Redis.Entry (encode st)
                           (ttl_after_set w key (TokenBucket.expiresIn s))))
      by apply lookup_insert_eq.
    repeat split; auto.
    now rewrite (TokenBucketFacts.token_getBucketState_decoded s key t0 w1 _ st
                   Hup Hk Hd).
  - intros s st Hd. unfold LeakyBucket.saveBucketState, LeakyBucket.Marshal.
    rewrite (SetState_ok w Hup). cbn [fst snd].
    set (w1 := stored _ _ _).
    assert (Hk : Redis.kv (server w1) !! key
                 = Some (Redis.Entry (encode st)
                           (ttl_after_set w key (LeakyBucket.expiresIn s))))
      by apply lookup_insert_eq.
    repeat split; auto.
    now rewrite (LeakyBucketFacts.leaky_getBucketState_decoded s key t0 w1 _ st
                   Hup Hk Hd).
Qed.

(** What the leaky bucket allows and what it reports agree.  On a server
    that can be reached, for a capacity that is not negative and the state
    [st] that is loaded, the information gives the capacity as the limit
    and the room left, [capacity] less the water after the leak and not
    below 0, as the remaining requests; and [Allow] at the same time allows
    the request exactly when the remaining requests are not 0. *)
Theorem leaky_info_agrees_with_allow (s : LeakyBucket.LeakyBucketStore)
    identifier t0 now w st :
  Redis.fault (server w) = None ->
  0 <= LeakyBucket.capacity s <= GoInt.max_int64 ->
  fst (LeakyBucket.getBucketState s (LeakyBucketFacts.key s identifier) t0 w)
    = Ret st ->
  exists info,
    fst (LeakyBucket.GetRateLimitInfo s identifier t0 now w) = Ret info /\
    Limit info = LeakyBucket.capacity s /\
    Remaining info
      = Z.max 0 (LeakyBucket.capacity s - LeakyBucket.drained s st now) /\
    0 <= Remaining info <= LeakyBucket.capacity s /\
    (fst (LeakyBucket.Allow s identifier t0 now w) = Ret true <->
     0 < Remaining info).
Proof.
  intros Hup Hc Hl.
  assert (Hd : 0 <= LeakyBucket.drained s st now <= GoInt.max_int64).
  { unfold LeakyBucket.drained, GoInt.sub.
    pose proof (GoIntFacts.wrap64_range
                  (LeakyBucket.Water st - LeakyBucket.leaked s st now)) as [_ Hr].
    unfold GoInt.max_int64 in *. lia. }
  assert (Hsub : GoInt.sub (LeakyBucket.capacity s) (LeakyBucket.drained s st now)
                 = LeakyBucket.capacity s - LeakyBucket.drained s st now).
  { unfold GoInt.sub. apply GoIntFacts.wrap64_id.
    unfold GoInt.in_int64, GoInt.min_int64, GoInt.max_int64 in *. lia. }
  eexists. split; [|split; [|split; [|split]]].
  - unfold LeakyBucket.GetRateLimitInfo, bind.
    fold (LeakyBucketFacts.key s identifier).
    destruct (LeakyBucket.getBucketState s _ t0 w) as [o w1].
    cbn [fst] in Hl. subst o. reflexivity.
  - reflexivity.
  - cbn [Remaining]. rewrite Hsub.
    destruct (_ <? 0) eqn:E; [apply Z.ltb_lt in E | apply Z.ltb_ge in E]; lia.
  - cbn [Remaining]. rewrite Hsub.
    destruct (_ <? 0) eqn:E; [apply Z.ltb_lt in E | apply Z.ltb_ge in E]; lia.
  - cbn [Remaining]. rewrite Hsub.
    rewrite (LeakyBucketFacts.leaky_Allow_loaded s identifier t0 now w st Hl).
    unfold bind.
    destruct (LeakyBucket.capacity s <=? LeakyBucket.drained s st now) eqn:Ec.
    + apply Z.leb_le in Ec.
      rewrite LeakyBucketFacts.saveBucketState_ok by exact Hup. cbn.
      replace (_ <? 0) with (negb (0 <=? LeakyBucket.capacity s
                                        - LeakyBucket.drained s st now))
        by (rewrite Z.leb_antisym, negb_involutive; reflexivity).
      split; [discriminate|].
      destruct (0 <=? _) eqn:E; cbn [negb]; [apply Z.leb_le in E|]; lia.
    + apply Z.leb_gt in Ec.
      rewrite LeakyBucketFacts.saveBucketState_ok by exact Hup. cbn.
      split; [|reflexivity]. intros _.
      destruct (_ <? 0) eqn:E; [apply Z.ltb_lt in E|]; lia.
Qed.

End WithJSON.

Import Codec.

(** The theorem at a leaky bucket with three units of water and an
    expiration of 1.5007 s, which the server holds as 1.5 s. *)
Lemma saved_state_is_loaded_witness :
  Redis.kv (server (snd (LeakyBucket.saveBucketState
                           (LeakyBucket.NewLeakyBucketStore 5 (F64.of_int 1)
                              1500700000)
                           "k"
                           {| LeakyBucket.Water := 3; LeakyBucket.LastLeak := 7 |}
                           empty_world))) !! "k"
  = Some (Redis.Entry
            (encode {| LeakyBucket.Water := 3; LeakyBucket.LastLeak := 7 |})
            (Some 1500000000)) /\
  fst (LeakyBucket.getBucketState
         (LeakyBucket.NewLeakyBucketStore 5 (F64.of_int 1) 1500700000) "k" 0
         (snd (LeakyBucket.saveBucketState
                 (LeakyBucket.NewLeakyBucketStore 5 (F64.of_int 1) 1500700000)
                 "k" {| LeakyBucket.Water := 3; LeakyBucket.LastLeak := 7 |}
                 empty_world)))
  = Ret {| LeakyBucket.Water := 3; LeakyBucket.LastLeak := 7 |}.
Proof.
  apply (proj2 (proj2 (@saved_state_is_loaded token_json leaky_json "k" 0
                         empty_world eq_refl)
                  (LeakyBucket.NewLeakyBucketStore 5 (F64.of_int 1) 1500700000)
                  {| LeakyBucket.Water := 3; LeakyBucket.LastLeak := 7 |}
                  ltac:(vm_compute; reflexivity))).
Defined.

(** The theorem at the full bucket, three seconds after its last leak. *)
Lemma leaky_info_agrees_with_allow_witness :
  exists info,
    fst (LeakyBucket.GetRateLimitInfo
           (LeakyBucket.NewLeakyBucketStore 5 (F64.of_int 1) 3600000000000)
           "ip:10.0.0.1" 3000000000 3000000000 LeakyBucketFacts.full_bucket)
    = Ret info /\ Remaining info = 3.
Proof.
  destruct (leaky_info_agrees_with_allow
              (LeakyBucket.NewLeakyBucketStore 5 (F64.of_int 1) 3600000000000)
              "ip:10.0.0.1" 3000000000 3000000000 LeakyBucketFacts.full_bucket
              {| LeakyBucket.Water := 5; LeakyBucket.LastLeak := 0 |})
    as (info & Hi & _ & Hr & _).
  - reflexivity.
  - vm_compute. split; discriminate.
  - reflexivity.
  - exists info. split; [exact Hi|]. rewrite Hr. reflexivity.
Defined.

End BucketStates.

(** * The whole part of a float *)

Module Whole.
Import F64 F64Facts.

(** The integer part of a float that is not negative. *)
Lemma trunc_pos m e :
  0 <= trunc (S754_finite false m e) /\
  (e <= 0 -> trunc (S754_finite false m e) = Zpos m / 2 ^ (- e)).
Proof.
  rewrite trunc_floor. destruct (0 <=? e) eqn:E.
  - apply Z.leb_le in E. split.
    + apply Z.mul_nonneg_nonneg; [lia|]. apply Z.pow_nonneg. lia.
    + intros He. replace e with 0 by lia. cbn. now rewrite Z.div_1_r, Z.mul_1_r.
  - apply Z.leb_gt in E. split; [|reflexivity].
    apply Z.div_pos; [lia|]. apply Z.pow_pos_nonneg; lia.
Qed.

(** A canonical float is at least one exactly when its integer part is. *)
Lemma leb_one_trunc m e :
  valid (S754_finite false m e) ->
  leb one (S754_finite false m e) = true <-> 1 <= trunc (S754_finite false m e).
Proof.
  intros Hv. apply valid_finite in Hv as [Hc _].
  pose proof (canonical_digits m e Hc) as (He & Hd & Hn).
  pose proof (digits2_pos_bounds m) as [Lm Um].
  rewrite one_eq, leb_pos_iff, trunc_floor.
  destruct (0 <=? e) eqn:E.
  - apply Z.leb_le in E.
    assert (0 < 2 ^ e) by (apply Z.pow_pos_nonneg; lia).
    split; intros _; [nia | lia].
  - apply Z.leb_gt in E.
    assert (Hp : 0 < 2 ^ (- e)) by (apply Z.pow_pos_nonneg; lia).
    split.
    + intros H.
      assert (Hm : 2 ^ (- e) <= Zpos m).
      { destruct H as [H|[He' H]]; [|subst e; exact H].
        destruct Hn as [Hn|Hn]; [|lia]. rewrite Hn in Lm.
        apply Z.le_trans with (2 ^ 52); [|exact Lm].
        apply Z.pow_le_mono_r; lia. }
      apply Z.div_le_lower_bound; lia.
    + intros H.
      destruct (Z_lt_le_dec (-52) e) as [Hlt|Hge]; [left; exact Hlt|right].
      assert (Hm : 2 ^ (- e) <= Zpos m).
      { destruct (Z_lt_le_dec (Zpos m) (2 ^ (- e))) as [Hs|Hs]; [|exact Hs].
        rewrite Z.div_small in H by lia. lia. }
      assert (He52 : - e <= 52).
      { destruct (Z_lt_le_dec 52 (- e)) as [Hs|Hs]; [|exact Hs].
        assert (2 ^ 53 <= 2 ^ (- e)) by (apply Z.pow_le_mono_r; lia).
        assert (2 ^ Zpos (digits2_pos m) <= 2 ^ 53)
          by (apply Z.pow_le_mono_r; lia).
        lia. }
      assert (e = -52) by lia. subst e. split; [reflexivity|exact Hm].
Qed.

(** The float of a whole number below [2^53] is that number. *)
Lemma of_int_small p :
  Zpos p < 2 ^ 53 ->
  of_int (Zpos p) =
  S754_finite false (Z.to_pos (Zpos p * 2 ^ (53 - Zpos (digits2_pos p))))
    (Zpos (digits2_pos p) - 53) /\
  Zpos (digits2_pos p) <= 53.
Proof.
  intros Hp. pose proof (digits2_pos_bounds p) as [L U].
  assert (Hd : Zpos (digits2_pos p) <= 53).
  { destruct (Z_lt_le_dec 53 (Zpos (digits2_pos p))) as [H|H]; [|exact H].
    assert (2 ^ 53 <= 2 ^ (Zpos (digits2_pos p) - 1))
      by (apply Z.pow_le_mono_r; lia).
    lia. }
  split; [|exact Hd]. unfold of_int. cbn [binary_normalize].
  now apply binary_round_exact.
Qed.

(** The integer part of a float that is at most the float of [B]. *)
Lemma trunc_le_of_int m e B :
  valid (S754_finite false m e) -> 0 <= B < 2 ^ 53 ->
  leb (S754_finite false m e) (of_int B) = true ->
  trunc (S754_finite false m e) <= B.
Proof.
  intros Hv HB Hle. apply valid_finite in Hv as [Hc _].
  pose proof (canonical_digits m e Hc) as (He & Hd & Hn).
  pose proof (digits2_pos_bounds m) as [Lm Um].
  destruct B as [|p|p]; [discriminate| |lia].
  destruct (of_int_small p ltac:(lia)) as [Eo Hdp]. rewrite Eo in Hle.
  pose proof (digits2_pos_bounds p) as [Lp Up].
  set (d := Zpos (digits2_pos p)) in *.
  assert (Hpow : 0 < 2 ^ (53 - d)) by (apply Z.pow_pos_nonneg; lia).
  apply leb_pos_iff in Hle. rewrite Z2Pos.id in Hle by lia.
  assert (He0 : e <= 0) by lia.
  rewrite (proj2 (trunc_pos m e) He0).
  assert (Hpe : 0 < 2 ^ (- e)) by (apply Z.pow_pos_nonneg; lia).
  destruct Hle as [Hlt|[-> Hm]].
  - (* a smaller exponent *)
    apply Z.le_trans with (2 ^ (d - 1)); [|exact Lp].
    apply Z.lt_succ_r. apply Z.div_lt_upper_bound; [lia|].
    apply Z.lt_le_trans with (2 ^ 53).
    + apply Z.lt_le_trans with (2 ^ Zpos (digits2_pos m)); [exact Um|].
      apply Z.pow_le_mono_r; lia.
    + apply Z.le_trans with (2 ^ (- e) * 2 ^ (d - 1)).
      * rewrite <- Z.pow_add_r by lia. apply Z.pow_le_mono_r; lia.
      * apply Z.mul_le_mono_nonneg_l; lia.
  - replace (- (d - 53)) with (53 - d) by lia.
    apply Z.div_le_upper_bound; lia.
Qed.

End Whole.

Module TokenReport.

Import Run.

Section WithJSON.
Context {token_json : JSON TokenBucket.tokenBucketState}.

Lemma to_int64_small x B :
  F64.valid x -> 0 <= B < 2 ^ 53 ->
  F64.leb x (F64.of_int B) = true ->
  F64.to_int64 x <= B /\
  (F64.leb F64.one x = true <-> 1 <= F64.to_int64 x).
Proof.
  intros Hv HB Hle.
  destruct x as [sx|[|]| |[|] m e].
  - (* zero *) cbn. split; [lia|]. split; [discriminate | lia].
  - (* -inf *)
    cbn. unfold GoInt.min_int64. split; [lia|]. split; [discriminate | lia].
  - (* +inf *)
    exfalso. pose proof (F64Facts.of_int_finite B ltac:(lia)) as Hf.
    destruct (F64.of_int B) as [| | |[|]]; discriminate.
  - discriminate.
  - (* negative *)
    assert (Ht : F64.trunc (S754_finite true m e) <= 0).
    { pose proof (Whole.trunc_pos m e) as [H0 _].
      unfold F64.trunc in *. cbn [cond_Zopp] in *. lia. }
    unfold F64.to_int64.
    destruct (GoInt.in_int64b _); unfold GoInt.min_int64;
      (split; [lia|]); (split; [discriminate | lia]).
  - pose proof (Whole.trunc_le_of_int m e B Hv HB Hle) as Hup.
    pose proof (Whole.trunc_pos m e) as [H0 _].
    pose proof (Whole.leb_one_trunc m e Hv) as Hone.
    unfold F64.to_int64.
    rewrite GoIntFacts.in_int64b_true
      by (unfold GoInt.in_int64, GoInt.min_int64, GoInt.max_int64; lia).
    split; [exact Hup | exact Hone].
Qed.

(** What the token bucket allows and what it reports agree.  On a server
    that can be reached, for a burst size from 0 to [2^53] and the state
    that is loaded, the information gives the burst size as the limit and
    the whole tokens of the refilled bucket as the remaining requests, never
    more than the burst size; and [Allow] at the same time allows the request
    exactly when at least one request remains. *)
Theorem token_info_agrees_with_allow (s : TokenBucket.TokenBucketStore)
    identifier t0 now w st :
  Redis.fault (server w) = None ->
  F64.valid (TokenBucket.rate s) ->
  F64.valid (TokenBucket.Tokens st) ->
  0 <= TokenBucket.burst s < 2 ^ 53 ->
  fst (TokenBucket.getBucketState s (TokenBucketFacts.key s identifier) t0 w)
    = Ret st ->
  exists info,
    fst (TokenBucket.GetRateLimitInfo s identifier t0 now w) = Ret info /\
    Limit info = TokenBucket.burst s /\
    Remaining info = F64.to_int64 (TokenBucket.refill s st now) /\
    Remaining info <= TokenBucket.burst s /\
    (fst (TokenBucket.Allow s identifier t0 now w) = Ret true <->
     1 <= Remaining info).
Proof.
  intros Hup Hr Ht Hb Hl.
  assert (Hin : GoInt.in_int64 (TokenBucket.burst s))
    by (unfold GoInt.in_int64, GoInt.min_int64, GoInt.max_int64; lia).
  pose proof (TokenBucketFacts.refill_valid s st now Hr Ht) as Hv.
  eexists. split; [|split; [|split; [|split]]].
  - unfold TokenBucket.GetRateLimitInfo, bind.
    fold (TokenBucketFacts.key s identifier).
    destruct (TokenBucket.getBucketState s _ t0 w) as [o w1].
    cbn [fst] in Hl. subst o. reflexivity.
  - reflexivity.
  - reflexivity.
  - cbn [Remaining].
    destruct (F64.is_nan (TokenBucket.refill s st now)) eqn:Hn.
    + destruct (TokenBucket.refill s st now); try discriminate.
      cbn. unfold GoInt.min_int64. lia.
    + apply (to_int64_small _ _ Hv Hb).
      apply TokenBucketFacts.refill_min. now apply TokenBucketFacts.refill_nan.
  - cbn [Remaining].
    rewrite (TokenBucketFacts.token_Allow_loaded s identifier t0 now w st Hl).
    set (w1 := logged w _).
    assert (Hup1 : Redis.fault (server w1) = None) by exact Hup.
    destruct (F64.is_nan (TokenBucket.refill s st now)) eqn:Hn.
    + (* no level: nothing is saved *)
      unfold bind, wrap, TokenBucket.saveBucketState, TokenBucket.Marshal.
      cbn [TokenBucketFacts.consumed TokenBucket.Tokens].
      destruct (TokenBucket.refill s st now); try discriminate. cbn.
      unfold GoInt.min_int64. split; [discriminate | lia].
    + assert (Hle : F64.leb (TokenBucket.refill s st now)
                      (F64.of_int (TokenBucket.burst s)) = true)
        by (apply TokenBucketFacts.refill_min;
            now apply TokenBucketFacts.refill_nan).
      destruct (to_int64_small _ _ Hv Hb Hle) as [_ Hone].
      destruct (F64.ltb (TokenBucket.refill s st now) F64.one) eqn:Hlt.
      * cbn. split; [discriminate|]. intros H1. apply Hone in H1.
        apply F64Facts.leb_ltb_false in H1. congruence.
      * pose proof (TokenBucketFacts.consumed_bounds s st now Hr Ht Hin Hn Hlt)
          as (_ & _ & Hf).
        unfold bind, wrap, TokenBucket.saveBucketState, TokenBucket.Marshal.
        rewrite Hf, (SetState_ok w1 Hup1). cbn [fst ret].
        split; [|reflexivity]. intros _. apply Hone.
        apply F64Facts.ltb_false_leb; auto.
Qed.

End WithJSON.

Import Codec.

(** The theorem at a token bucket that is not stored. *)
Lemma token_info_agrees_with_allow_witness :
  exists info,
    fst (TokenBucket.GetRateLimitInfo
           (TokenBucket.NewTokenBucketStore (F64.of_int 1) 5 3600000000000)
           "ip:10.0.0.1" 0 1000 empty_world) = Ret info /\
    Remaining info = 5.
Proof.
  destruct (token_info_agrees_with_allow
              (TokenBucket.NewTokenBucketStore (F64.of_int 1) 5 3600000000000)
              "ip:10.0.0.1" 0 1000 empty_world
              {| TokenBucket.Tokens := F64.of_int 5;
                 TokenBucket.LastRefill := 0 |})
    as (info & Hi & _ & Hr & _).
  - reflexivity.
  - reflexivity.
  - reflexivity.
  - vm_compute. split; [discriminate | reflexivity].
  - reflexivity.
  - exists info. split; [exact Hi|]. rewrite Hr. reflexivity.
Defined.

End TokenReport.

(** * Windows of whole seconds *)

Module WholeSeconds.

Import Run.

(** A window of [n] whole seconds has [n] as its length in seconds. *)
Lemma Seconds_exact n :
  1 <= n < 2 ^ 53 ->
  F64.to_int64 (Duration.Seconds (n * Duration.Second)) = n.
Proof.
  intros Hn. unfold Duration.Seconds, Duration.Second.
  rewrite Z.quot_mul, Z.rem_mul by lia.
  destruct n as [|p|p]; try lia.
  destruct (Whole.of_int_small p ltac:(lia)) as [-> Hd].
  pose proof (F64Facts.digits2_pos_bounds p) as [L U].
  set (d := Zpos (digits2_pos p)) in *.
  assert (Hp : 0 < 2 ^ (53 - d)) by (apply Z.pow_pos_nonneg; lia).
  change (F64.div (F64.of_int 0) (F64.of_int 1000000000)) with (S754_zero false).
  cbn [F64.add SFadd]. unfold F64.to_int64.
  assert (Et : F64.trunc
                 (S754_finite false (Z.to_pos (Zpos p * 2 ^ (53 - d))) (d - 53))
               = Zpos p).
  { rewrite (proj2 (Whole.trunc_pos _ _)) by lia.
    rewrite Z2Pos.id by lia. replace (- (d - 53)) with (53 - d) by lia.
    apply Z.div_mul. lia. }
  rewrite Et.
  rewrite GoIntFacts.in_int64b_true; [reflexivity|].
  unfold GoInt.in_int64, GoInt.min_int64, GoInt.max_int64. lia.
Qed.


Section FixedWindow.
Variable s : FixedWindow.FixedWindowStore.
Variable n : Z.
Hypothesis Hsize : FixedWindow.windowSize s = n * Duration.Second.
Hypothesis Hn : 1 <= n <= 9223372036.

Lemma window_of_whole_seconds : Duration.Second <= FixedWindow.windowSize s.
Proof. rewrite Hsize. unfold Duration.Second. lia. Qed.

Lemma windowNum_exact now :
  0 <= now <= GoInt.max_int64 ->
  FixedWindowFacts.windowNum s now = Time.Unix now / n.
Proof.
  intros Hnow. unfold FixedWindowFacts.windowNum. rewrite Hsize.
  rewrite Seconds_exact by lia. unfold GoInt.quo.
  assert (Hu : 0 <= Time.Unix now <= 9223372036).
  { unfold Time.Unix, GoInt.max_int64 in *. split.
    - apply Z.div_pos; lia.
    - apply Z.lt_succ_r. apply Z.div_lt_upper_bound; lia. }
  rewrite Z.quot_div_nonneg by lia.
  apply GoIntFacts.wrap64_id.
  assert (0 <= Time.Unix now / n <= Time.Unix now).
  { split; [apply Z.div_pos; lia|]. apply Z.div_le_upper_bound; nia. }
  unfold GoInt.in_int64, GoInt.min_int64, GoInt.max_int64. lia.
Qed.

(** What the fixed window reports.  For a window of [n] whole seconds, a
    limit that is not negative and a time from 1970 on, on a server that
    can be reached and holds the count [c] for the current window (0 when
    the counter is not there): the information gives the limit, the
    requests left, [limit - c] and not below 0, and as the reset the start
    of the next window, which is after [now] and at most [n] seconds after
    it; it makes one [Check] and changes nothing.  [Allow] at the same time
    allows the request exactly when requests are left. *)
Theorem fixed_info_agrees_with_allow identifier now w c :
  Redis.fault (server w) = None ->
  0 <= now <= GoInt.max_int64 ->
  0 <= FixedWindow.limit s <= GoInt.max_int64 ->
  SlidingWindowFacts.holds w
    (FixedWindowFacts.key s identifier (Time.Unix now / n)) c ->
  c < GoInt.max_int64 ->
  FixedWindow.GetRateLimitInfo s identifier now w =
  (Ret {| Limit := FixedWindow.limit s;
          Remaining := Z.max 0 (FixedWindow.limit s - c);
          Reset := (Time.Unix now / n + 1) * n |},
   logged w (CallCheck (FixedWindowFacts.key s identifier (Time.Unix now / n)))) /\
  Time.Unix now < (Time.Unix now / n + 1) * n <= Time.Unix now + n /\
  (fst (FixedWindow.Allow s identifier now w) = Ret true <->
   0 < Z.max 0 (FixedWindow.limit s - c)).
Proof.
  intros Hup Hnow Hlim Hc Hmax.
  pose proof window_of_whole_seconds as Hw.
  pose proof (windowNum_exact now Hnow) as Hq.
  assert (Hu : 0 <= Time.Unix now <= 9223372036).
  { unfold Time.Unix, GoInt.max_int64 in *. split.
    - apply Z.div_pos; lia.
    - apply Z.lt_succ_r. apply Z.div_lt_upper_bound; lia. }
  assert (Hdiv : 0 <= Time.Unix now / n <= Time.Unix now).
  { split; [apply Z.div_pos; lia|]. apply Z.div_le_upper_bound; nia. }
  assert (Hnext : Time.Unix now < (Time.Unix now / n + 1) * n <= Time.Unix now + n).
  { pose proof (Z.div_mod (Time.Unix now) n ltac:(lia)) as Hdm.
    pose proof (Z.mod_pos_bound (Time.Unix now) n ltac:(lia)). nia. }
  assert (Hc0 : 0 <= c <= GoInt.max_int64).
  { destruct Hc as [[_ ->]|(t & _ & Hr)]; unfold GoInt.max_int64 in *; lia. }
  split; [|split; [exact Hnext|]].
  - unfold FixedWindow.GetRateLimitInfo, bind.
    rewrite (FixedWindowFacts.divide_window s Hw).
    fold (FixedWindowFacts.key s identifier (FixedWindowFacts.windowNum s now)).
    rewrite Hq, (SlidingWindowFacts.Check_holds _ w c Hup Hc).
    unfold ret. f_equal. rewrite Hsize, Seconds_exact by lia.
    unfold GoInt.add, GoInt.mul, GoInt.sub.
    rewrite (GoIntFacts.wrap64_id (Time.Unix now / n + 1))
      by (unfold GoInt.in_int64, GoInt.min_int64, GoInt.max_int64; lia).
    rewrite (GoIntFacts.wrap64_id ((Time.Unix now / n + 1) * n))
      by (unfold GoInt.in_int64, GoInt.min_int64, GoInt.max_int64; lia).
    rewrite (GoIntFacts.wrap64_id (FixedWindow.limit s - c)).
    2:{ unfold GoInt.in_int64, GoInt.min_int64, GoInt.max_int64 in *.
        clear - Hlim Hc0. lia. }
    assert (Er : (if FixedWindow.limit s - c <? 0 then 0
                  else FixedWindow.limit s - c)
                 = Z.max 0 (FixedWindow.limit s - c)).
    { clear. destruct (_ <? 0) eqn:E;
        [apply Z.ltb_lt in E | apply Z.ltb_ge in E]; lia. }
    now rewrite Er.
  - destruct Hc as [[Hk ->]|(t & Hk & Hr)].
    + rewrite <- Hq in Hk.
      rewrite (FixedWindowFacts.Allow_first s identifier Hw now w Hup Hk).
      cbn [fst]. destruct (1 <=? FixedWindow.limit s) eqn:E;
        [apply Z.leb_le in E | apply Z.leb_gt in E];
        (split; [intros; try discriminate; lia | intros; f_equal; lia]).
    + rewrite <- Hq in Hk.
      rewrite (FixedWindowFacts.Allow_next s identifier Hw now w c t Hup
                 ltac:(lia) Hk).
      cbn [fst]. destruct (c + 1 <=? FixedWindow.limit s) eqn:E;
        [apply Z.leb_le in E | apply Z.leb_gt in E];
        (split; [intros; try discriminate; lia | intros; f_equal; lia]).
Qed.

End FixedWindow.

(** The theorem at the fixed window of the user routes, one minute in. *)
Lemma fixed_info_agrees_with_allow_witness :
  FixedWindow.GetRateLimitInfo (FixedWindow.NewFixedWindowStore 3 60000000000)
    "ip:10.0.0.1" 61000000000 empty_world
  = (Ret {| Limit := 3; Remaining := 3; Reset := 120 |},
     logged empty_world (CallCheck "rate_limit_fixed_window:ip:10.0.0.1:1")).
Proof.
  apply (fixed_info_agrees_with_allow
           (FixedWindow.NewFixedWindowStore 3 60000000000) 60 eq_refl
           ltac:(lia) "ip:10.0.0.1" 61000000000 empty_world 0).
  - reflexivity.
  - vm_compute. split; discriminate.
  - vm_compute. split; discriminate.
  - left. split; reflexivity.
  - reflexivity.
Defined.

End WholeSeconds.

(** * Identifiers *)

Module Identifiers.

Import Middleware.

(** Two texts cut at [":/"], with no ["/"] before the cut, are cut at the
    same place. *)
Lemma split_at_slash a b p q :
  StrFacts.has_char "/" a = false -> StrFacts.has_char "/" b = false ->
  a ++ String ":" (String "/" p) = b ++ String ":" (String "/" q) ->
  a = b /\ p = q.
Proof.
  revert b. induction a as [|a0 a IH]; intros [|b0 b] Ha Hb E.
  - change (String ":" (String "/" p) = String ":" (String "/" q)) in E.
    injection E as E. auto.
  - exfalso.
    change (String ":" (String "/" p)
            = String b0 (b ++ String ":" (String "/" q))) in E.
    injection E as E1 E2. destruct b as [|b1 b].
    + change (String "/" p = String ":" (String "/" q)) in E2. discriminate E2.
    + change (String "/" p = String b1 (b ++ String ":" (String "/" q))) in E2.
      injection E2 as E2 _. subst b1.
      cbn [StrFacts.has_char] in Hb. rewrite Ascii.eqb_refl in Hb. cbn [orb] in Hb.
      rewrite orb_true_r in Hb. discriminate.
  - exfalso.
    change (String a0 (a ++ String ":" (String "/" p))
            = String ":" (String "/" q)) in E.
    injection E as E1 E2. destruct a as [|a1 a].
    + change (String ":" (String "/" p) = String "/" q) in E2. discriminate E2.
    + change (String a1 (a ++ String ":" (String "/" p)) = String "/" q) in E2.
      injection E2 as E2 _. subst a1.
      cbn [StrFacts.has_char] in Ha. rewrite Ascii.eqb_refl in Ha. cbn [orb] in Ha.
      rewrite orb_true_r in Ha. discriminate.
  - change (String a0 (a ++ String ":" (String "/" p))
            = String b0 (b ++ String ":" (String "/" q))) in E.
    injection E as E1 E2. subst b0.
    cbn [StrFacts.has_char] in Ha, Hb.
    apply orb_false_iff in Ha as [_ Ha]. apply orb_false_iff in Hb as [_ Hb].
    destruct (IH b Ha Hb E2) as [-> ->]. auto.
Qed.

(** The identifier tells the caller.  Two requests get the same identifier
    exactly when both carry the same key, or neither carries a key and both
    come from the same address: a key is never taken for an address, and an
    empty key counts as no key. *)
Theorem identifier_tells_the_caller (c1 c2 : Context) :
  IdentifierExtractor c1 = IdentifierExtractor c2 <->
  X_API_Key c1 = X_API_Key c2 /\
  (X_API_Key c1 = "" -> RealIP c1 = RealIP c2).
Proof.
  unfold IdentifierExtractor.
  destruct (String.eqb_spec (X_API_Key c1) "") as [E1|E1];
    destruct (String.eqb_spec (X_API_Key c2) "") as [E2|E2]; cbn [negb].
  - rewrite E1, E2. split.
    + intros [= E]. auto.
    + intros [_ E]. now rewrite E.
  - rewrite E1. split; [discriminate|]. intros [E _]. now rewrite <- E in E2.
  - rewrite E2. split; [discriminate|]. intros [E _]. now rewrite E in E1.
  - split.
    + intros [= E]. split; [exact E|]. intros. contradiction.
    + intros [E _]. now rewrite E.
Qed.

(** The identifier of a path tells the caller and the path, when keys and
    addresses hold no ["/"] and paths begin with one: two such requests get
    the same identifier exactly when they are for the same path and both
    carry the same key, or neither carries a key and both come from the same
    address. *)
Theorem identifier_tells_the_path (c1 c2 : Context) p1 p2 :
  Path c1 = String "/" p1 -> Path c2 = String "/" p2 ->
  StrFacts.has_char "/" (X_API_Key c1) = false ->
  StrFacts.has_char "/" (X_API_Key c2) = false ->
  StrFacts.has_char "/" (RealIP c1) = false ->
  StrFacts.has_char "/" (RealIP c2) = false ->
  IdentifierExtractorPerPath c1 = IdentifierExtractorPerPath c2 <->
  Path c1 = Path c2 /\ X_API_Key c1 = X_API_Key c2 /\
  (X_API_Key c1 = "" -> RealIP c1 = RealIP c2).
Proof.
  intros P1 P2 K1 K2 A1 A2.
  unfold IdentifierExtractorPerPath, Str.Sprintf_s_s_s. rewrite P1, P2.
  destruct (String.eqb_spec (X_API_Key c1) "") as [E1|E1];
    destruct (String.eqb_spec (X_API_Key c2) "") as [E2|E2]; cbn [negb].
  - rewrite E1, E2. split.
    + intros [= E]. apply split_at_slash in E as [-> ->]; auto.
    + intros ([= ->] & _ & E). now rewrite E.
  - rewrite E1. split; [discriminate|]. intros (_ & E & _). now rewrite <- E in E2.
  - rewrite E2. split; [discriminate|]. intros (_ & E & _). now rewrite E in E1.
  - split.
    + intros [= E]. apply split_at_slash in E as [-> ->]; auto.
      repeat split. intros. contradiction.
    + intros ([= ->] & E & _). now rewrite E.
Qed.

(** The theorem at two requests from one address, for two paths. *)
Lemma identifier_tells_the_caller_witness :
  IdentifierExtractor {| X_API_Key := ""; RealIP := "10.0.0.1"; Path := "/a" |}
  = IdentifierExtractor {| X_API_Key := ""; RealIP := "10.0.0.1"; Path := "/b" |}.
Proof.
  apply (proj2 (identifier_tells_the_caller
                  {| X_API_Key := ""; RealIP := "10.0.0.1"; Path := "/a" |}
                  {| X_API_Key := ""; RealIP := "10.0.0.1"; Path := "/b" |})).
  split; reflexivity.
Defined.

(** The theorem at two requests with one key for one path. *)
Lemma identifier_tells_the_path_witness :
  IdentifierExtractorPerPath
    {| X_API_Key := "k1"; RealIP := "10.0.0.1"; Path := "/users" |}
  = IdentifierExtractorPerPath
      {| X_API_Key := "k1"; RealIP := "10.0.0.2"; Path := "/users" |}.
Proof.
  apply (proj2 (identifier_tells_the_path
                  {| X_API_Key := "k1"; RealIP := "10.0.0.1"; Path := "/users" |}
                  {| X_API_Key := "k1"; RealIP := "10.0.0.2"; Path := "/users" |}
                  "users" "users" eq_refl eq_refl eq_refl eq_refl eq_refl eq_refl)).
  repeat split. discriminate.
Defined.

End Identifiers.

(** * Strategies side by side *)

Module Strategies.

Import Selector Frame.

(** Whether two limiters are of one strategy. *)
Definition same_strategy (l1 l2 : Limiter) : bool :=
  match l1, l2 with
  | FixedLimiter _, FixedLimiter _ | SlidingLimiter _, SlidingLimiter _
  | TokenLimiter _, TokenLimiter _ | LeakyLimiter _, LeakyLimiter _ => true
  | _, _ => false
  end.

(** The prefix of the keys of a limiter. *)
Definition prefix_of (l : Limiter) : string :=
  match l with
  | FixedLimiter s => FixedWindow.keyPrefix s
  | SlidingLimiter s => SlidingWindow.keyPrefix s
  | TokenLimiter s => TokenBucket.keyPrefix s
  | LeakyLimiter s => LeakyBucket.keyPrefix s
  end.

Lemma keys_prefix l identifier k :
  keys l identifier k -> exists rest, k = prefix_of l ++ rest.
Proof.
  destruct l; cbn [keys prefix_of].
  - intros [n ->]. eexists. reflexivity.
  - intros [n ->]. eexists. reflexivity.
  - intros ->. eexists. reflexivity.
  - intros ->. eexists. reflexivity.
Qed.

Lemma NewRateLimiter_prefix config :
  prefix_of (NewRateLimiter config) =
  match NewRateLimiter config with
  | FixedLimiter _ => "rate_limit_fixed_window"
  | SlidingLimiter _ => "rate_limit_sliding_window"
  | TokenLimiter _ => "rate_limit_token_bucket"
  | LeakyLimiter _ => "rate_limit_leaky_bucket"
  end.
Proof.
  unfold NewRateLimiter.
  repeat (destruct (String.eqb _ _); [reflexivity|]). reflexivity.
Qed.

Lemma keys_of_two_strategies config1 config2 id1 id2 k :
  same_strategy (NewRateLimiter config1) (NewRateLimiter config2) = false ->
  keys (NewRateLimiter config1) id1 k ->
  keys (NewRateLimiter config2) id2 k -> False.
Proof.
  intros Hs H1 H2.
  apply keys_prefix in H1 as [r1 E1]. apply keys_prefix in H2 as [r2 E2].
  rewrite NewRateLimiter_prefix in E1, E2. subst k.
  destruct (NewRateLimiter config1), (NewRateLimiter config2);
    try discriminate Hs; simpl in E2; discriminate E2.
Qed.

Section WithJSON.
Context `{JSON TokenBucket.tokenBucketState} `{JSON LeakyBucket.leakyBucketState}.

(** Limiters of two strategies do not meet.  For two limiters that the
    selector builds for different strategies, no key of one is a key of the
    other, whatever the identifiers; so [Allow] of the one leaves the keys of
    the other as they were, and [Allow] and the information of the other
    answer after it what they answer before. *)
Theorem strategies_do_not_meet config1 config2 id1 id2 t0 now t0' now' w :
  same_strategy (NewRateLimiter config1) (NewRateLimiter config2) = false ->
  (forall k, keys (NewRateLimiter config1) id1 k ->
             ~ keys (NewRateLimiter config2) id2 k) /\
  (forall k, keys (NewRateLimiter config2) id2 k ->
     Redis.kv (server (snd (Middleware.Allow (NewRateLimiter config1) id1
                              t0 now w))) !! k
     = Redis.kv (server w) !! k) /\
  fst (Middleware.Allow (NewRateLimiter config2) id2 t0' now'
         (snd (Middleware.Allow (NewRateLimiter config1) id1 t0 now w)))
  = fst (Middleware.Allow (NewRateLimiter config2) id2 t0' now' w) /\
  fst (Middleware.GetRateLimitInfo (NewRateLimiter config2) id2 t0' now'
         (snd (Middleware.Allow (NewRateLimiter config1) id1 t0 now w)))
  = fst (Middleware.GetRateLimitInfo (NewRateLimiter config2) id2 t0' now' w).
Proof.
  intros Hs.
  assert (Hapart : forall k, keys (NewRateLimiter config1) id1 k ->
                             ~ keys (NewRateLimiter config2) id2 k).
  { intros k H1 H2. exact (keys_of_two_strategies _ _ _ _ _ Hs H1 H2). }
  destruct (conf_frame _ _ (confined_Allow (NewRateLimiter config1) id1 t0 now) w)
    as [Hfault Hkeep].
  assert (Hag : agree (keys (NewRateLimiter config2) id2)
                  (server (snd (Middleware.Allow (NewRateLimiter config1) id1
                                  t0 now w)))
                  (server w)).
  { split; [exact Hfault|]. intros k H2. apply Hkeep.
    intros H1. exact (Hapart k H1 H2). }
  repeat split.
  - exact Hapart.
  - intros k H2. apply Hkeep. intros H1. exact (Hapart k H1 H2).
  - apply (conf_read _ _ (confined_Allow (NewRateLimiter config2) id2 t0' now')
             _ _ Hag).
  - apply (conf_read _ _ (confined_Info (NewRateLimiter config2) id2 t0' now')
             _ _ Hag).
Qed.

End WithJSON.

Import Codec.

(** The theorem at a token bucket and a leaky bucket for one caller. *)
Lemma strategies_do_not_meet_witness :
  fst (Middleware.Allow
         (NewRateLimiter {| Strategy := "leaky_bucket"; Limit_ := 3;
                            Window := 60000000000; Burst := 5;
                            Rate := F64.of_int 1 |})
         "ip:10.0.0.1" 0 1000
         (snd (Middleware.Allow
                 (NewRateLimiter {| Strategy := "token_bucket"; Limit_ := 3;
                                    Window := 60000000000; Burst := 5;
                                    Rate := F64.of_int 1 |})
                 "ip:10.0.0.1" 0 1000 empty_world)))
  = fst (Middleware.Allow
           (NewRateLimiter {| Strategy := "leaky_bucket"; Limit_ := 3;
                              Window := 60000000000; Burst := 5;
                              Rate := F64.of_int 1 |})
           "ip:10.0.0.1" 0 1000 empty_world).
Proof.
  apply (strategies_do_not_meet
           {| Strategy := "token_bucket"; Limit_ := 3; Window := 60000000000;
              Burst := 5; Rate := F64.of_int 1 |}
           {| Strategy := "leaky_bucket"; Limit_ := 3; Window := 60000000000;
              Burst := 5; Rate := F64.of_int 1 |}
           "ip:10.0.0.1" "ip:10.0.0.1" 0 1000 0 1000 empty_world).
  reflexivity.
Defined.

End Strategies.

(** * One window at a time *)

Module Windows.

Import Frame.

Lemma changes_only_then_ret {A B} K (c : M A) (b : B) w :
  changes_only K (server w) (server (snd (c w))) ->
  changes_only K (server w) (server (snd ((c ;;; ret b) w))).
Proof. unfold bind, ret. now destruct (c w) as [[a|e|m] w1]. Qed.

(** A call of [Allow] changes the counter of its window only.  For a
    window of a second or more and any state of the server, [Allow] of the
    fixed and of the sliding window leaves every key but the one of the
    current window as it was, with its time-to-live; the keys of the other
    windows of the same identifier are other keys, so no call resets, lowers
    or prolongs the counter of another window. *)
Theorem only_the_current_window identifier now w :
  (forall s : FixedWindow.FixedWindowStore,
     Duration.Second <= FixedWindow.windowSize s ->
     (forall k,
        k <> FixedWindowFacts.key s identifier (FixedWindowFacts.windowNum s now) ->
        Redis.kv (server (snd (FixedWindow.Allow s identifier now w))) !! k
        = Redis.kv (server w) !! k) /\
     (forall n,
        n <> FixedWindowFacts.windowNum s now ->
        FixedWindowFacts.key s identifier n
        <> FixedWindowFacts.key s identifier (FixedWindowFacts.windowNum s now))) /\
  (forall s : SlidingWindow.SlidingWindowStore,
     Duration.Second <= SlidingWindow.windowSize s ->
     forall k,
       k <> SlidingWindowFacts.currentKey s identifier now ->
       Redis.kv (server (snd (SlidingWindow.Allow s identifier now w))) !! k
       = Redis.kv (server w) !! k).
Proof.
  split.
  - intros s Hw. split.
    + intros k Hk.
      unfold FixedWindow.Allow, bind at 1.
      rewrite (FixedWindowFacts.divide_window s Hw).
      fold (FixedWindowFacts.key s identifier (FixedWindowFacts.windowNum s now)).
      set (key := FixedWindowFacts.key s identifier _) in *.
      assert (C : confined (eq key)
                    (count <- wrap "failed to increment rate limit counter: "
                       (RateLimitRepository.IncrementPreserveTTL key
                          (FixedWindow.windowSize s)) ;;
                     ret (count <=? FixedWindow.limit s))).
      { apply confined_bind; [|intros; apply confined_ret].
        apply confined_wrap. now apply confined_IncrementPreserveTTL. }
      destruct (conf_frame _ _ C w) as [_ Hkeep]. apply Hkeep. congruence.
    + intros n Hn E. apply StrFacts.Sprintf_s_s_d_inj in E as [_ E]. contradiction.
  - intros s Hw k Hk.
    pose proof (F64Facts.Seconds_whole (SlidingWindow.windowSize s) Hw) as Hs.
    apply Z.eqb_neq in Hs.
    unfold SlidingWindow.Allow, bind, divide, modulo. rewrite Hs. cbn [ret].
    fold (SlidingWindowFacts.secs s).
    fold (SlidingWindowFacts.currentWindow s now).
    fold (SlidingWindowFacts.currentKey s identifier now).
    set (cur := SlidingWindowFacts.currentKey s identifier now) in *.
    destruct (ReadOnly.reads_Check cur w) as [E1 _].
    destruct (RateLimitRepository.Check cur w) as [[c|e|m] w1];
      cbn [snd] in *; try (now rewrite E1).
    match goal with
    | |- context [RateLimitRepository.Check ?key w1] =>
        destruct (ReadOnly.reads_Check key w1) as [E2 _];
        destruct (RateLimitRepository.Check key w1) as [[p|e|m] w2]
    end; cbn [snd] in *; try (now rewrite E2, E1).
    destruct (SlidingWindow.limit s <=? _); unfold ret; cbn [snd];
      [now rewrite E2, E1|].
    pose proof (conf_frame _ _
                  (confined_IncrementPreserveTTL (eq cur) cur eq_refl
                     (GoInt.mul (SlidingWindow.windowSize s) 2)) w2)
      as [_ Hkeep].
    destruct (RateLimitRepository.IncrementPreserveTTL cur _ w2)
      as [[v|e|m] w3]; cbn [snd] in *;
      rewrite Hkeep, E2, E1 by congruence; reflexivity.
Qed.

(** The theorem at the fixed window of the user routes. *)
Lemma only_the_current_window_witness :
  Redis.kv (server (snd (FixedWindow.Allow
                           (FixedWindow.NewFixedWindowStore 3 60000000000)
                           "ip:10.0.0.1" 61000000000
                           (Run.stored empty_world
                              "rate_limit_fixed_window:ip:10.0.0.1:0"
                              (Redis.Entry "3" (Some 60000000000))))))
    !! "rate_limit_fixed_window:ip:10.0.0.1:0"
  = Some (Redis.Entry "3" (Some 60000000000)).
Proof.
  refine (proj1 (proj1 (only_the_current_window "ip:10.0.0.1" 61000000000
                          (Run.stored empty_world
                             "rate_limit_fixed_window:ip:10.0.0.1:0"
                             (Redis.Entry "3" (Some 60000000000))))
                   (FixedWindow.NewFixedWindowStore 3 60000000000) _)
            "rate_limit_fixed_window:ip:10.0.0.1:0" _).
  - vm_compute. discriminate.
  - vm_compute. discriminate.
Defined.

End Windows.

(** * A burst on the leaky bucket *)

Module LeakyBurst.

Import LeakyBucket Run.

(** No time, no leak: at the time of the last leak nothing has leaked, for
    a leak rate that is a number. *)
Lemma leaked_at_once s k now :
  F64.is_finite (leakRate s) = true ->
  leaked s {| Water := k; LastLeak := now |} now = 0.
Proof.
  intros Hf. unfold leaked. cbn [LastLeak]. unfold Time.Sub.
  rewrite Z.sub_diag.
  change (Duration.Seconds
            (Z.max GoInt.min_int64 (Z.min GoInt.max_int64 0)))
    with (S754_zero false).
  destruct (leakRate s); try discriminate; reflexivity.
Qed.

Lemma drained_at_once s k now :
  F64.is_finite (leakRate s) = true -> 0 <= k <= GoInt.max_int64 ->
  drained s {| Water := k; LastLeak := now |} now = k.
Proof.
  intros Hf Hk. unfold drained. rewrite leaked_at_once by exact Hf.
  cbn [Water]. unfold GoInt.sub. rewrite Z.sub_0_r.
  rewrite GoIntFacts.wrap64_id; [lia|].
  unfold GoInt.in_int64, GoInt.min_int64, GoInt.max_int64 in *. lia.
Qed.

Section WithJSON.
Context `{JSON leakyBucketState}.

Section Burst.
Variable s : LeakyBucketStore.
Variable identifier : string.
Variable now : Time.t.
Hypothesis Hrate : F64.is_finite (leakRate s) = true.
Hypothesis Hcap : 0 <= capacity s < GoInt.max_int64.
Hypothesis Hjson : forall k, 0 <= k <= capacity s ->
  decode (encode {| Water := k; LastLeak := now |})
  = Ok {| Water := k; LastLeak := now |}.

(** The server holds the water [k] for the identifier, last leaked at
    [now]; an empty bucket need not be stored. *)
Definition filled (w : world) (k : Z) : Prop :=
  Redis.fault (server w) = None /\
  ((k = 0 /\ Redis.kv (server w) !! LeakyBucketFacts.key s identifier = None) \/
   exists t, Redis.kv (server w) !! LeakyBucketFacts.key s identifier
             = Some (Redis.Entry (encode {| Water := k; LastLeak := now |}) t)).

Lemma leaky_Allow_filled w k :
  filled w k -> 0 <= k <= capacity s ->
  fst (Allow s identifier now now w) = Ret (k <? capacity s) /\
  Redis.fault (server (snd (Allow s identifier now now w))) = None /\
  exists t,
    Redis.kv (server (snd (Allow s identifier now now w)))
      !! LeakyBucketFacts.key s identifier
    = Some (Redis.Entry
              (encode {| Water := if k <? capacity s then k + 1 else k;
                         LastLeak := now |}) t).
Proof.
  intros [Hup Hst] Hk.
  assert (Hl : fst (getBucketState s (LeakyBucketFacts.key s identifier) now w)
               = Ret {| Water := k; LastLeak := now |}).
  { destruct Hst as [[-> Hn]|[t Hs]].
    - now rewrite (LeakyBucketFacts.leaky_getBucketState_absent s _ now w Hup Hn).
    - now rewrite (LeakyBucketFacts.leaky_getBucketState_decoded s _ now w _ _
                     Hup Hs (Hjson k Hk)). }
  rewrite (LeakyBucketFacts.leaky_Allow_loaded s identifier now now w _ Hl).
  rewrite drained_at_once by (unfold GoInt.max_int64 in *; auto; lia).
  unfold bind. rewrite Z.leb_antisym.
  destruct (k <? capacity s) eqn:E; cbn [negb];
    rewrite LeakyBucketFacts.saveBucketState_ok by exact Hup; cbn [fst snd ret].
  - split; [reflexivity|]. split; [exact Hup|]. eexists.
    unfold LeakyBucketFacts.poured.
    rewrite drained_at_once by (unfold GoInt.max_int64 in *; auto; lia).
    apply Z.ltb_lt in E. unfold GoInt.add.
    rewrite GoIntFacts.wrap64_id
      by (unfold GoInt.in_int64, GoInt.min_int64, GoInt.max_int64 in *; lia).
    cbn. apply lookup_insert_eq.
  - split; [reflexivity|]. split; [exact Hup|]. eexists.
    unfold LeakyBucketFacts.held.
    rewrite drained_at_once by (unfold GoInt.max_int64 in *; auto; lia).
    cbn. apply lookup_insert_eq.
Qed.

Lemma leaky_burst_from (n : nat) :
  forall w k,
    filled w k -> 0 <= k -> k + Z.of_nat n <= capacity s ->
    fst (run_at (fun t => Allow s identifier t t) (repeat now n) w)
      = repeat (Ret true) n /\
    filled (snd (run_at (fun t => Allow s identifier t t) (repeat now n) w))
      (k + Z.of_nat n).
Proof.
  induction n as [|n IH]; intros w k Hw Hk Hn.
  - cbn. rewrite Z.add_0_r. auto.
  - cbn [repeat run_at].
    destruct (leaky_Allow_filled w k Hw ltac:(lia)) as (Hr & Hup1 & Hf).
    destruct (Allow s identifier now now w) as [o w1]. cbn [fst snd] in *.
    replace (k <? capacity s) with true in * by (symmetry; apply Z.ltb_lt; lia).
    specialize (IH w1 (k + 1) (conj Hup1 (or_intror Hf)) ltac:(lia) ltac:(lia)).
    destruct (run_at _ (repeat now n) w1) as [os w2]. cbn [fst snd] in *.
    destruct IH as [E1 E2]. subst o. split; [now rewrite E1|].
    replace (k + Z.of_nat (S n)) with (k + 1 + Z.of_nat n) by lia. exact E2.
Qed.

(** A leaky bucket takes a burst of its capacity.  On a server that can be
    reached, with a leak rate that is a number, a capacity [C] that is not
    negative and a bucket that is not stored: of [C + 1] calls of [Allow] at
    one instant the first [C] are allowed and the last is denied, and the
    bucket then holds [C] units. *)
Theorem leaky_bucket_takes_a_burst w :
  Redis.fault (server w) = None ->
  Redis.kv (server w) !! LeakyBucketFacts.key s identifier = None ->
  fst (run_at (fun t => Allow s identifier t t)
         (repeat now (S (Z.to_nat (capacity s)))) w)
    = (repeat (Ret true) (Z.to_nat (capacity s)) ++ [Ret false])%list /\
  exists t,
    Redis.kv (server (snd (run_at (fun t => Allow s identifier t t)
                             (repeat now (S (Z.to_nat (capacity s)))) w)))
      !! LeakyBucketFacts.key s identifier
    = Some (Redis.Entry (encode {| Water := capacity s; LastLeak := now |}) t).
Proof.
  intros Hup Hk.
  assert (Hw : filled w 0) by (split; auto).
  replace (S (Z.to_nat (capacity s))) with (Z.to_nat (capacity s) + 1)%nat by lia.
  rewrite repeat_app. cbn [repeat].
  pose proof (leaky_burst_from (Z.to_nat (capacity s)) w 0 Hw ltac:(lia) ltac:(lia))
    as [E1 E2].
  rewrite Z2Nat.id, Z.add_0_l in E2 by lia.
  assert (Happ : forall ts1 ts2 w0,
    run_at (fun t => Allow s identifier t t) (ts1 ++ ts2) w0 =
    let '(os1, w1) := run_at (fun t => Allow s identifier t t) ts1 w0 in
    let '(os2, w2) := run_at (fun t => Allow s identifier t t) ts2 w1 in
    ((os1 ++ os2)%list, w2)).
  { induction ts1 as [|t ts1 IH1]; intros ts2 w0.
    - cbn. now destruct (run_at _ ts2 w0).
    - cbn [app run_at]. destruct (Allow s identifier t t w0) as [o w1].
      rewrite IH1. destruct (run_at _ ts1 w1) as [os1 w2].
      now destruct (run_at _ ts2 w2). }
  rewrite Happ.
  destruct (run_at _ (repeat now (Z.to_nat (capacity s))) w) as [os1 w1].
  cbn [fst snd] in *. cbn [run_at].
  destruct (leaky_Allow_filled w1 (capacity s) E2 ltac:(lia)) as (Hr & _ & Hf).
  destruct (Allow s identifier now now w1) as [o w2]. cbn [fst snd] in *.
  rewrite Z.ltb_irrefl in *. subst o os1. split; [reflexivity | exact Hf].
Qed.

End Burst.

End WithJSON.

(** The theorem at a bucket of capacity 2. *)
Lemma leaky_bucket_takes_a_burst_witness :
  fst (run_at
         (fun t =>
            @Allow Codec.leaky_json
              (NewLeakyBucketStore 2 (F64.of_int 1) 3600000000000)
              "ip:10.0.0.1" t t)
         [7; 7; 7] empty_world)
  = [Ret true; Ret true; Ret false].
Proof.
  refine (proj1 (@leaky_bucket_takes_a_burst Codec.leaky_json
                   (NewLeakyBucketStore 2 (F64.of_int 1) 3600000000000)
                   "ip:10.0.0.1" 7 _ _ _ empty_world _ _)).
  - reflexivity.
  - vm_compute. split; [discriminate | reflexivity].
  - intros k Hk.
    change (capacity (NewLeakyBucketStore 2 (F64.of_int 1) 3600000000000))
      with 2 in Hk.
    assert (Hc : k = 0 \/ k = 1 \/ k = 2) by lia.
    destruct Hc as [-> | [-> | ->]]; vm_compute; reflexivity.
  - reflexivity.
  - reflexivity.
Defined.

End LeakyBurst.

(** * Whole numbers as floats, and a burst on the token bucket *)

Module Exact.
Import F64 F64Facts.

(** Rounding a mantissa of 53 digits with zeros behind it gives the
    mantissa. *)
Lemma binary_round_aux_exact s P E i :
  0 < P -> Zdigits2 P = 53 -> -1074 <= E <= 971 -> 0 <= i ->
  binary_round_aux prec emax s (P * 2 ^ i) (E - i) loc_Exact
  = S754_finite s (Z.to_pos P) E.
Proof.
  intros HP Hd HE Hi.
  assert (Hp : 0 < 2 ^ i) by (apply Z.pow_pos_nonneg; lia).
  assert (Hdm : Zdigits2 (P * 2 ^ i) = 53 + i)
    by (rewrite Zdigits2_shiftl by lia; lia).
  assert (Hf : fexp (53 + i + (E - i)) = E) by (unfold fexp; lia).
  assert (Hsh : shift (P * 2 ^ i) (E - i) = (P, E)).
  { unfold shift. rewrite Hdm, Hf.
    destruct (0 <? E - (E - i)) eqn:En.
    - apply Z.ltb_lt in En. replace (E - (E - i)) with i by lia.
      rewrite Z.div_mul by lia. f_equal. lia.
    - apply Z.ltb_ge in En. assert (i = 0) by lia. subst i.
      rewrite Z.mul_1_r. f_equal. lia. }
  assert (HshP : shift P E = (P, E)).
  { unfold shift. rewrite Hd.
    replace (0 <? fexp (53 + E) - E) with false; [reflexivity|].
    symmetry. apply Z.ltb_ge. unfold fexp. lia. }
  destruct (binary_round_aux_spec s (P * 2 ^ i) (E - i) loc_Exact ltac:(nia))
    as (m2 & _ & Hex & ->).
  rewrite Hsh in *. cbn [fst snd] in *.
  rewrite Hex; [|reflexivity|].
  - rewrite HshP. unfold finish. cbn [fst snd].
    destruct P as [|q|q]; try lia.
    replace (E <=? emax - prec) with true
      by (symmetry; apply Z.leb_le; unfold emax, prec; lia).
    reflexivity.
  - intros _. rewrite Hdm, Hf. replace (E - (E - i)) with i by lia.
    apply Z.mod_mul. lia.
Qed.

(** A whole number below [2^53], written with zeros behind it, rounds to
    the float of the number. *)
Lemma binary_round_scaled s p j q :
  Zpos p < 2 ^ 53 -> 0 <= j -> Zpos q = Zpos p * 2 ^ j ->
  binary_round prec emax s q (- j) = binary_round prec emax s p 0.
Proof.
  intros Hp Hj Hq.
  pose proof (digits2_pos_bounds p) as [L U].
  assert (Hd : Zpos (digits2_pos p) <= 53).
  { destruct (Z_lt_le_dec 53 (Zpos (digits2_pos p))) as [H|H]; [|exact H].
    assert (2 ^ 53 <= 2 ^ (Zpos (digits2_pos p) - 1))
      by (apply Z.pow_le_mono_r; lia).
    lia. }
  rewrite (binary_round_exact s p Hd).
  set (d := Zpos (digits2_pos p)) in *.
  assert (Hpd : 0 < 2 ^ (53 - d)) by (apply Z.pow_pos_nonneg; lia).
  assert (Hpj : 0 < 2 ^ j) by (apply Z.pow_pos_nonneg; lia).
  destruct (binary_round_eq s q (- j)) as (mz & ez & Hez & Hmz & ->).
  assert (Hdq : Zpos (digits2_pos q) = d + j).
  { change (Zpos (digits2_pos q)) with (Zdigits2 (Zpos q)).
    rewrite Hq, Zdigits2_shiftl by lia. reflexivity. }
  rewrite Hdq in Hez.
  replace (d + j + - j) with d in Hez by lia.
  assert (Hfd : fexp d = d - 53) by (unfold fexp; lia).
  rewrite Hfd in Hez.
  assert (Hi : 0 <= d - 53 - ez) by lia.
  assert (Hmz' : mz = (Zpos p * 2 ^ (53 - d)) * 2 ^ (d - 53 - ez)).
  { rewrite Hmz, Hq. rewrite <- !Z.mul_assoc, <- !Z.pow_add_r by lia.
    f_equal. f_equal. lia. }
  rewrite Hmz'.
  pose proof (binary_round_aux_exact s (Zpos p * 2 ^ (53 - d)) (d - 53)
                (d - 53 - ez)) as Hx.
  replace (d - 53 - (d - 53 - ez)) with ez in Hx by lia.
  apply Hx; try lia.
  rewrite Zdigits2_shiftl by lia. cbn [Zdigits2]. fold d. lia.
Qed.

(** One less than a whole number. *)
Lemma sub_one_exact k :
  1 <= k < 2 ^ 53 -> sub (of_int k) one = of_int (k - 1).
Proof.
  intros Hk. destruct k as [|p|p]; try lia.
  destruct (Whole.of_int_small p ltac:(lia)) as [Eo Hd]. rewrite Eo, one_eq.
  pose proof (digits2_pos_bounds p) as [L U].
  set (d := Zpos (digits2_pos p)) in *.
  assert (Hpd : 0 < 2 ^ (53 - d)) by (apply Z.pow_pos_nonneg; lia).
  unfold sub, SFsub.
  replace (Z.min (d - 53) (-52)) with (-52) by lia.
  pose proof (shl_align_spec (Z.to_pos (Zpos p * 2 ^ (53 - d))) (d - 53) (-52))
    as Hs.
  destruct (shl_align _ (d - 53) (-52)) as [mz ez]. destruct Hs as [Hez Hmz].
  rewrite Z2Pos.id in Hmz by lia.
  replace (Z.min (d - 53) (-52)) with (-52) in Hez by lia. subst ez.
  assert (Hmz' : Zpos mz = Zpos p * 2 ^ 52).
  { rewrite Hmz, <- Z.mul_assoc, <- Z.pow_add_r by lia. do 2 f_equal. lia. }
  change (fst (shl_align 4503599627370496 (-52) (-52))) with 4503599627370496%positive.
  cbn [fst cond_Zopp]. rewrite Hmz'.
  replace (Zpos p * 2 ^ 52 - 4503599627370496) with ((Zpos p - 1) * 2 ^ 52) by lia.
  destruct (Zpos p - 1) as [|p'|p'] eqn:Ep; try lia.
  - reflexivity.
  - assert (Hq : 0 < Zpos p' * 2 ^ 52) by lia.
    destruct (Zpos p' * 2 ^ 52) as [|q|q] eqn:Eq; try lia.
    cbn [binary_normalize].
    change (-52) with (- 52).
    apply (binary_round_scaled false p' 52 q); lia.
Qed.

(** The floats of whole numbers are in the order of the numbers. *)
Lemma of_int_leb k B :
  0 <= k <= B -> B < 2 ^ 53 -> leb (of_int k) (of_int B) = true.
Proof.
  intros Hk HB.
  destruct k as [|p|p]; try lia; destruct B as [|b|b]; try lia.
  - reflexivity.
  - destruct (Whole.of_int_small b ltac:(lia)) as [-> _]. reflexivity.
  - destruct (Whole.of_int_small p ltac:(lia)) as [-> Hdp].
    destruct (Whole.of_int_small b ltac:(lia)) as [-> Hdb].
    pose proof (digits2_pos_bounds p) as [Lp Up].
    pose proof (digits2_pos_bounds b) as [Lb Ub].
    pose proof (Zdigits2_le (Zpos p) (Zpos b) ltac:(lia)) as Hle.
    cbn [Zdigits2] in Hle.
    set (dp := Zpos (digits2_pos p)) in *. set (db := Zpos (digits2_pos b)) in *.
    assert (0 < 2 ^ (53 - dp)) by (apply Z.pow_pos_nonneg; lia).
    assert (0 < 2 ^ (53 - db)) by (apply Z.pow_pos_nonneg; lia).
    apply leb_pos_iff. rewrite !Z2Pos.id by lia.
    destruct (Z.eq_dec dp db) as [E|E]; [right|left; lia].
    split; [lia|]. rewrite E. apply Z.mul_le_mono_nonneg_r; lia.
Qed.

End Exact.

Module TokenBurst.

Import TokenBucket Run.

(** No time, no refill: at the time of the last refill the bucket holds
    what it held, for a rate that is a number. *)
Lemma refill_at_once s k now :
  F64.is_finite (rate s) = true ->
  0 <= k <= burst s -> burst s < 2 ^ 53 ->
  refill s {| Tokens := F64.of_int k; LastRefill := now |} now = F64.of_int k.
Proof.
  intros Hf Hk HB. unfold refill. cbn [Tokens LastRefill]. unfold Time.Sub.
  rewrite Z.sub_diag.
  change (Duration.Seconds
            (Z.max GoInt.min_int64 (Z.min GoInt.max_int64 0)))
    with (S754_zero false).
  assert (E : F64.add (F64.of_int k) (F64.mul (S754_zero false) (rate s))
              = F64.of_int k).
  { destruct (rate s) as [sr|sr| |sr mr er]; try discriminate;
      cbn [F64.mul SFmul xorb].
    - destruct k as [|p|p]; try lia.
      + destruct sr; reflexivity.
      + destruct (Whole.of_int_small p ltac:(lia)) as [-> _]. reflexivity.
    - destruct k as [|p|p]; try lia.
      + destruct sr; reflexivity.
      + destruct (Whole.of_int_small p ltac:(lia)) as [-> _]. reflexivity. }
  rewrite E. unfold F64.gtb.
  pose proof (Exact.of_int_leb k (burst s) Hk HB) as Hle.
  apply F64Facts.leb_ltb_false in Hle. unfold F64.ltb in Hle. now rewrite Hle.
Qed.

Lemma one_token k :
  0 <= k < 2 ^ 53 -> F64.ltb (F64.of_int k) F64.one = (k <? 1).
Proof.
  intros Hk. destruct (k <? 1) eqn:E.
  - apply Z.ltb_lt in E. assert (k = 0) by lia. subst k. reflexivity.
  - apply Z.ltb_ge in E. apply F64Facts.leb_ltb_false.
    change F64.one with (F64.of_int 1). apply Exact.of_int_leb; lia.
Qed.

Section WithJSON.
Context `{JSON tokenBucketState}.

Section Burst.
Variable s : TokenBucketStore.
Variable identifier : string.
Variable now : Time.t.
Hypothesis Hrate : F64.is_finite (rate s) = true.
Hypothesis Hburst : 0 <= burst s < 2 ^ 53.
Hypothesis Hjson : forall k, 0 <= k <= burst s ->
  decode (encode {| Tokens := F64.of_int k; LastRefill := now |})
  = Ok {| Tokens := F64.of_int k; LastRefill := now |}.

(** The server holds [k] tokens for the identifier, last refilled at
    [now]; a full bucket need not be stored. *)
Definition filled (w : world) (k : Z) : Prop :=
  Redis.fault (server w) = None /\
  ((k = burst s /\
    Redis.kv (server w) !! TokenBucketFacts.key s identifier = None) \/
   exists t, Redis.kv (server w) !! TokenBucketFacts.key s identifier
             = Some (Redis.Entry
                       (encode {| Tokens := F64.of_int k; LastRefill := now |})
                       t)).

Lemma token_Allow_filled w k :
  filled w k -> 0 <= k <= burst s ->
  fst (Allow s identifier now now w) = Ret (1 <=? k) /\
  filled (snd (Allow s identifier now now w)) (if 1 <=? k then k - 1 else k).
Proof.
  intros [Hup Hst] Hk.
  assert (Hl : fst (getBucketState s (TokenBucketFacts.key s identifier) now w)
               = Ret {| Tokens := F64.of_int k; LastRefill := now |}).
  { destruct Hst as [[-> Hn]|[t Hs]].
    - now rewrite (TokenBucketFacts.token_getBucketState_absent s _ now w Hup Hn).
    - now rewrite (TokenBucketFacts.token_getBucketState_decoded s _ now w _ _
                     Hup Hs (Hjson k Hk)). }
  rewrite (TokenBucketFacts.token_Allow_loaded s identifier now now w _ Hl).
  unfold TokenBucketFacts.consumed.
  rewrite refill_at_once by (auto; lia).
  rewrite one_token by lia. rewrite Z.leb_antisym.
  destruct (k <? 1) eqn:E; cbn [negb].
  - cbn. split; [reflexivity|]. split; [exact Hup|exact Hst].
  - apply Z.ltb_ge in E. rewrite Exact.sub_one_exact by lia.
    unfold bind, wrap, saveBucketState, Marshal. cbn [Tokens].
    rewrite F64Facts.of_int_finite by lia.
    set (w1 := logged w _).
    rewrite (SetState_ok w1 Hup). cbn [fst snd ret].
    split; [reflexivity|]. split; [exact Hup|]. right. eexists.
    cbn. apply lookup_insert_eq.
Qed.

Lemma token_burst_from (n : nat) :
  forall w k,
    filled w k -> Z.of_nat n <= k <= burst s ->
    fst (run_at (fun t => Allow s identifier t t) (repeat now n) w)
      = repeat (Ret true) n /\
    filled (snd (run_at (fun t => Allow s identifier t t) (repeat now n) w))
      (k - Z.of_nat n).
Proof.
  induction n as [|n IH]; intros w k Hw Hn.
  - cbn. rewrite Z.sub_0_r. auto.
  - cbn [repeat run_at].
    destruct (token_Allow_filled w k Hw ltac:(lia)) as [Hr Hf].
    destruct (Allow s identifier now now w) as [o w1]. cbn [fst snd] in *.
    replace (1 <=? k) with true in * by (symmetry; apply Z.leb_le; lia).
    specialize (IH w1 (k - 1) Hf ltac:(lia)).
    destruct (run_at _ (repeat now n) w1) as [os w2]. cbn [fst snd] in *.
    destruct IH as [E1 E2]. subst o. split; [now rewrite E1|].
    replace (k - Z.of_nat (S n)) with (k - 1 - Z.of_nat n) by lia. exact E2.
Qed.

Lemma run_at_app {A} (f : Time.t -> M A) ts1 ts2 w :
  run_at f (ts1 ++ ts2) w =
  let '(os1, w1) := run_at f ts1 w in
  let '(os2, w2) := run_at f ts2 w1 in
  ((os1 ++ os2)%list, w2).
Proof.
  revert w. induction ts1 as [|t ts1 IH]; intros w.
  - cbn. now destruct (run_at f ts2 w).
  - cbn [app run_at]. destruct (f t w) as [o w1].
    rewrite IH. destruct (run_at f ts1 w1) as [os1 w2].
    now destruct (run_at f ts2 w2).
Qed.

(** A token bucket takes a burst of its size.  On a server that can be
    reached, with a rate that is a number, a burst size [B] from 0 to
    [2^53] and a bucket that is not stored: of [B + 1] calls of [Allow] at
    one instant the first [B] are allowed and the last is denied, and the
    bucket is then empty. *)
Theorem token_bucket_takes_a_burst w :
  Redis.fault (server w) = None ->
  Redis.kv (server w) !! TokenBucketFacts.key s identifier = None ->
  fst (run_at (fun t => Allow s identifier t t)
         (repeat now (S (Z.to_nat (burst s)))) w)
    = (repeat (Ret true) (Z.to_nat (burst s)) ++ [Ret false])%list /\
  filled (snd (run_at (fun t => Allow s identifier t t)
                 (repeat now (S (Z.to_nat (burst s)))) w)) 0.
Proof.
  intros Hup Hk.
  assert (Hw : filled w (burst s)) by (split; auto).
  replace (S (Z.to_nat (burst s))) with (Z.to_nat (burst s) + 1)%nat by lia.
  rewrite repeat_app, run_at_app. cbn [repeat].
  pose proof (token_burst_from (Z.to_nat (burst s)) w (burst s) Hw ltac:(lia))
    as [E1 E2].
  rewrite Z2Nat.id, Z.sub_diag in E2 by lia.
  destruct (run_at _ (repeat now (Z.to_nat (burst s))) w) as [os1 w1].
  cbn [fst snd] in *. cbn [run_at].
  destruct (token_Allow_filled w1 0 E2 ltac:(lia)) as [Hr Hf].
  destruct (Allow s identifier now now w1) as [o w2]. cbn [fst snd] in *.
  subst o os1. split; [reflexivity | exact Hf].
Qed.

End Burst.

End WithJSON.

(** The theorem at a bucket of burst size 2. *)
Lemma token_bucket_takes_a_burst_witness :
  fst (run_at
         (fun t =>
            @Allow Codec.token_json
              (NewTokenBucketStore (F64.of_int 1) 2 3600000000000)
              "ip:10.0.0.1" t t)
         [7; 7; 7] empty_world)
  = [Ret true; Ret true; Ret false].
Proof.
  refine (proj1 (@token_bucket_takes_a_burst Codec.token_json
                   (NewTokenBucketStore (F64.of_int 1) 2 3600000000000)
                   "ip:10.0.0.1" 7 _ _ _ empty_world _ _)).
  - reflexivity.
  - vm_compute. split; [discriminate | reflexivity].
  - intros k Hk.
    change (burst (NewTokenBucketStore (F64.of_int 1) 2 3600000000000))
      with 2 in Hk.
    assert (Hc : k = 0 \/ k = 1 \/ k = 2) by lia.
    destruct Hc as [-> | [-> | ->]]; vm_compute; reflexivity.
  - reflexivity.
  - reflexivity.
Defined.

End TokenBurst.

(** * The sliding window at the start of a window *)

Module Boundary.

Import SlidingWindow Run.

(** The whole part of the float of a whole number below [2^53]. *)
Lemma to_int64_of_int p :
  0 <= p < 2 ^ 53 -> F64.to_int64 (F64.of_int p) = p.
Proof.
  intros Hp. destruct p as [|q|q]; try lia; [reflexivity|].
  destruct (Whole.of_int_small q ltac:(lia)) as [-> Hd].
  pose proof (F64Facts.digits2_pos_bounds q) as [L U].
  set (d := Zpos (digits2_pos q)) in *.
  assert (Hpow : 0 < 2 ^ (53 - d)) by (apply Z.pow_pos_nonneg; lia).
  unfold F64.to_int64.
  rewrite (proj2 (Whole.trunc_pos _ _)) by lia.
  rewrite Z2Pos.id by lia. replace (- (d - 53)) with (53 - d) by lia.
  rewrite Z.div_mul by lia.
  rewrite GoIntFacts.in_int64b_true; [reflexivity|].
  unfold GoInt.in_int64, GoInt.min_int64, GoInt.max_int64. lia.
Qed.

(** A whole number times one. *)
Lemma mul_one_exact p :
  0 <= p < 2 ^ 53 -> F64.mul (F64.of_int p) F64.one = F64.of_int p.
Proof.
  intros Hp. destruct p as [|q|q]; try lia; [reflexivity|].
  destruct (Whole.of_int_small q ltac:(lia)) as [-> Hd].
  pose proof (F64Facts.digits2_pos_bounds q) as [L U].
  set (d := Zpos (digits2_pos q)) in *.
  assert (Hpow : 0 < 2 ^ (53 - d)) by (apply Z.pow_pos_nonneg; lia).
  rewrite F64Facts.one_eq. unfold F64.mul, SFmul. cbn [xorb].
  rewrite Pos2Z.inj_mul, Z2Pos.id by lia.
  change (Zpos 4503599627370496) with (2 ^ 52).
  replace (d - 53 + -52) with ((d - 53) - 52) by lia.
  rewrite Exact.binary_round_aux_exact; [reflexivity|lia| |lia|lia].
  rewrite F64Facts.Zdigits2_shiftl by lia. cbn [Zdigits2]. fold d. lia.
Qed.

(** At the first second of a window the previous window counts in full. *)
Lemma weightedCount_at_the_boundary s p c :
  Duration.Second <= windowSize s -> 0 <= p < 2 ^ 53 ->
  weightedCount s 0 p c = GoInt.add p c.
Proof.
  intros Hw Hp. unfold weightedCount, offset.
  assert (Hx : F64Facts.ge_one (Duration.Seconds (windowSize s))).
  { unfold Duration.Second in Hw.
    unfold Duration.Seconds, Duration.Second. apply F64Facts.add_ge_one.
    - apply F64Facts.of_int_ge_one.
      pose proof (Z.quot_le_mono 1000000000 (windowSize s) 1000000000
                    ltac:(lia) ltac:(lia)) as Hq.
      rewrite Z.quot_same in Hq by lia. exact Hq.
    - rewrite F64Facts.of_int_1e9. apply F64Facts.div_sign.
      apply F64Facts.of_int_sign. apply Z.rem_nonneg; lia. }
  assert (E0 : F64.div (F64.of_int 0) (Duration.Seconds (windowSize s))
               = S754_zero false).
  { destruct (Duration.Seconds (windowSize s)) as [sx|[|]| |[|] m e];
      cbn [F64Facts.ge_one] in Hx; try contradiction; reflexivity. }
  rewrite E0.
  change (F64.sub F64.one (S754_zero false)) with F64.one.
  now rewrite mul_one_exact, to_int64_of_int.
Qed.

(** The sliding window at the start of a window.  On a server that can be
    reached, with a window of a second or more, at a time whose seconds are
    a multiple of the window, with [c] requests counted in the current
    window and [p] in the previous one: the weighted count is [p + c], and
    [Allow] allows the request exactly when [p + c] is below the limit. *)
Theorem sliding_window_at_the_boundary s identifier now w c p :
  Duration.Second <= windowSize s ->
  Redis.fault (server w) = None ->
  SlidingWindowFacts.holds w (SlidingWindowFacts.currentKey s identifier now) c ->
  SlidingWindowFacts.holds w (SlidingWindowFacts.previousKey s identifier now) p ->
  p < 2 ^ 53 -> c < 2 ^ 62 ->
  GoInt.rem (Time.Unix now) (SlidingWindowFacts.secs s) = 0 ->
  fst (Allow s identifier now w) = Ret (p + c <? limit s).
Proof.
  intros Hw Hup Hc Hp Hp53 Hc62 Hr.
  pose proof (F64Facts.Seconds_whole (windowSize s) Hw) as Hs.
  apply Z.eqb_neq in Hs.
  assert (Hp0 : 0 <= p) by (destruct Hp as [[_ ->]|(t & _ & H)]; lia).
  assert (Hc0 : 0 <= c) by (destruct Hc as [[_ ->]|(t & _ & H)]; lia).
  unfold Allow, bind, divide, modulo. rewrite Hs. cbn [ret].
  fold (SlidingWindowFacts.secs s).
  fold (SlidingWindowFacts.currentWindow s now).
  fold (SlidingWindowFacts.currentKey s identifier now).
  fold (SlidingWindowFacts.previousKey s identifier now).
  rewrite (SlidingWindowFacts.Check_holds _ w c Hup Hc).
  rewrite (SlidingWindowFacts.Check_holds _ (logged w _) p Hup Hp).
  rewrite Hr, weightedCount_at_the_boundary by (auto; lia).
  unfold GoInt.add. rewrite GoIntFacts.wrap64_id
    by (unfold GoInt.in_int64, GoInt.min_int64, GoInt.max_int64; lia).
  rewrite Z.leb_antisym.
  destruct (p + c <? limit s); cbn [negb]; [|reflexivity].
  set (w2 := logged (logged w _) _).
  rewrite (Counters.IncrementPreserveTTL_reachable _ _ w2 Hup).
  change (server w2) with (server w).
  destruct Hc as [[Hk _]|(t & Hk & Hn)]; rewrite Hk; [reflexivity|].
  cbn [Redis.value].
  rewrite StrFacts.string2ll_Itoa
    by (unfold GoInt.in_int64, GoInt.min_int64, GoInt.max_int64 in *; lia).
  replace (c =? GoInt.max_int64) with false
    by (symmetry; apply Z.eqb_neq; unfold GoInt.max_int64; lia).
  reflexivity.
Qed.

(** The theorem at a limit of 10, with 10 requests in the previous minute. *)
Lemma sliding_window_at_the_boundary_witness :
  fst (Allow (NewSlidingWindowStore 10 60000000000) "ip:10.0.0.1" 120000000000
         (stored empty_world "rate_limit_sliding_window:ip:10.0.0.1:1"
            (Redis.Entry "10" None)))
  = Ret false.
Proof.
  apply (sliding_window_at_the_boundary
           (NewSlidingWindowStore 10 60000000000) "ip:10.0.0.1" 120000000000
           (stored empty_world "rate_limit_sliding_window:ip:10.0.0.1:1"
              (Redis.Entry "10" None))
           0 10).
  - vm_compute. discriminate.
  - reflexivity.
  - left. split; reflexivity.
  - right. exists None. split; [reflexivity|]. vm_compute.
    split; [reflexivity | discriminate].
  - reflexivity.
  - reflexivity.
  - reflexivity.
Defined.

End Boundary.

(** * The decision of the sliding window *)

Module SlidingDecision.

Import SlidingWindow SlidingWindowSpec Run.
Import SlidingWindowFacts.

(** The share of the previous window in the weighted count, for a window of
    a minute: [int(float64(previousCount) * previousWeight)]. *)
Definition share (r previousCount : Z) : Z :=
  F64.to_int64
    (F64.mul (F64.of_int previousCount)
       (F64.sub F64.one (offset (NewSlidingWindowStore 0 60000000000) r))).

(** The share is the floor of the specification, or one less where the
    exact product is a whole number. *)
Definition near (r previousCount : Z) : bool :=
  let f := spec_weightedCount 60 r previousCount 0 in
  (0 <=? share r previousCount) && (share r previousCount <=? previousCount) &&
  ((share r previousCount =? f)
   || ((share r previousCount =? f - 1)
       && ((previousCount * (60 - r)) mod 60 =? 0))).

Definition range (n : nat) : list Z := map Z.of_nat (seq 0 n).

Lemma In_range n z : 0 <= z < Z.of_nat n -> In z (range n).
Proof.
  intros Hz. unfold range. apply in_map_iff.
  exists (Z.to_nat z). split; [lia|]. apply in_seq. lia.
Qed.

Lemma near_minute :
  forallb (fun r => forallb (near r) (range 101)) (range 60) = true.
Proof. vm_compute. reflexivity. Qed.

Lemma spec_weightedCount_add secs r p c :
  spec_weightedCount secs r p c = spec_weightedCount secs r p 0 + c.
Proof. unfold spec_weightedCount. lia. Qed.

(** For a window of a minute and up to a hundred requests in the previous
    window, the weighted count of [Allow] is the one of the specification,
    or one less where [previousCount * weight] is a whole number. *)
Lemma weightedCount_near L r p c :
  0 <= r < 60 -> 0 <= p <= 100 -> 0 <= c < 2 ^ 62 ->
  weightedCount (NewSlidingWindowStore L 60000000000) r p c
    = spec_weightedCount 60 r p c \/
  (weightedCount (NewSlidingWindowStore L 60000000000) r p c
     = spec_weightedCount 60 r p c - 1 /\
   (p * (60 - r)) mod 60 = 0).
Proof.
  intros Hr Hp Hc.
  pose proof near_minute as Hn.
  rewrite forallb_forall in Hn.
  specialize (Hn r (In_range 60 r ltac:(lia))).
  rewrite forallb_forall in Hn.
  specialize (Hn p (In_range 101 p ltac:(lia))).
  unfold near in Hn.
  apply andb_true_iff in Hn as [Hb Hn].
  apply andb_true_iff in Hb as [Hlo Hhi].
  apply Z.leb_le in Hlo, Hhi.
  change (weightedCount (NewSlidingWindowStore L 60000000000) r p c)
    with (GoInt.add (share r p) c).
  unfold GoInt.add.
  rewrite GoIntFacts.wrap64_id
    by (unfold GoInt.in_int64, GoInt.min_int64, GoInt.max_int64; lia).
  rewrite (spec_weightedCount_add 60 r p c).
  apply orb_true_iff in Hn as [E|E].
  - apply Z.eqb_eq in E. left. lia.
  - apply andb_true_iff in E as [E Em].
    apply Z.eqb_eq in E, Em. right. split; [lia | exact Em].
Qed.

(** A key for the window before and a key for the window of second 114:
    ten requests in the previous minute, nine in this one. *)
Definition late_in_the_window : world :=
  stored
    (stored empty_world "rate_limit_sliding_window:ip:10.0.0.1:0"
       (Redis.Entry "10" (Some 120000000000)))
    "rate_limit_sliding_window:ip:10.0.0.1:1"
    (Redis.Entry "9" (Some 120000000000)).

(** The claim as worded does not hold: at second 54 of a minute, with a
    limit of 10, ten requests in the previous window and nine in the current
    one, the exact weighted count is [floor(10 * (1 - 54/60)) + 9 = 10], which
    is not below the limit, while [Allow] computes 9 and allows the
    request: in float64, [1 - 54/60] is just below a tenth and ten times it
    is just below one. *)
Lemma sliding_window_decision_counterexample :
  fst (Allow (NewSlidingWindowStore 10 60000000000) "ip:10.0.0.1"
         114000000000 late_in_the_window) = Ret true /\
  GoInt.rem (Time.Unix 114000000000) 60 = 54 /\
  weightedCount (NewSlidingWindowStore 10 60000000000) 54 10 9 = 9 /\
  spec_weightedCount 60 54 10 9 = 10 /\
  spec_permits 10 60 54 10 9 = false.
Proof. repeat split; vm_compute; reflexivity. Qed.

(** C4, amended.  The decision of the sliding window.  On a server that can
    be reached, with [c] the count of the current window and [p] the count of
    the previous one, [Allow] allows the request exactly when the weighted
    count [int(float64(p) * (1 - offset)) + c], with the product taken in
    float64, is strictly below the limit; the fixed window, in contrast,
    allows a count equal to its limit.  At the start of a window (offset 0)
    the weighted count is [p + c]: with a limit of 10, a window of a minute,
    10 requests in the previous window and none in the current one it is 10
    and the request is denied; half a window later it is 5.  The weighted
    count is not always [floor(p * (1 - offset)) + c]: for a window of a
    minute and up to a hundred requests in the previous window it is that
    number, or one less where [p * (1 - offset)] is a whole number. *)
Theorem sliding_window_decision s identifier now w c p :
  Duration.Second <= windowSize s ->
  Redis.fault (server w) = None ->
  holds w (currentKey s identifier now) c ->
  holds w (previousKey s identifier now) p ->
  c < GoInt.max_int64 ->
  fst (Allow s identifier now w)
  = Ret (weightedCount s (GoInt.rem (Time.Unix now) (secs s)) p c <? limit s) /\
  (forall fs t n,
     Redis.kv (server w) !! FixedWindowFacts.key fs identifier
                              (FixedWindowFacts.windowNum fs now)
       = Some (Redis.Entry (Str.Itoa n) t) ->
     Duration.Second <= FixedWindow.windowSize fs ->
     0 < n < GoInt.max_int64 ->
     fst (FixedWindow.Allow fs identifier now w)
     = Ret (n + 1 <=? FixedWindow.limit fs)) /\
  (p < 2 ^ 53 -> weightedCount s 0 p c = GoInt.add p c) /\
  weightedCount (NewSlidingWindowStore 10 60000000000) 0 10 0 = 10 /\
  weightedCount (NewSlidingWindowStore 10 60000000000) 30 10 0 = 5 /\
  (forall L r p' c',
     0 <= r < 60 -> 0 <= p' <= 100 -> 0 <= c' < 2 ^ 62 ->
     weightedCount (NewSlidingWindowStore L 60000000000) r p' c'
       = spec_weightedCount 60 r p' c' \/
     (weightedCount (NewSlidingWindowStore L 60000000000) r p' c'
        = spec_weightedCount 60 r p' c' - 1 /\
      (p' * (60 - r)) mod 60 = 0)).
Proof.
  intros Hw Hup Hc Hp Hmax.
  split; [|split; [|split; [|split; [|split]]]].
  - now apply Allow_decides.
  - intros fs t n Hk Hfw Hn.
    now rewrite (FixedWindowFacts.Allow_next fs identifier Hfw now w n t Hup Hn Hk).
  - intros Hp53. apply Boundary.weightedCount_at_the_boundary; [exact Hw|].
    destruct Hp as [[_ ->]|(t & _ & H)]; lia.
  - reflexivity.
  - reflexivity.
  - apply weightedCount_near.
Qed.

(** The theorem at the start of a window, after a full previous window. *)
Lemma sliding_window_decision_witness :
  fst (Allow (NewSlidingWindowStore 10 60000000000) "ip:10.0.0.1" 120000000000
         {| server :=
              {| Redis.fault := None;
                 Redis.kv :=
                   {[ "rate_limit_sliding_window:ip:10.0.0.1:1"
                      := Redis.Entry "10" (Some 120000000000) ]} |};
            calls := [] |})
  = Ret false.
Proof.
  refine (proj1 (sliding_window_decision
                   (NewSlidingWindowStore 10 60000000000) "ip:10.0.0.1"
                   120000000000 _ 0 10 _ _ _ _ _)).
  - vm_compute. discriminate.
  - reflexivity.
  - left. split; reflexivity.
  - right. exists (Some 120000000000). split; [reflexivity|].
    vm_compute. split; [reflexivity | discriminate].
  - reflexivity.
Defined.

End SlidingDecision.

(** * Limiters of one strategy *)

Module Shared.

Import Selector Run.

Section WithJSON.
Context `{JSON TokenBucket.tokenBucketState} `{JSON LeakyBucket.leakyBucketState}.

(** Limiters of one strategy count together.  Two limiters that the
    selector builds for the same strategy build the same keys for an
    identifier, whatever their limits, rates and sizes.  So two fixed
    windows of one size and different limits keep one counter: on a server
    that can be reached and holds no counter for the window, after a
    request that the first limiter counted, the second limiter counts its
    request as the second one and allows it only when its limit is 2 or
    more. *)
Theorem limiters_of_one_strategy_count_together
    config1 config2 identifier t0 now w :
  Strategies.same_strategy (NewRateLimiter config1) (NewRateLimiter config2)
    = true ->
  (forall k, keys (NewRateLimiter config1) identifier k <->
             keys (NewRateLimiter config2) identifier k) /\
  (Strategy config1 = "fixed_window" ->
   Strategy config2 = "fixed_window" ->
   Window config1 = Window config2 ->
   Duration.Second <= Window config1 ->
   Redis.fault (server w) = None ->
   (forall n,
      Redis.kv (server w)
        !! Str.Sprintf_s_s_d "rate_limit_fixed_window" identifier n = None) ->
   fst (Middleware.Allow (NewRateLimiter config2) identifier t0 now
          (snd (Middleware.Allow (NewRateLimiter config1) identifier t0 now w)))
   = Ret (2 <=? Limit_ config2)).
Proof.
  intros Hs. split.
  - intros k. unfold NewRateLimiter in *.
    repeat (destruct (String.eqb (Strategy config1) _));
      repeat (destruct (String.eqb (Strategy config2) _));
      try discriminate Hs; reflexivity.
  - intros E1 E2 Esize Hw Hup Hk.
    unfold NewRateLimiter. rewrite E1, E2, <- Esize.
    cbn [String.eqb Ascii.eqb Bool.eqb Middleware.Allow Limiter_store
           Middleware.FixedWindow_store].
    set (s1 := FixedWindow.NewFixedWindowStore (Limit_ config1) (Window config1)).
    set (s2 := FixedWindow.NewFixedWindowStore (Limit_ config2) (Window config1)).
    rewrite (FixedWindowFacts.Allow_first s1 identifier Hw now w Hup (Hk _)).
    cbn [snd]. set (w1 := stored _ _ _).
    rewrite (FixedWindowFacts.Allow_next s2 identifier Hw now w1 1
               (Some (Redis.formatSec (Window config1) * Duration.Second))
               Hup).
    + reflexivity.
    + unfold GoInt.max_int64. lia.
    + apply lookup_insert_eq.
Qed.

End WithJSON.

Import Codec.

(** The theorem at the limits 3 and 1 for windows of one minute. *)
Lemma limiters_of_one_strategy_count_together_witness :
  fst (Middleware.Allow
         (NewRateLimiter {| Strategy := "fixed_window"; Limit_ := 1;
                            Window := 60000000000; Burst := 0;
                            Rate := F64.zero |})
         "ip:10.0.0.1" 0 0
         (snd (Middleware.Allow
                 (NewRateLimiter {| Strategy := "fixed_window"; Limit_ := 3;
                                    Window := 60000000000; Burst := 0;
                                    Rate := F64.zero |})
                 "ip:10.0.0.1" 0 0 empty_world)))
  = Ret false.
Proof.
  apply (proj2 (limiters_of_one_strategy_count_together
                  {| Strategy := "fixed_window"; Limit_ := 3;
                     Window := 60000000000; Burst := 0; Rate := F64.zero |}
                  {| Strategy := "fixed_window"; Limit_ := 1;
                     Window := 60000000000; Burst := 0; Rate := F64.zero |}
                  "ip:10.0.0.1" 0 0 empty_world eq_refl)).
  - reflexivity.
  - reflexivity.
  - reflexivity.
  - vm_compute. discriminate.
  - reflexivity.
  - intros n. apply lookup_empty.
Defined.

End Shared.

(** * Sums and products of whole numbers as floats *)

Module Arithmetic.
Import F64 F64Facts.

Lemma digits_below p : Zpos p < 2 ^ 53 -> Zpos (digits2_pos p) <= 53.
Proof.
  intros Hp. pose proof (digits2_pos_bounds p) as [L U].
  destruct (Z_lt_le_dec 53 (Zpos (digits2_pos p))) as [H|H]; [|exact H].
  assert (2 ^ 53 <= 2 ^ (Zpos (digits2_pos p) - 1))
    by (apply Z.pow_le_mono_r; lia).
  lia.
Qed.

(** The product of two whole numbers, when it is below [2^53]. *)
Lemma mul_exact a b :
  0 <= a < 2 ^ 53 -> 0 <= b < 2 ^ 53 -> a * b < 2 ^ 53 ->
  mul (of_int a) (of_int b) = of_int (a * b).
Proof.
  intros Ha Hb Hab.
  destruct a as [|p|p]; try lia.
  { destruct b as [|q|q]; try lia; [reflexivity|].
    destruct (Whole.of_int_small q ltac:(lia)) as [-> _]. reflexivity. }
  destruct b as [|q|q]; try lia.
  { rewrite Z.mul_0_r.
    destruct (Whole.of_int_small p ltac:(lia)) as [-> _]. reflexivity. }
  assert (Hp : Zpos p < 2 ^ 53) by lia.
  assert (Hq : Zpos q < 2 ^ 53) by lia.
  destruct (Whole.of_int_small p Hp) as [-> Hdp].
  destruct (Whole.of_int_small q Hq) as [-> Hdq].
  change (Zpos p * Zpos q) with (Zpos (p * q)) in *.
  destruct (Whole.of_int_small (p * q) Hab) as [-> Hdpq].
  pose proof (Zdigits2_mul (Zpos p) (Zpos q) ltac:(lia) ltac:(lia)) as Hm.
  cbn [Zdigits2] in Hm. change (Zpos p * Zpos q) with (Zpos (p * q)) in Hm.
  cbn [Zdigits2] in Hm.
  set (dp := Zpos (digits2_pos p)) in *. set (dq := Zpos (digits2_pos q)) in *.
  set (dpq := Zpos (digits2_pos (p * q))) in *.
  assert (0 < dp) by (unfold dp; lia). assert (0 < dq) by (unfold dq; lia).
  assert (H1 : 0 < 2 ^ (53 - dp)) by (apply Z.pow_pos_nonneg; lia).
  assert (H2 : 0 < 2 ^ (53 - dq)) by (apply Z.pow_pos_nonneg; lia).
  assert (H3 : 0 < 2 ^ (53 - dpq)) by (apply Z.pow_pos_nonneg; lia).
  unfold mul, SFmul. cbn [xorb].
  rewrite Pos2Z.inj_mul, !Z2Pos.id by lia.
  pose proof (Exact.binary_round_aux_exact false (Zpos (p * q) * 2 ^ (53 - dpq))
                (dpq - 53) (53 - dp - dq + dpq)) as Hx.
  replace (dpq - 53 - (53 - dp - dq + dpq)) with (dp - 53 + (dq - 53)) in Hx by lia.
  replace (Zpos (p * q) * 2 ^ (53 - dpq) * 2 ^ (53 - dp - dq + dpq))
    with (Zpos p * 2 ^ (53 - dp) * (Zpos q * 2 ^ (53 - dq))) in Hx.
  - apply Hx; try lia.
    rewrite Zdigits2_shiftl by lia. cbn [Zdigits2]. fold dpq. lia.
  - rewrite Pos2Z.inj_mul.
    replace (53 - dp - dq + dpq) with ((53 - dp) + (53 - dq) - (53 - dpq)) by lia.
    assert (E : 2 ^ (53 - dp + (53 - dq))
                = 2 ^ (53 - dpq) * 2 ^ (53 - dp + (53 - dq) - (53 - dpq))).
    { rewrite <- Z.pow_add_r by lia. f_equal. lia. }
    rewrite Z.pow_add_r in E by lia. nia.
Qed.


(** The sum of two whole numbers, when it is below [2^53]. *)
Lemma add_exact a b :
  0 <= a -> 0 <= b -> a + b < 2 ^ 53 ->
  add (of_int a) (of_int b) = of_int (a + b).
Proof.
  intros Ha Hb Hab.
  destruct a as [|p|p]; try lia.
  { rewrite Z.add_0_l. destruct b as [|q|q]; try lia; [reflexivity|].
    destruct (Whole.of_int_small q ltac:(lia)) as [-> _]. reflexivity. }
  destruct b as [|q|q]; try lia.
  { rewrite Z.add_0_r.
    destruct (Whole.of_int_small p ltac:(lia)) as [-> _]. reflexivity. }
  destruct (Whole.of_int_small p ltac:(lia)) as [-> Hdp].
  destruct (Whole.of_int_small q ltac:(lia)) as [-> Hdq].
  pose proof (digits2_pos_bounds p) as [Lp Up].
  pose proof (digits2_pos_bounds q) as [Lq Uq].
  set (dp := Zpos (digits2_pos p)) in *. set (dq := Zpos (digits2_pos q)) in *.
  assert (H1 : 0 < 2 ^ (53 - dp)) by (apply Z.pow_pos_nonneg; lia).
  assert (H2 : 0 < 2 ^ (53 - dq)) by (apply Z.pow_pos_nonneg; lia).
  unfold add, SFadd.
  set (ez := Z.min (dp - 53) (dq - 53)).
  pose proof (shl_align_spec (Z.to_pos (Zpos p * 2 ^ (53 - dp))) (dp - 53) ez) as Sp.
  pose proof (shl_align_spec (Z.to_pos (Zpos q * 2 ^ (53 - dq))) (dq - 53) ez) as Sq.
  destruct (shl_align _ (dp - 53) ez) as [mp ep].
  destruct (shl_align _ (dq - 53) ez) as [mq eq].
  destruct Sp as [Ep Hmp], Sq as [Eq Hmq].
  rewrite Z2Pos.id in Hmp, Hmq by lia.
  assert (Hep : ep = ez) by (unfold ez in *; lia).
  assert (Heq : eq = ez) by (unfold ez in *; lia).
  subst ep eq.
  assert (Hez : ez <= 0) by (unfold ez; lia).
  assert (Hmp' : Zpos mp = Zpos p * 2 ^ (- ez)).
  { rewrite Hmp, <- Z.mul_assoc, <- Z.pow_add_r by lia. do 2 f_equal. lia. }
  assert (Hmq' : Zpos mq = Zpos q * 2 ^ (- ez)).
  { rewrite Hmq, <- Z.mul_assoc, <- Z.pow_add_r by lia. do 2 f_equal. lia. }
  cbn [fst cond_Zopp]. rewrite <- Pos2Z.inj_add. cbn [binary_normalize].
  change (Zpos p + Zpos q) with (Zpos (p + q)).
  replace ez with (- (- ez)) at 1 by lia.
  rewrite (Exact.binary_round_scaled false (p + q) (- ez) (mp + mq));
    [reflexivity | lia | lia |].
  rewrite !Pos2Z.inj_add, Hmp', Hmq'. lia.
Qed.

(** The floats of whole numbers keep the strict order of the numbers. *)
Lemma of_int_ltb k B :
  0 <= k < B -> B < 2 ^ 53 -> ltb (of_int k) (of_int B) = true.
Proof.
  intros Hk HB.
  destruct B as [|b|b]; try lia.
  destruct (Whole.of_int_small b ltac:(lia)) as [-> Hdb].
  destruct k as [|p|p]; try lia; [reflexivity|].
  destruct (Whole.of_int_small p ltac:(lia)) as [-> Hdp].
  pose proof (digits2_pos_bounds p) as [Lp Up].
  pose proof (digits2_pos_bounds b) as [Lb Ub].
  pose proof (Zdigits2_le (Zpos p) (Zpos b) ltac:(lia)) as Hle.
  cbn [Zdigits2] in Hle.
  set (dp := Zpos (digits2_pos p)) in *. set (db := Zpos (digits2_pos b)) in *.
  assert (0 < 2 ^ (53 - dp)) by (apply Z.pow_pos_nonneg; lia).
  assert (0 < 2 ^ (53 - db)) by (apply Z.pow_pos_nonneg; lia).
  apply ltb_pos_iff. rewrite !Z2Pos.id by lia.
  destruct (Z.eq_dec dp db) as [E|E]; [right|left; lia].
  split; [lia|]. rewrite E. apply Z.mul_lt_mono_pos_r; lia.
Qed.

(** Whole seconds as a float. *)
Lemma Seconds_of_whole n :
  0 <= n < 2 ^ 53 -> Duration.Seconds (n * Duration.Second) = of_int n.
Proof.
  intros Hn. unfold Duration.Seconds, Duration.Second.
  rewrite Z.quot_mul, Z.rem_mul by lia.
  change (div (of_int 0) (of_int 1000000000)) with (S754_zero false).
  destruct n as [|p|p]; try lia; [reflexivity|].
  destruct (Whole.of_int_small p ltac:(lia)) as [-> _]. reflexivity.
Qed.

End Arithmetic.

(** * Leak and refill over whole seconds *)

Module Decay.

Import Run.

Lemma Sub_whole_seconds last d :
  0 <= d <= 9223372036 ->
  Time.Sub (last + d * Duration.Second) last = d * Duration.Second.
Proof.
  intros Hd. unfold Time.Sub, Duration.Second, GoInt.min_int64, GoInt.max_int64.
  lia.
Qed.

Section WithJSON.
Context {token_json : JSON TokenBucket.tokenBucketState}.
Context {leaky_json : JSON LeakyBucket.leakyBucketState}.

(** What leaks in whole seconds.  For a leaky bucket whose leak rate is the
    whole number [r], [d] whole seconds after the last leak [d * r] units
    have leaked; the water is then what was there less [d * r], and not below
    0, and on a server that can be reached [Allow] allows the request
    exactly when that is below the capacity. *)
Theorem leak_of_whole_seconds (s : LeakyBucket.LeakyBucketStore) st r d
    identifier t0 w :
  LeakyBucket.leakRate s = F64.of_int r ->
  0 <= r < 2 ^ 53 -> 0 <= d <= 9223372036 -> d * r < 2 ^ 53 ->
  0 <= LeakyBucket.Water st <= GoInt.max_int64 ->
  LeakyBucket.leaked s st (LeakyBucket.LastLeak st + d * Duration.Second)
    = d * r /\
  LeakyBucket.drained s st (LeakyBucket.LastLeak st + d * Duration.Second)
    = Z.max 0 (LeakyBucket.Water st - d * r) /\
  (Redis.fault (server w) = None ->
   fst (LeakyBucket.getBucketState s (LeakyBucketFacts.key s identifier) t0 w)
     = Ret st ->
   fst (LeakyBucket.Allow s identifier t0
          (LeakyBucket.LastLeak st + d * Duration.Second) w)
   = Ret (Z.max 0 (LeakyBucket.Water st - d * r) <? LeakyBucket.capacity s)).
Proof.
  intros Hrate Hr Hd Hdr Hw.
  assert (Hl : LeakyBucket.leaked s st
                 (LeakyBucket.LastLeak st + d * Duration.Second) = d * r).
  { unfold LeakyBucket.leaked. rewrite Sub_whole_seconds by exact Hd.
    rewrite Arithmetic.Seconds_of_whole, Hrate by lia.
    rewrite Arithmetic.mul_exact by lia.
    apply Boundary.to_int64_of_int. nia. }
  assert (Hdr0 : 0 <= d * r) by nia.
  assert (Hdrain : LeakyBucket.drained s st
                     (LeakyBucket.LastLeak st + d * Duration.Second)
                   = Z.max 0 (LeakyBucket.Water st - d * r)).
  { unfold LeakyBucket.drained. rewrite Hl. unfold GoInt.sub.
    rewrite GoIntFacts.wrap64_id; [reflexivity|].
    unfold GoInt.in_int64, GoInt.min_int64, GoInt.max_int64 in *. lia. }
  split; [exact Hl|]. split; [exact Hdrain|].
  intros Hup Hload.
  rewrite (LeakyBucketFacts.leaky_Allow_loaded s identifier t0 _ w st Hload).
  rewrite Hdrain, Z.leb_antisym. unfold bind.
  destruct (_ <? LeakyBucket.capacity s); cbn [negb];
    rewrite LeakyBucketFacts.saveBucketState_ok by exact Hup; reflexivity.
Qed.

(** What is refilled in whole seconds.  For a token bucket whose rate is the
    whole number [r] and that holds the whole number [k] of tokens, [d] whole
    seconds after the last refill the bucket holds [k + d * r] tokens, and no
    more than the burst size; on a server that can be reached [Allow] allows
    the request exactly when that is 1 or more. *)
Theorem refill_of_whole_seconds (s : TokenBucket.TokenBucketStore) st r k d
    identifier t0 w :
  TokenBucket.rate s = F64.of_int r ->
  TokenBucket.Tokens st = F64.of_int k ->
  0 <= r < 2 ^ 53 -> 0 <= k -> 0 <= d <= 9223372036 -> k + d * r < 2 ^ 53 ->
  0 <= TokenBucket.burst s < 2 ^ 53 ->
  TokenBucket.refill s st (TokenBucket.LastRefill st + d * Duration.Second)
    = F64.of_int (Z.min (TokenBucket.burst s) (k + d * r)) /\
  (Redis.fault (server w) = None ->
   fst (TokenBucket.getBucketState s (TokenBucketFacts.key s identifier) t0 w)
     = Ret st ->
   fst (TokenBucket.Allow s identifier t0
          (TokenBucket.LastRefill st + d * Duration.Second) w)
   = Ret (1 <=? Z.min (TokenBucket.burst s) (k + d * r))).
Proof.
  intros Hrate Htok Hr Hk Hd Hsum HB.
  assert (Hdr0 : 0 <= d * r) by nia.
  assert (Hre : TokenBucket.refill s st
                  (TokenBucket.LastRefill st + d * Duration.Second)
                = F64.of_int (Z.min (TokenBucket.burst s) (k + d * r))).
  { unfold TokenBucket.refill. rewrite Sub_whole_seconds by exact Hd.
    rewrite Arithmetic.Seconds_of_whole, Hrate, Htok by lia.
    rewrite Arithmetic.mul_exact by lia.
    rewrite Arithmetic.add_exact by lia.
    unfold F64.gtb.
    destruct (Z_lt_le_dec (TokenBucket.burst s) (k + d * r)) as [Hlt|Hle].
    - fold (F64.ltb (F64.of_int (TokenBucket.burst s)) (F64.of_int (k + d * r))).
      rewrite Arithmetic.of_int_ltb by lia. f_equal. lia.
    - pose proof (Exact.of_int_leb (k + d * r) (TokenBucket.burst s)
                    ltac:(lia) ltac:(lia)) as Hleb.
      apply F64Facts.leb_ltb_false in Hleb. unfold F64.ltb in Hleb.
      rewrite Hleb. f_equal. lia. }
  split; [exact Hre|]. intros Hup Hload.
  rewrite (TokenBucketFacts.token_Allow_loaded s identifier t0 _ w st Hload).
  unfold TokenBucketFacts.consumed. rewrite Hre.
  set (m := Z.min (TokenBucket.burst s) (k + d * r)).
  assert (Hm : 0 <= m < 2 ^ 53) by (unfold m; lia).
  rewrite TokenBurst.one_token by exact Hm. rewrite Z.leb_antisym.
  destruct (m <? 1) eqn:E; cbn [negb]; [reflexivity|].
  apply Z.ltb_ge in E. rewrite Exact.sub_one_exact by lia.
  unfold bind, wrap, TokenBucket.saveBucketState, TokenBucket.Marshal.
  cbn [TokenBucket.Tokens]. rewrite F64Facts.of_int_finite by lia.
  set (w1 := logged w _). now rewrite (SetState_ok w1 Hup).
Qed.

End WithJSON.

Import Codec.

(** The theorem at a full bucket of 5 units that leaks one unit a second,
    two seconds after its last leak. *)
Lemma leak_of_whole_seconds_witness :
  LeakyBucket.leaked
    (LeakyBucket.NewLeakyBucketStore 5 (F64.of_int 1) 3600000000000)
    {| LeakyBucket.Water := 5; LeakyBucket.LastLeak := 0 |} 2000000000 = 2.
Proof.
  apply (proj1 (leak_of_whole_seconds
                  (LeakyBucket.NewLeakyBucketStore 5 (F64.of_int 1) 3600000000000)
                  {| LeakyBucket.Water := 5; LeakyBucket.LastLeak := 0 |}
                  1 2 "ip:10.0.0.1" 0 empty_world eq_refl
                  ltac:(lia) ltac:(lia) ltac:(lia)
                  ltac:(vm_compute; split; discriminate))).
Defined.

(** The theorem at an empty bucket of 5 tokens that gets one token a second,
    seven seconds after its last refill. *)
Lemma refill_of_whole_seconds_witness :
  TokenBucket.refill
    (TokenBucket.NewTokenBucketStore (F64.of_int 1) 5 3600000000000)
    {| TokenBucket.Tokens := F64.of_int 0; TokenBucket.LastRefill := 0 |}
    7000000000 = F64.of_int 5.
Proof.
  apply (proj1 (refill_of_whole_seconds
                  (TokenBucket.NewTokenBucketStore (F64.of_int 1) 5 3600000000000)
                  {| TokenBucket.Tokens := F64.of_int 0;
                     TokenBucket.LastRefill := 0 |}
                  1 0 7 "ip:10.0.0.1" 0 empty_world eq_refl eq_refl
                  ltac:(lia) ltac:(lia) ltac:(lia) ltac:(lia)
                  ltac:(vm_compute; split; [discriminate | reflexivity]))).
Defined.

End Decay.
